(** * A shallow embedding of the Sudoku engine

    The development follows the TypeScript sources of the puzzle engine:
    the board helpers of [sudokuValidator] ([createEmptyBoard],
    [deepCopyGrid], [isSafe], [validateBoard], [findEmptyCells],
    [shuffleArray]), the constants of [gameConstants] and the rigorous
    generator module ([solveSudoku], [generateCompleteSudoku],
    [removeCells], [removeSymmetricCells], [countSolutions],
    [hasUniqueSolution], [generatePuzzle], [getHint]).

    Conventions of the embedding.
    - A [SudokuGrid] is a JavaScript array of arrays: [list (list nat)].
      Reading [grid[r][c]] is [cell grid r c : option nat], where [None]
      stands for [undefined].  The engine only ever builds 9x9 grids
      ([createEmptyBoard]); [wf_grid] states that shape, and on such grids
      every index the code uses is in range.  On a grid of another shape
      the source can read [undefined] as the value of a cell, or throw a
      [TypeError] where a row is missing; the embedding does not follow
      it there, and the statements about functions that read a grid
      assume [wf_grid].
    - In-place mutation is explicit state passing: a function that writes
      to its argument returns the grid it leaves behind.
    - [Math.random] is a global source of numbers; it is threaded through
      as a list of naturals [Rand], each draw consuming one element. *)

From Stdlib Require Import ZArith Lia.
From stdpp Require Import base list strings pretty sorting.
From Stdlib Require Import Ascii.

Open Scope Z_scope.
Open Scope nat_scope.

(** ** Constants ([gameConstants]) *)

Definition SUDOKU_SIZE : nat := 9.
Definition EMPTY_CELL : nat := 0.
Definition BOX_SIZE : nat := 3.

(** ** Types ([types/sudoku]) *)

Abbreviation CellValue := nat (only parsing).
Abbreviation SudokuGrid := (list (list nat)) (only parsing).

Record CellPosition := mkPos { row : nat; col : nat }.

#[global] Instance CellPosition_eq_dec : EqDecision CellPosition.
Proof. solve_decision. Defined.

Record DifficultyConfig := mkConfig {
  name : string;
  label : string;
  clues : Z;
  maxHints : Z;
  description : string
}.

(** The static table, keyed by difficulty name, in declaration order. *)
Definition DIFFICULTY_CONFIGS : list (string * DifficultyConfig) :=
  [ ("easy",   mkConfig "easy" "Easy" 45 5 "Perfect for beginners");
    ("medium", mkConfig "medium" "Medium" 35 3 "Moderate challenge");
    ("hard",   mkConfig "hard" "Hard" 28 2 "For experienced players");
    ("expert", mkConfig "expert" "Expert" 22 1 "Ultimate challenge") ].

(** [DIFFICULTY_CONFIGS[difficulty]] among the own properties of the
    table: [None] when the table has no entry of that name. *)
Fixpoint lookup_config (tbl : list (string * DifficultyConfig)) (difficulty : string)
  : option DifficultyConfig :=
  match tbl with
  | [] => None
  | (k, cfg) :: tbl' => if String.eqb k difficulty then Some cfg else lookup_config tbl' difficulty
  end.

(** The table is an object literal, so a lookup that finds no own
    property goes on to [Object.prototype]: for the names below it yields
    a function (the prototype object itself for [__proto__]), not
    [undefined].  The embedding of [generatePuzzle] follows the source for
    the four configured names and for every name that is not in this
    list. *)
Definition OBJECT_PROTOTYPE_PROPERTIES : list string :=
  [ "constructor"; "hasOwnProperty"; "isPrototypeOf"; "propertyIsEnumerable";
    "toLocaleString"; "toString"; "valueOf"; "__proto__";
    "__defineGetter__"; "__defineSetter__"; "__lookupGetter__"; "__lookupSetter__" ].

Definition inherited_property (difficulty : string) : bool :=
  existsb (String.eqb difficulty) OBJECT_PROTOTYPE_PROPERTIES.

(** ** Board access *)

(** [grid[r][c]] *)
Definition cell (grid : SudokuGrid) (r c : nat) : option nat :=
  match grid !! r with
  | Some line => line !! c
  | None => None
  end.

(** [grid[r][c] === v] *)
Definition cell_is (grid : SudokuGrid) (r c : nat) (v : nat) : bool :=
  match cell grid r c with
  | Some x => Nat.eqb x v
  | None => false
  end.

(** [grid[r][c] = v] *)
Definition set_cell (grid : SudokuGrid) (r c : nat) (v : nat) : SudokuGrid :=
  alter (fun line => <[c := v]> line) r grid.

Definition wf_grid (grid : SudokuGrid) : Prop :=
  length grid = SUDOKU_SIZE /\ Forall (fun line => length line = SUDOKU_SIZE) grid.

Definition wf_gridb (grid : SudokuGrid) : bool :=
  Nat.eqb (length grid) SUDOKU_SIZE
  && forallb (fun line => Nat.eqb (length line) SUDOKU_SIZE) grid.

(** ** [sudokuValidator] *)

Definition createEmptyBoard : SudokuGrid :=
  replicate SUDOKU_SIZE (replicate SUDOKU_SIZE EMPTY_CELL).

Definition deepCopyGrid (grid : SudokuGrid) : SudokuGrid :=
  map (fun line => line) grid.

Definition isSafe (grid : SudokuGrid) (r c : nat) (num : CellValue) : bool :=
  if Nat.eqb num EMPTY_CELL then true
  else if existsb (fun x => cell_is grid r x num) (seq 0 SUDOKU_SIZE) then false
  else if existsb (fun x => cell_is grid x c num) (seq 0 SUDOKU_SIZE) then false
  else
    let startRow := r - (r mod BOX_SIZE) in
    let startCol := c - (c mod BOX_SIZE) in
    if existsb (fun i =>
          existsb (fun j => cell_is grid (startRow + i) (startCol + j) num)
                  (seq 0 BOX_SIZE))
        (seq 0 BOX_SIZE)
    then false
    else true.

(** [`${row}-${col}`] *)
Definition conflictKey (r c : nat) : string :=
  pretty r +:+ "-" +:+ pretty c.

(** A JavaScript [Set] of strings: insertion ordered, no duplicates. *)
Definition set_add (k : string) (s : list string) : list string :=
  if existsb (String.eqb k) s then s else s ++ [k].

Record ValidationResult := mkValidation {
  isValid : bool;
  conflicts : list string
}.

(** One iteration of the inner loop of [validateBoard]; the state is the
    grid (mutated and restored), [isValid] and the conflict set.  On a 9x9
    grid every cell read is a number, and the last branch is not taken. *)
Definition validateBoard_step (r c : nat) (st : SudokuGrid * bool * list string)
  : SudokuGrid * bool * list string :=
  let '(grid, valid, confl) := st in
  match cell grid r c with
  | Some value =>
      if Nat.eqb value EMPTY_CELL then st
      else
        let grid1 := set_cell grid r c EMPTY_CELL in
        let '(valid', confl') :=
          if negb (isSafe grid1 r c value)
          then (false, set_add (conflictKey r c) confl)
          else (valid, confl) in
        (set_cell grid1 r c value, valid', confl')
  | None => st
  end.

Definition validateBoard_loop (grid : SudokuGrid) : SudokuGrid * bool * list string :=
  fold_left (fun st r =>
      fold_left (fun st c => validateBoard_step r c st) (seq 0 SUDOKU_SIZE) st)
    (seq 0 SUDOKU_SIZE) (grid, true, []).

(** [validateBoard] together with the grid it leaves behind. *)
Definition validateBoard (grid : SudokuGrid) : ValidationResult * SudokuGrid :=
  let '(grid', valid, confl) := validateBoard_loop grid in
  (mkValidation valid confl, grid').

Definition findEmptyCells (grid : SudokuGrid) : list CellPosition :=
  flat_map (fun r =>
      flat_map (fun c => if cell_is grid r c EMPTY_CELL then [mkPos r c] else [])
               (seq 0 SUDOKU_SIZE))
    (seq 0 SUDOKU_SIZE).

Definition getPossibleNumbers (grid : SudokuGrid) (r c : nat) : list CellValue :=
  filter (fun num => isSafe grid r c num = true) (seq 1 9).

(** ** Randomness *)

(** The stream of numbers behind [Math.random]; an exhausted list keeps
    answering with its default. *)
Abbreviation Rand := (list nat) (only parsing).

(** [Math.floor(Math.random() * bound)]: some index below [bound]. *)
Definition randomIndex (bound : nat) (rs : Rand) : nat * Rand :=
  match rs with
  | [] => (0, [])
  | x :: rs' => (x mod bound, rs')
  end.

(** [[a[i], a[j]] = [a[j], a[i]]] *)
Definition swap {A} (a : list A) (i j : nat) : list A :=
  match a !! i, a !! j with
  | Some x, Some y => <[j := x]> (<[i := y]> a)
  | _, _ => a
  end.

(** The loop of [shuffleArray], [i] running down to 1. *)
Fixpoint shuffle_loop {A} (i : nat) (shuffled : list A) (rs : Rand) : list A * Rand :=
  match i with
  | 0 => (shuffled, rs)
  | S i' =>
      let '(j, rs') := randomIndex (i + 1) rs in
      shuffle_loop i' (swap shuffled i j) rs'
  end.

Definition shuffleArray {A} (array : list A) (rs : Rand) : list A * Rand :=
  shuffle_loop (length array - 1) array rs.

(** ** The generator module *)

(** The scan of [solveSudoku] for the first empty cell, row-major. *)
Definition firstEmpty (grid : SudokuGrid) : option CellPosition :=
  head (findEmptyCells grid).

(** The candidate loop of [solveSudoku] at cell ([r], [c]), given the
    recursive call [rec]. The result carries the boolean returned, the grid
    left behind and the random source. *)
Fixpoint solve_candidates
    (rec : SudokuGrid -> Rand -> option (bool * SudokuGrid * Rand))
    (r c : nat) (numbers : list nat) (grid : SudokuGrid) (rs : Rand)
  : option (bool * SudokuGrid * Rand) :=
  match numbers with
  | [] => Some (false, grid, rs)
  | num :: rest =>
      if isSafe grid r c num then
        match rec (set_cell grid r c num) rs with
        | None => None
        | Some (true, grid', rs') => Some (true, grid', rs')
        | Some (false, grid', rs') =>
            solve_candidates rec r c rest (set_cell grid' r c EMPTY_CELL) rs'
        end
      else solve_candidates rec r c rest grid rs
  end.

(** [solveSudoku], with [fuel] bounding the nesting of recursive calls;
    [None] only when the fuel runs out.  The [try]/[catch] of the source
    is left out: on a 9x9 grid no statement of the body throws. *)
Fixpoint solveSudoku_fuel (fuel : nat) (grid : SudokuGrid) (depth : Z) (rs : Rand)
  : option (bool * SudokuGrid * Rand) :=
  match fuel with
  | 0 => None
  | S fuel' =>
      if (depth >? 1000)%Z then Some (false, grid, rs)
      else
        match firstEmpty grid with
        | Some p =>
            let '(numbers, rs1) := shuffleArray (seq 1 9) rs in
            solve_candidates (fun g s => solveSudoku_fuel fuel' g (depth + 1)%Z s)
                             (row p) (col p) numbers grid rs1
        | None => Some (true, grid, rs)
        end
  end.

(** Every nested call fills one of the 81 cells, so 82 levels suffice
    (see [solveSudoku_fuel_enough]). *)
Definition solveSudoku (grid : SudokuGrid) (depth : Z) (rs : Rand)
  : bool * SudokuGrid * Rand :=
  match solveSudoku_fuel (S (length (findEmptyCells grid))) grid depth rs with
  | Some res => res
  | None => (false, grid, rs)
  end.

Definition fillBox (grid : SudokuGrid) (r0 c0 : nat) (rs : Rand) : SudokuGrid * Rand :=
  let '(numbers, rs') := shuffleArray (seq 1 9) rs in
  let '(grid', _) :=
    fold_left (fun st r =>
        fold_left (fun '(g, index) c => (set_cell g r c (numbers !!! index), index + 1))
                  (seq c0 3) st)
      (seq r0 3) (grid, 0) in
  (grid', rs').

Definition fillDiagonalBoxes (grid : SudokuGrid) (rs : Rand) : SudokuGrid * Rand :=
  fold_left (fun '(g, s) box => fillBox g box box s) [0; 3; 6] (grid, rs).

Definition generateCompleteSudoku (rs : Rand) : SudokuGrid * Rand :=
  let grid := createEmptyBoard in
  let '(grid1, rs1) := fillDiagonalBoxes grid rs in
  let '(_, grid2, rs2) := solveSudoku grid1 0 rs1 in
  (grid2, rs2).

(** *** Counting solutions *)

(** The scan of [solve] inside [countSolutions]: both loops stop as soon as
    [row] (resp. [col]) is no longer [-1]; the state is the pair found. *)
Definition scanEmpty (board : SudokuGrid) : option CellPosition :=
  fold_left (fun found r =>
      match found with
      | Some _ => found
      | None =>
          fold_left (fun found c =>
              match found with
              | Some _ => found
              | None => if cell_is board r c EMPTY_CELL then Some (mkPos r c) else None
              end)
            (seq 0 SUDOKU_SIZE) None
      end)
    (seq 0 SUDOKU_SIZE) None.

(** The loop [for num = 1..9] of [solve] at cell ([r], [c]); the state is
    the board and the shared counter [solutionCount]. *)
Fixpoint count_candidates
    (rec : SudokuGrid -> Z -> option (SudokuGrid * Z))
    (maxSolutions : Z) (r c : nat) (nums : list nat)
    (board : SudokuGrid) (solutionCount : Z)
  : option (SudokuGrid * Z) :=
  match nums with
  | [] => Some (board, solutionCount)
  | num :: rest =>
      if isSafe board r c num then
        match rec (set_cell board r c num) solutionCount with
        | None => None
        | Some (board', count') =>
            let board'' := set_cell board' r c EMPTY_CELL in
            if (count' >=? maxSolutions)%Z then Some (board'', count')
            else count_candidates rec maxSolutions r c rest board'' count'
        end
      else count_candidates rec maxSolutions r c rest board solutionCount
  end.

(** The inner function [solve] of [countSolutions]; [None] only when the
    fuel runs out. *)
Fixpoint solve_fuel (fuel : nat) (maxSolutions : Z) (board : SudokuGrid) (solutionCount : Z)
  : option (SudokuGrid * Z) :=
  match fuel with
  | 0 => None
  | S fuel' =>
      if (solutionCount >=? maxSolutions)%Z then Some (board, solutionCount)
      else
        match scanEmpty board with
        | None => Some (board, solutionCount + 1)%Z
        | Some p =>
            count_candidates (solve_fuel fuel' maxSolutions) maxSolutions
                             (row p) (col p) (seq 1 9) board solutionCount
        end
  end.

(** Every nested call of [solve] fills one empty cell (see
    [solve_fuel_enough]). *)
Definition countSolutions (grid : SudokuGrid) (maxSolutions : Z) : Z :=
  let gridCopy := deepCopyGrid grid in
  match solve_fuel (S (length (findEmptyCells gridCopy))) maxSolutions gridCopy 0 with
  | Some (_, solutionCount) => solutionCount
  | None => 0%Z
  end.

(** [hasUniqueSolution], over the counter it calls. *)
Definition hasUniqueSolution_with (counter : SudokuGrid -> Z -> Z) (grid : SudokuGrid) : bool :=
  let emptyCells := findEmptyCells grid in
  let filledCells := (Z.of_nat (SUDOKU_SIZE * SUDOKU_SIZE) - Z.of_nat (length emptyCells))%Z in
  if (filledCells <? 17)%Z then false
  else
    let solutions := counter grid 2%Z in
    (solutions =? 1)%Z.

Definition hasUniqueSolution (grid : SudokuGrid) : bool :=
  hasUniqueSolution_with countSolutions grid.

(** *** Logic-only solvability *)

(** One cell of a scanning pass of [isSolvableWithoutGuessing]; [None] is
    the early [return false]. *)
Definition propagate_cell (r c : nat) (st : SudokuGrid * bool) : option (SudokuGrid * bool) :=
  let '(workGrid, madeProgress) := st in
  if cell_is workGrid r c EMPTY_CELL then
    let possibilities := getPossibleNumbers workGrid r c in
    match possibilities with
    | [value] => Some (set_cell workGrid r c value, true)
    | [] => None
    | _ => Some st
    end
  else Some st.

Definition propagate_pass (workGrid : SudokuGrid) : option (SudokuGrid * bool) :=
  fold_left (fun st r =>
      fold_left (fun st c =>
          match st with
          | Some s => propagate_cell r c s
          | None => None
          end)
        (seq 0 SUDOKU_SIZE) st)
    (seq 0 SUDOKU_SIZE) (Some (workGrid, false)).

(** The [while (madeProgress)] loop; the outer [None] only when the fuel
    runs out. *)
Fixpoint propagate_fuel (fuel : nat) (workGrid : SudokuGrid) : option bool :=
  match fuel with
  | 0 => None
  | S fuel' =>
      match propagate_pass workGrid with
      | None => Some false
      | Some (workGrid', true) => propagate_fuel fuel' workGrid'
      | Some (workGrid', false) =>
          let remainingEmpty := findEmptyCells workGrid' in
          Some (Nat.eqb (length remainingEmpty) 0)
      end
  end.

(** A pass that makes progress fills a cell (see [propagate_fuel_enough]). *)
Definition isSolvableWithoutGuessing (grid : SudokuGrid) : bool :=
  let workGrid := deepCopyGrid grid in
  match propagate_fuel (S (length (findEmptyCells workGrid))) workGrid with
  | Some b => b
  | None => false
  end.

(** *** Carving *)

(** All positions pushed by the nested loops of [removeCells]. *)
Definition allPositions : list CellPosition :=
  flat_map (fun r => map (fun c => mkPos r c) (seq 0 SUDOKU_SIZE)) (seq 0 SUDOKU_SIZE).

(** The positions of [removeSymmetricCells]: all but the centre. *)
Definition symmetricPositions : list CellPosition :=
  flat_map (fun r =>
      flat_map (fun c => if negb (Nat.eqb r 4) || negb (Nat.eqb c 4) then [mkPos r c] else [])
               (seq 0 SUDOKU_SIZE))
    (seq 0 SUDOKU_SIZE).

(** [grid[r][c] !== EMPTY_CELL] *)
Definition cell_filled (grid : SudokuGrid) (r c : nat) : bool :=
  negb (cell_is grid r c EMPTY_CELL).

(** [grid[r][c] = backup], where [backup] was read from a cell. *)
Definition restore_cell (grid : SudokuGrid) (r c : nat) (backup : option nat) : SudokuGrid :=
  match backup with
  | Some v => set_cell grid r c v
  | None => grid
  end.

(** The [for ... of shuffledPositions] loop of [removeSymmetricCells]. *)
Fixpoint removeSymmetric_loop (cellsToRemove : Z) (positions : list CellPosition)
    (puzzle : SudokuGrid) (removed : Z) : SudokuGrid * Z :=
  match positions with
  | [] => (puzzle, removed)
  | pos :: rest =>
      if (removed >=? cellsToRemove)%Z then (puzzle, removed)
      else
        let r := row pos in
        let c := col pos in
        let symRow := SUDOKU_SIZE - 1 - r in
        let symCol := SUDOKU_SIZE - 1 - c in
        if cell_filled puzzle r c && cell_filled puzzle symRow symCol then
          let backup1 := cell puzzle r c in
          let backup2 := cell puzzle symRow symCol in
          let puzzle1 := set_cell (set_cell puzzle r c EMPTY_CELL) symRow symCol EMPTY_CELL in
          if hasUniqueSolution puzzle1 then
            removeSymmetric_loop cellsToRemove rest puzzle1 (removed + 2)%Z
          else
            removeSymmetric_loop cellsToRemove rest
              (restore_cell (restore_cell puzzle1 r c backup1) symRow symCol backup2) removed
        else removeSymmetric_loop cellsToRemove rest puzzle removed
  end.

Definition removeSymmetricCells (grid : SudokuGrid) (clues : Z) (rs : Rand)
  : SudokuGrid * Rand :=
  let puzzle := deepCopyGrid grid in
  let totalCells := Z.of_nat (SUDOKU_SIZE * SUDOKU_SIZE) in
  let cellsToRemove := (totalCells - clues)%Z in
  let '(shuffledPositions, rs') := shuffleArray symmetricPositions rs in
  (fst (removeSymmetric_loop cellsToRemove shuffledPositions puzzle 0), rs').

(** The [for ... of shuffledPositions] loop of [removeCells]. *)
Fixpoint removeCells_loop (totalCells cellsToRemove maxAttempts : Z)
    (positions : list CellPosition) (puzzle : SudokuGrid) (removed attempts : Z)
  : SudokuGrid * Z :=
  match positions with
  | [] => (puzzle, removed)
  | pos :: rest =>
      if (removed >=? cellsToRemove)%Z || (attempts >=? maxAttempts)%Z then (puzzle, removed)
      else
        let r := row pos in
        let c := col pos in
        let attempts' := (attempts + 1)%Z in
        if cell_filled puzzle r c then
          let backup := cell puzzle r c in
          let puzzle1 := set_cell puzzle r c EMPTY_CELL in
          if hasUniqueSolution puzzle1 then
            let currentClues := (totalCells - removed - 1)%Z in
            if (currentClues >=? 32)%Z || isSolvableWithoutGuessing puzzle1 then
              removeCells_loop totalCells cellsToRemove maxAttempts rest puzzle1
                               (removed + 1)%Z attempts'
            else
              removeCells_loop totalCells cellsToRemove maxAttempts rest
                               (restore_cell puzzle1 r c backup) removed attempts'
          else
            removeCells_loop totalCells cellsToRemove maxAttempts rest
                             (restore_cell puzzle1 r c backup) removed attempts'
        else removeCells_loop totalCells cellsToRemove maxAttempts rest puzzle removed attempts'
  end.

Definition removeCells (grid : SudokuGrid) (clues : Z) (rs : Rand) : SudokuGrid * Rand :=
  let puzzle := deepCopyGrid grid in
  let totalCells := Z.of_nat (SUDOKU_SIZE * SUDOKU_SIZE) in
  let cellsToRemove := (totalCells - clues)%Z in
  let '(shuffledPositions, rs') := shuffleArray allPositions rs in
  let maxAttempts := (totalCells * 2)%Z in
  let '(puzzle', removed) :=
    removeCells_loop totalCells cellsToRemove maxAttempts shuffledPositions puzzle 0 0 in
  if (removed <? cellsToRemove)%Z then removeSymmetricCells grid clues rs'
  else (puzzle', rs').

(** *** Orchestration *)

(** The errors thrown inside the [try] block of [generatePuzzle]. *)
Inductive GenError :=
| InvalidDifficulty (difficulty : string)
| InvalidPuzzle.

Definition message (e : GenError) : string :=
  match e with
  | InvalidDifficulty difficulty => "Invalid difficulty level: " +:+ difficulty
  | InvalidPuzzle => "Generated puzzle or solution is invalid"
  end.

(** A line of [console.warn]: attempt number, [maxRetries] and the error. *)
Record Warning := mkWarning {
  warn_attempt : nat;
  warn_maxRetries : nat;
  warn_error : GenError
}.

(** How a call of [generatePuzzle] ends: a returned pair or a thrown
    [Error] with its message. *)
Inductive Outcome :=
| Returned (puzzle solution : SudokuGrid)
| Thrown (msg : string).

(** Arrays are truthy: [!grid] is false for every grid. *)
Definition js_not (grid : SudokuGrid) : bool := false.

(** The body of the [try] block. *)
Definition generate_once (difficulty : string) (rs : Rand)
  : (GenError + SudokuGrid * SudokuGrid) * Rand :=
  let '(solution, rs1) := generateCompleteSudoku rs in
  match lookup_config DIFFICULTY_CONFIGS difficulty with
  | None => (inl (InvalidDifficulty difficulty), rs1)
  | Some config =>
      let '(puzzle, rs2) := removeCells solution (clues config) rs1 in
      if js_not puzzle || js_not solution then (inl InvalidPuzzle, rs2)
      else (inr (deepCopyGrid puzzle, deepCopyGrid solution), rs2)
  end.

(** [lastError?.message || 'Unknown error'] *)
Definition lastMessage (lastError : option GenError) : string :=
  match lastError with
  | Some e => if String.eqb (message e) "" then "Unknown error" else message e
  | None => "Unknown error"
  end.

(** The [for (attempt = 1; attempt <= maxRetries; attempt++)] loop, with
    [todo] iterations left, followed by the final [throw]. The list is
    what was written with [console.warn], oldest first. *)
Fixpoint generate_loop (todo : nat) (attempt maxRetries : nat) (difficulty : string)
    (lastError : option GenError) (log : list Warning) (rs : Rand)
  : Outcome * list Warning * Rand :=
  match todo with
  | 0 =>
      (Thrown ("Failed to generate " +:+ difficulty +:+ " puzzle after "
               +:+ pretty maxRetries +:+ " attempts. " +:+ lastMessage lastError),
       log, rs)
  | S todo' =>
      match generate_once difficulty rs with
      | (inr (puzzle, solution), rs') => (Returned puzzle solution, log, rs')
      | (inl error, rs') =>
          generate_loop todo' (attempt + 1) maxRetries difficulty (Some error)
                        (log ++ [mkWarning attempt maxRetries error]) rs'
      end
  end.

Definition generatePuzzle (difficulty : string) (maxRetries : nat) (rs : Rand)
  : Outcome * list Warning * Rand :=
  generate_loop maxRetries 1 maxRetries difficulty None [] rs.

(** *** Hints *)

(** [Array.prototype.sort] is a stable sort; [compareFn a b <= 0] keeps
    [a] before [b]. Insertion from the right is one such sort. *)
Fixpoint sort_insert {A} (compareFn : A -> A -> Z) (x : A) (l : list A) : list A :=
  match l with
  | [] => [x]
  | y :: l' => if (compareFn x y <=? 0)%Z then x :: l else y :: sort_insert compareFn x l'
  end.

Definition js_sort {A} (compareFn : A -> A -> Z) (l : list A) : list A :=
  foldr (sort_insert compareFn) [] l.

Record Hint := mkHint {
  hint_row : nat;
  hint_col : nat;
  value : option nat
}.

(** [possibilities.length] for one empty cell. *)
Definition possibilities (grid : SudokuGrid) (p : CellPosition) : nat :=
  length (getPossibleNumbers grid (row p) (col p)).

Definition getHint (currentGrid solution : SudokuGrid) : option Hint :=
  let emptyCells := findEmptyCells currentGrid in
  if Nat.eqb (length emptyCells) 0 then None
  else
    let cellsWithPossibilities :=
      map (fun p => (p, possibilities currentGrid p)) emptyCells in
    let sorted :=
      js_sort (fun a b => (Z.of_nat (snd a) - Z.of_nat (snd b))%Z) cellsWithPossibilities in
    match sorted with
    | (hintCell, _) :: _ =>
        Some (mkHint (row hintCell) (col hintCell)
                     (cell solution (row hintCell) (col hintCell)))
    | [] => None
    end.


(** ** Auxiliary notions used in the statements *)

Definition isEmptyAt (grid : SudokuGrid) (p : CellPosition) : Prop :=
  cell_is grid (row p) (col p) EMPTY_CELL = true.

#[global] Instance isEmptyAt_dec grid p : Decision (isEmptyAt grid p).
Proof. unfold isEmptyAt. apply _. Defined.

Definition isFilledAt (grid : SudokuGrid) (p : CellPosition) : Prop :=
  match cell grid (row p) (col p) with
  | Some v => v <> EMPTY_CELL
  | None => False
  end.

#[global] Instance isFilledAt_dec grid p : Decision (isFilledAt grid p).
Proof. unfold isFilledAt. destruct (cell grid (row p) (col p)); apply _. Defined.

(** The positions holding a clue, and their number. *)
Definition filledCells (grid : SudokuGrid) : list CellPosition :=
  filter (isFilledAt grid) allPositions.

Definition clueCount (grid : SudokuGrid) : nat := length (filledCells grid).

(** [p] is one of the 81 positions and the grid holds the empty marker there. *)
Definition emptyCell (grid : SudokuGrid) (p : CellPosition) : Prop :=
  row p < SUDOKU_SIZE /\ col p < SUDOKU_SIZE /\ cell grid (row p) (col p) = Some EMPTY_CELL.

(** Every cell of [puzzle] is empty or holds what [solution] holds there. *)
Definition agrees (puzzle solution : SudokuGrid) : Prop :=
  forall r c, cell puzzle r c = Some EMPTY_CELL \/ cell puzzle r c = cell solution r c.

(** Two positions share a row, a column or a 3x3 box. *)
Definition sameUnit (p q : CellPosition) : Prop :=
  row p = row q \/ col p = col q
  \/ (row p / BOX_SIZE = row q / BOX_SIZE /\ col p / BOX_SIZE = col q / BOX_SIZE).

(** The cell at [p] is filled and its value occurs in another cell of its
    row, column or box. *)
Definition inConflict (grid : SudokuGrid) (p : CellPosition) : Prop :=
  exists v q, v <> EMPTY_CELL /\ cell grid (row p) (col p) = Some v
    /\ q <> p /\ row q < SUDOKU_SIZE /\ col q < SUDOKU_SIZE /\ sameUnit p q
    /\ cell grid (row q) (col q) = Some v.

(** The test made by [validateBoard] on one cell. *)
Definition isConflictb (grid : SudokuGrid) (p : CellPosition) : bool :=
  match cell grid (row p) (col p) with
  | Some v =>
      negb (Nat.eqb v EMPTY_CELL)
      && negb (isSafe (set_cell grid (row p) (col p) EMPTY_CELL) (row p) (col p) v)
  | None => false
  end.

(** Row-major order on positions. *)
Definition row_major_lt (p q : CellPosition) : Prop :=
  row p < row q \/ (row p = row q /\ col p < col q).

#[global] Instance row_major_lt_dec p q : Decision (row_major_lt p q).
Proof. unfold row_major_lt. apply _. Defined.

(** [h] is the first element of [l] with the least key. *)
Definition first_min {A} (k : A -> nat) (l : list A) (h : A) : Prop :=
  exists l1 l2, l = l1 ++ h :: l2
    /\ Forall (fun y => k h < k y) l1 /\ Forall (fun y => k h <= k y) l2.

(** What one call of the solver guarantees about the grid it leaves. *)
Definition solver_post (grid : SudokuGrid) (res : bool * SudokuGrid * Rand) : Prop :=
  fst (fst res) = false -> snd (fst res) = grid.

Definition counter_post (board : SudokuGrid) (count : Z) (res : SudokuGrid * Z) : Prop :=
  fst res = board /\ (count <= snd res)%Z.


(** ** Sample grids *)

(** A solved board. *)
Definition solved_grid : SudokuGrid :=
  [ [2; 3; 4; 6; 5; 8; 7; 1; 9];
    [5; 6; 7; 3; 1; 9; 4; 2; 8];
    [8; 9; 1; 4; 7; 2; 3; 5; 6];
    [6; 7; 9; 2; 3; 4; 1; 8; 5];
    [1; 2; 8; 5; 6; 7; 9; 4; 3];
    [3; 4; 5; 8; 9; 1; 6; 7; 2];
    [7; 1; 6; 9; 8; 5; 2; 3; 4];
    [9; 8; 2; 1; 4; 3; 5; 6; 7];
    [4; 5; 3; 7; 2; 6; 8; 9; 1] ].

(** A board without completion: the first two cells of row 0 can only
    hold 1 and 2, and column 1 already has both. *)
Definition stuck_grid : SudokuGrid :=
  [ [0; 0; 3; 4; 5; 6; 7; 8; 9];
    [0; 0; 0; 0; 0; 0; 0; 0; 0];
    [0; 0; 0; 0; 0; 0; 0; 0; 0];
    [0; 1; 0; 0; 0; 0; 0; 0; 0];
    [0; 2; 0; 0; 0; 0; 0; 0; 0];
    [0; 0; 0; 0; 0; 0; 0; 0; 0];
    [0; 0; 0; 0; 0; 0; 0; 0; 0];
    [0; 0; 0; 0; 0; 0; 0; 0; 0];
    [0; 0; 0; 0; 0; 0; 0; 0; 0] ].

(** A random source for one run of [generatePuzzle]: the 1712 draws taken
    by [generateCompleteSudoku] all answer 0, and the next 80 make
    [shuffleArray] hand [removeCells] the 81 positions in reverse
    row-major order; every later draw answers 0. *)
Definition reverse_source : Rand :=
  replicate 1712 0 ++ seq 0 40 ++ [40] ++ rev (seq 1 39).

(** The draws of that run that are left for [removeCells]. *)
Definition reverse_carving : Rand := drop 1712 reverse_source.

(** The puzzle carved from [solved_grid] in that run. *)
Definition carved_grid : SudokuGrid :=
  [ [2; 0; 0; 0; 0; 0; 0; 0; 0];
    [0; 0; 0; 3; 0; 0; 4; 2; 8];
    [0; 0; 0; 0; 7; 0; 0; 5; 6];
    [0; 0; 0; 0; 3; 4; 0; 8; 5];
    [0; 2; 8; 5; 6; 7; 9; 4; 0];
    [3; 4; 0; 8; 9; 0; 0; 0; 0];
    [7; 1; 0; 0; 8; 0; 0; 0; 0];
    [9; 8; 2; 0; 0; 3; 0; 0; 0];
    [0; 0; 0; 0; 0; 0; 0; 0; 1] ].

(** [solved_grid] except that row 0 holds 5 at columns 0 and 3. *)
Definition doubled_five_grid : SudokuGrid :=
  set_cell (set_cell solved_grid 0 0 5) 0 3 5.

(** ** Solved grids *)

(** No filled cell of the grid repeats a value of its row, column or box. *)
Definition consistent (grid : SudokuGrid) : Prop :=
  forall p, row p < SUDOKU_SIZE -> col p < SUDOKU_SIZE -> ~ inConflict grid p.

(** Every cell holds a value between 0 and 9. *)
Definition bounded (grid : SudokuGrid) : Prop :=
  forall p, row p < SUDOKU_SIZE -> col p < SUDOKU_SIZE ->
    exists v, cell grid (row p) (col p) = Some v /\ v <= 9.

(** A complete, valid board. *)
Definition solved (grid : SudokuGrid) : Prop :=
  wf_grid grid /\ findEmptyCells grid = [] /\ consistent grid /\ bounded grid.

(** What the solver keeps true of the grid it works on. *)
Definition solver_inv (grid : SudokuGrid) : Prop :=
  wf_grid grid /\ consistent grid /\ bounded grid.


(** ** Rows, columns and boxes as lists of positions *)

Definition rowCells (r : nat) : list CellPosition :=
  map (fun c => mkPos r c) (seq 0 SUDOKU_SIZE).

Definition colCells (c : nat) : list CellPosition :=
  map (fun r => mkPos r c) (seq 0 SUDOKU_SIZE).

(** The cells of the box with index [b], boxes being numbered row-major. *)
Definition boxCells (b : nat) : list CellPosition :=
  flat_map (fun i => map (fun j => mkPos (BOX_SIZE * (b / BOX_SIZE) + i)
                                         (BOX_SIZE * (b mod BOX_SIZE) + j))
                         (seq 0 BOX_SIZE))
           (seq 0 BOX_SIZE).

(** The 27 units of the board. *)
Definition units : list (list CellPosition) :=
  map rowCells (seq 0 SUDOKU_SIZE) ++ map colCells (seq 0 SUDOKU_SIZE)
  ++ map boxCells (seq 0 SUDOKU_SIZE).

(** What the grid holds along a list of positions. *)
Definition valuesAt (grid : SudokuGrid) (ps : list CellPosition) : list (option nat) :=
  map (fun p => cell grid (row p) (col p)) ps.

(** The unit holds each of 1..9 once. *)
Definition unitComplete (grid : SudokuGrid) (ps : list CellPosition) : Prop :=
  valuesAt grid ps ≡ₚ map Some (seq 1 9).

#[global] Instance sameUnit_dec p q : Decision (sameUnit p q).
Proof. unfold sameUnit. apply _. Defined.

(** The board after the three diagonal boxes were filled with [n1], [n5]
    and [n9], read row by row. *)
Definition seeded (n1 n5 n9 : list nat) : SudokuGrid :=
  map (fun r =>
      map (fun c =>
          if Nat.eqb (r / BOX_SIZE) (c / BOX_SIZE)
          then nth (BOX_SIZE * (r mod BOX_SIZE) + c mod BOX_SIZE)
                   (match r / BOX_SIZE with 0 => n1 | 1 => n5 | _ => n9 end) 0
          else EMPTY_CELL)
        (seq 0 SUDOKU_SIZE))
    (seq 0 SUDOKU_SIZE).

(** What is used of a unit: nine different positions of the board, any
    two of them in one row, column or box. *)
Definition unit_ok (ps : list CellPosition) : Prop :=
  length ps = 9 /\ NoDup ps
  /\ Forall (fun p => row p < SUDOKU_SIZE /\ col p < SUDOKU_SIZE) ps
  /\ Forall (fun p => Forall (fun q => sameUnit p q) ps) ps.

(** Two positions of the board that share a row, column or box lie in one
    of the 27 units. *)
Definition units_cover : Prop :=
  Forall (fun p => Forall (fun q =>
      sameUnit p q -> Exists (fun ps => p ∈ ps /\ q ∈ ps) units) allPositions) allPositions.

(** ** Sample grids of the additional statements *)

(** [solved_grid] with its first cell cleared. *)
Definition one_gap_grid : SudokuGrid := set_cell solved_grid 0 0 EMPTY_CELL.

(** [s] is a complete valid board that keeps the clues of [grid]. *)
Definition completion (grid s : SudokuGrid) : Prop := solved s /\ agrees grid s.

(** The empty cells of the grid form a pattern that the half-turn of the
    board maps to itself. *)
Definition half_turn_symmetric (grid : SudokuGrid) : Prop :=
  forall r c, r < SUDOKU_SIZE -> c < SUDOKU_SIZE ->
    (cell grid r c = Some EMPTY_CELL
     <-> cell grid (SUDOKU_SIZE - 1 - r) (SUDOKU_SIZE - 1 - c) = Some EMPTY_CELL).

(** ** More of [sudokuValidator] *)

(** [isPuzzleComplete], together with the grid [validateBoard] leaves
    behind. *)
Definition isPuzzleComplete (grid : SudokuGrid) : bool * SudokuGrid :=
  if existsb (fun r => existsb (fun c => cell_is grid r c EMPTY_CELL) (seq 0 SUDOKU_SIZE))
             (seq 0 SUDOKU_SIZE)
  then (false, grid)
  else let '(result, grid') := validateBoard grid in (isValid result, grid').

(** [grid1[row][col] !== grid2[row][col]] compares two cell values, or
    [undefined]; the scan stops at the first difference. *)
Definition areGridsEqual (grid1 grid2 : SudokuGrid) : bool :=
  forallb (fun r =>
      forallb (fun c => bool_decide (cell grid1 r c = cell grid2 r c)) (seq 0 SUDOKU_SIZE))
    (seq 0 SUDOKU_SIZE).

Definition getBoxIndex (r c : nat) : nat :=
  (r / BOX_SIZE) * BOX_SIZE + c / BOX_SIZE.

Definition getRelatedCells (position : CellPosition) : list CellPosition :=
  let r0 := row position in
  let c0 := col position in
  let startRow := r0 - (r0 mod BOX_SIZE) in
  let startCol := c0 - (c0 mod BOX_SIZE) in
  flat_map (fun c => if negb (Nat.eqb c c0) then [mkPos r0 c] else []) (seq 0 SUDOKU_SIZE)
  ++ flat_map (fun r => if negb (Nat.eqb r r0) then [mkPos r c0] else []) (seq 0 SUDOKU_SIZE)
  ++ flat_map (fun r =>
         flat_map (fun c => if negb (Nat.eqb r r0) && negb (Nat.eqb c c0)
                            then [mkPos r c] else [])
                  (seq startCol BOX_SIZE))
       (seq startRow BOX_SIZE).

(** What [getRelatedCells] returns for [p]: the twenty other positions of
    its row, column and box, each once. *)
Definition related_ok (p : CellPosition) : Prop :=
  length (getRelatedCells p) = 20 /\ NoDup (getRelatedCells p)
  /\ Forall (fun q => q ∈ getRelatedCells p <-> q <> p /\ sameUnit p q) allPositions
  /\ Forall (fun q => q ∈ allPositions) (getRelatedCells p).

(** Where [getBoxIndex] sends [p]. *)
Definition box_index_ok (p : CellPosition) : Prop :=
  getBoxIndex (row p) (col p) < SUDOKU_SIZE
  /\ p ∈ boxCells (getBoxIndex (row p) (col p))
  /\ Forall (fun q => getBoxIndex (row p) (col p) = getBoxIndex (row q) (col q)
                      <-> row p / BOX_SIZE = row q / BOX_SIZE
                          /\ col p / BOX_SIZE = col q / BOX_SIZE) allPositions.

(** ** [gameHelpers] *)

(** [formatTime]: [toString] of a natural number is its decimal numeral. *)
Definition formatTime (seconds : nat) : string :=
  let minutes := seconds / 60 in
  let remainingSeconds := seconds mod 60 in
  let minutesStr := if Nat.ltb minutes 10 then "0" +:+ pretty minutes else pretty minutes in
  let secondsStr :=
    if Nat.ltb remainingSeconds 10 then "0" +:+ pretty remainingSeconds
    else pretty remainingSeconds in
  minutesStr +:+ ":" +:+ secondsStr.

(** The character of a decimal digit. *)
Definition digitChar (d : nat) : ascii := ascii_of_nat (48 + d).

(** A position or [null]. *)
Definition arePositionsEqual (pos1 pos2 : option CellPosition) : bool :=
  match pos1, pos2 with
  | Some p1, Some p2 => Nat.eqb (row p1) (row p2) && Nat.eqb (col p1) (col p2)
  | None, None => true
  | _, _ => false
  end.

Inductive Difficulty := Easy | Medium | Hard | Expert.

(** [calculateScore] on whole numbers of seconds and hints.  The
    multipliers 1, 1.5, 2 and 3 are kept as their doubles; the product
    with the base score is a whole number, so [Math.round] changes
    nothing.  The integers of the embedding are exact; they agree with
    the doubles of the source as long as every number computed stays
    below 2^53, which arguments between 0 and 2^32 ensure. *)
Definition baseScore : Z := 1000.

Definition difficultyMultiplier_x2 (difficulty : Difficulty) : Z :=
  match difficulty with
  | Easy => 2
  | Medium => 3
  | Hard => 4
  | Expert => 6
  end.

Definition calculateScore (timeElapsed : Z) (difficulty : Difficulty) (hintsUsed : Z) : Z :=
  let timeBonus := Z.max 0 (600 - timeElapsed) in
  let hintPenalty := (hintsUsed * 50)%Z in
  let score :=
    (baseScore * difficultyMultiplier_x2 difficulty / 2 + timeBonus - hintPenalty)%Z in
  Z.max 0 score.

(** The four arrow keys. *)
Inductive Direction := DirUp | DirDown | DirLeft | DirRight.

Definition getNextPosition (current : CellPosition) (direction : Direction) : CellPosition :=
  let r := row current in
  let c := col current in
  match direction with
  | DirUp => mkPos (Nat.max 0 (r - 1)) c
  | DirDown => mkPos (Nat.min 8 (r + 1)) c
  | DirLeft => mkPos r (Nat.max 0 (c - 1))
  | DirRight => mkPos r (Nat.min 8 (c + 1))
  end.

(** [key.split('-')]: the pieces between the separators. *)
Fixpoint js_split (sep : ascii) (s : string) : list string :=
  match s with
  | EmptyString => [EmptyString]
  | String ch s' =>
      if Ascii.eqb ch sep then EmptyString :: js_split sep s'
      else match js_split sep s' with
           | piece :: pieces => String ch piece :: pieces
           | [] => [String ch EmptyString]
           end
  end.

Definition digitValue (ch : ascii) : option nat :=
  let n := Ascii.nat_of_ascii ch in
  if Nat.leb 48 n && Nat.leb n 57 then Some (n - 48) else None.

Fixpoint numeral_go (acc : nat) (s : string) : option nat :=
  match s with
  | EmptyString => Some acc
  | String ch s' =>
      match digitValue ch with
      | Some d => numeral_go (10 * acc + d) s'
      | None => None
      end
  end.

(** What [Number] makes of a piece of a key, or [undefined] where the key
    has no such piece.  [Number] is modelled on the strings of decimal
    digits, the empty string included (it gives 0); every other string is
    [OtherInput]: there [Number] gives [NaN] or reads a sign, a fraction,
    an exponent or another radix, none of which is modelled. *)
Inductive JsNumber := Num (n : nat) | OtherInput | Undefined.

Definition js_Number (s : string) : JsNumber :=
  match numeral_go 0 s with
  | Some n => Num n
  | None => OtherInput
  end.

Record ParsedKey := mkParsedKey { key_row : JsNumber; key_col : JsNumber }.

Definition createConflictKey (r c : nat) : string := conflictKey r c.

Definition parseConflictKey (key : string) : ParsedKey :=
  let parts := map js_Number (js_split "-"%char key) in
  mkParsedKey (nth 0 parts Undefined) (nth 1 parts Undefined).

(** ** The leaderboard of [useScores] *)

Record ScoreEntry := mkScoreEntry {
  se_id : string;
  se_playerName : string;
  se_difficulty : Difficulty;
  se_timeElapsed : nat;
  se_hintsUsed : nat;
  se_score : Z;
  se_completedAt : nat
}.

#[global] Instance Difficulty_eq_dec : EqDecision Difficulty.
Proof. solve_decision. Defined.

Record Leaderboard := mkLeaderboard {
  easy : list ScoreEntry;
  medium : list ScoreEntry;
  hard : list ScoreEntry;
  expert : list ScoreEntry
}.

(** [scores[difficulty]] *)
Definition board_get (scores : Leaderboard) (difficulty : Difficulty) : list ScoreEntry :=
  match difficulty with
  | Easy => easy scores
  | Medium => medium scores
  | Hard => hard scores
  | Expert => expert scores
  end.

(** [scores[difficulty] = entries], on a copy of [scores] *)
Definition board_set (scores : Leaderboard) (difficulty : Difficulty)
    (entries : list ScoreEntry) : Leaderboard :=
  match difficulty with
  | Easy => mkLeaderboard entries (medium scores) (hard scores) (expert scores)
  | Medium => mkLeaderboard (easy scores) entries (hard scores) (expert scores)
  | Hard => mkLeaderboard (easy scores) (medium scores) entries (expert scores)
  | Expert => mkLeaderboard (easy scores) (medium scores) (hard scores) entries
  end.

(** [(a, b) => a.timeElapsed - b.timeElapsed] *)
Definition byTime (a b : ScoreEntry) : Z :=
  (Z.of_nat (se_timeElapsed a) - Z.of_nat (se_timeElapsed b))%Z.

(** The update that [addScore] passes to [setScores], for the entry it
    has built (its id, date and score come from the environment). *)
Definition addScore (scoreEntry : ScoreEntry) (prevScores : Leaderboard) : Leaderboard :=
  let difficulty := se_difficulty scoreEntry in
  board_set prevScores difficulty
    (take 10 (js_sort byTime (board_get prevScores difficulty ++ [scoreEntry]))).

(** [Array.prototype.findIndex]: -1 when no element passes the test. *)
Fixpoint findIndex {A} (test : A -> bool) (l : list A) : Z :=
  match l with
  | [] => (-1)%Z
  | x :: l' =>
      if test x then 0%Z
      else let i := findIndex test l' in if (i <? 0)%Z then (-1)%Z else (i + 1)%Z
  end.

Definition getCurrentRank (scores : Leaderboard) (entry : ScoreEntry) : Z :=
  let difficultyScores := board_get scores (se_difficulty entry) in
  let sortedScores := js_sort byTime difficultyScores in
  (findIndex (fun s => String.eqb (se_id s) (se_id entry)) sortedScores + 1)%Z.

(** [timeElapsed < worstTime], where [worstTime] is
    [sortedByTime[9]?.timeElapsed || Infinity]: a tenth time of 0 counts
    as no time at all. *)
Definition qualifiesForTop10 (scores : Leaderboard) (difficulty : Difficulty)
    (timeElapsed : nat) : bool :=
  let currentScores := board_get scores difficulty in
  if Nat.ltb (length currentScores) 10 then true
  else
    let sortedByTime := js_sort byTime currentScores in
    match sortedByTime !! 9 with
    | Some worst =>
        if Nat.eqb (se_timeElapsed worst) 0 then true
        else Nat.ltb timeElapsed (se_timeElapsed worst)
    | None => true
    end.

(** The entries that a new entry with time [t] does not pass. *)
Definition notSlower (t : nat) (entries : list ScoreEntry) : list ScoreEntry :=
  filter (fun x => se_timeElapsed x <= t) entries.

(** ** The game controller ([useSudoku])

    The hook keeps a [GameState], the two move histories and, through
    [useTimer], whether the timer runs.  Each callback is modelled as the
    change it makes to that state when it sees the state of the last
    render; what it shows to the player is returned as a list of notices.
    The grids of a game are 9x9, so no access of the callbacks throws and
    every value read from a grid is a number; a value that is [None]
    (nothing read) is never written. *)

Record GameMove := mkMove {
  move_position : CellPosition;
  previousValue : option nat;
  newValue : option nat;
  timestamp : nat
}.

(** [createMove], with the clock's answer to [Date.now()] *)
Definition createMove (position : CellPosition) (previousValue newValue : option nat)
    (now : nat) : GameMove :=
  mkMove position previousValue newValue now.

Record GameState := mkGameState {
  gs_grid : SudokuGrid;
  gs_solution : SudokuGrid;
  gs_initialGrid : SudokuGrid;
  gs_selectedCell : option CellPosition;
  gs_conflicts : list string;
  gs_difficulty : Difficulty;
  gs_timeElapsed : nat;
  gs_isComplete : bool;
  gs_moves : list GameMove;
  gs_hintsUsed : Z;
  gs_maxHints : Z;
  gs_hintCells : list string;
  gs_incorrectCells : list string
}.

Record Game := mkGame {
  gameState : GameState;
  moveHistory : list GameMove;
  redoHistory : list GameMove;
  timerRunning : bool
}.

Inductive NoticeKind := ErrorNotice | WarningNotice | SuccessNotice | InfoNotice.

Record Notice := mkNotice { notice_kind : NoticeKind; notice_title : string }.

(** [set.has(key)] and [set.delete(key)] on a [Set] of strings *)
Definition set_has (k : string) (s : list string) : bool := existsb (String.eqb k) s.

Definition set_delete (k : string) (s : list string) : list string :=
  List.filter (fun x => negb (String.eqb k x)) s.

(** The grid and the moves replaced, the rest of the state kept. *)
Definition with_grid (prev : GameState) (newGrid : SudokuGrid) (moves : list GameMove)
    (hintsUsed : Z) (hintCells incorrectCells : list string) : GameState :=
  mkGameState newGrid (gs_solution prev) (gs_initialGrid prev) (gs_selectedCell prev)
    (gs_conflicts prev) (gs_difficulty prev) (gs_timeElapsed prev) (gs_isComplete prev)
    moves hintsUsed (gs_maxHints prev) hintCells incorrectCells.

(** [timer.start()] on the first move, if the timer does not run *)
Definition startOnFirstMove (g : Game) : bool :=
  if Nat.eqb (length (gs_moves (gameState g))) 0 && negb (timerRunning g) then true
  else timerRunning g.

Definition updateCell (position : CellPosition) (value : nat) (now : nat) (g : Game)
  : Game * list Notice :=
  let st := gameState g in
  let r := row position in
  let c := col position in
  if Nat.leb 9 r || Nat.leb 9 c then (g, [mkNotice ErrorNotice "Invalid Move"])
  else if cell_filled (gs_initialGrid st) r c then (g, [mkNotice WarningNotice "Invalid Move"])
  else
    let cellKey := conflictKey r c in
    if set_has cellKey (gs_hintCells st) then (g, [mkNotice WarningNotice "Invalid Move"])
    else if negb (Nat.eqb value 0) && (Nat.ltb value 1 || Nat.ltb 9 value)
    then (g, [mkNotice ErrorNotice "Invalid Input"])
    else
      let previousValue := cell (gs_grid st) r c in
      if cell_is (gs_grid st) r c value then (g, [])
      else
        let running := startOnFirstMove g in
        let move := createMove position previousValue (Some value) now in
        let newGrid := set_cell (deepCopyGrid (gs_grid st)) r c value in
        let newIncorrectCells :=
          if Nat.eqb value 0 || cell_is (gs_solution st) r c value
          then set_delete cellKey (gs_incorrectCells st)
          else gs_incorrectCells st in
        (mkGame (with_grid st newGrid (gs_moves st ++ [move]) (gs_hintsUsed st)
                           (gs_hintCells st) newIncorrectCells)
                (moveHistory g ++ [move]) [] running,
         []).

(** [moves.slice(0, -1)] *)
Definition dropLast {A} (l : list A) : list A := take (length l - 1) l.

Definition undo (g : Game) : Game * bool :=
  match last (moveHistory g) with
  | None => (g, false)
  | Some lastMove =>
      let st := gameState g in
      let position := move_position lastMove in
      let newGrid :=
        restore_cell (deepCopyGrid (gs_grid st)) (row position) (col position)
                     (previousValue lastMove) in
      (mkGame (with_grid st newGrid (dropLast (gs_moves st)) (gs_hintsUsed st)
                         (gs_hintCells st) (gs_incorrectCells st))
              (dropLast (moveHistory g)) (redoHistory g ++ [lastMove]) (timerRunning g),
       true)
  end.

Definition redo (g : Game) : Game * bool :=
  match last (redoHistory g) with
  | None => (g, false)
  | Some moveToRedo =>
      let st := gameState g in
      let position := move_position moveToRedo in
      let newGrid :=
        restore_cell (deepCopyGrid (gs_grid st)) (row position) (col position)
                     (newValue moveToRedo) in
      (mkGame (with_grid st newGrid (gs_moves st ++ [moveToRedo]) (gs_hintsUsed st)
                         (gs_hintCells st) (gs_incorrectCells st))
              (moveHistory g ++ [moveToRedo]) (dropLast (redoHistory g)) (timerRunning g),
       true)
  end.

(** [getHintForCell], the [getHint] of the hook *)
Definition getHintForCell (now : nat) (g : Game) : Game * list Notice * bool :=
  let st := gameState g in
  if (gs_hintsUsed st >=? gs_maxHints st)%Z
  then (g, [mkNotice WarningNotice "No Hints Remaining"], false)
  else
    match getHint (gs_grid st) (gs_solution st) with
    | None => (g, [mkNotice InfoNotice "No Hints Available"], false)
    | Some hint =>
        let running := startOnFirstMove g in
        let r := hint_row hint in
        let c := hint_col hint in
        let move := createMove (mkPos r c) (cell (gs_grid st) r c) (value hint) now in
        let newGrid := restore_cell (deepCopyGrid (gs_grid st)) r c (value hint) in
        let newHintCells := set_add (conflictKey r c) (gs_hintCells st) in
        let newIncorrectCells := set_delete (conflictKey r c) (gs_incorrectCells st) in
        (mkGame (with_grid st newGrid (gs_moves st ++ [move]) (gs_hintsUsed st + 1)%Z
                           newHintCells newIncorrectCells)
                (moveHistory g ++ [move]) [] running,
         [mkNotice SuccessNotice "Hint Applied"], true)
    end.

(** The scan of [checkSolution] for filled cells that differ from the
    solution. *)
Definition incorrectKeys (grid solution : SudokuGrid) : list string :=
  fold_left (fun acc p =>
      if cell_filled grid (row p) (col p)
         && negb (bool_decide (cell grid (row p) (col p) = cell solution (row p) (col p)))
      then set_add (conflictKey (row p) (col p)) acc else acc)
    allPositions [].

Definition checkSolution (g : Game) : Game * ValidationResult :=
  let st := gameState g in
  let '(validation, grid') := validateBoard (gs_grid st) in
  let newIncorrectCells := incorrectKeys grid' (gs_solution st) in
  (mkGame (with_grid st grid' (gs_moves st) (gs_hintsUsed st) (gs_hintCells st)
                     newIncorrectCells)
          (moveHistory g) (redoHistory g) (timerRunning g),
   mkValidation (isValid validation && Nat.eqb (length newIncorrectCells) 0)
                (conflicts validation)).

(** The three grids of the game are 9x9. *)
Definition wf_game (g : Game) : Prop :=
  wf_grid (gs_grid (gameState g)) /\ wf_grid (gs_solution (gameState g))
  /\ wf_grid (gs_initialGrid (gameState g)).

(** A game on [carved_grid], with its fifty empty cells, nothing played
    yet and one hint allowed. *)
Definition hint_game : Game :=
  mkGame (mkGameState carved_grid solved_grid carved_grid None [] Expert 0 false [] 0 1 [] [])
         [] [] false.

(** A game on [one_gap_grid], nothing played yet. *)
Definition sample_game : Game :=
  mkGame (mkGameState one_gap_grid solved_grid one_gap_grid None [] Medium 0 false [] 0 3 [] [])
         [] [] false.
(** * Properties *)

(** ** Reading and writing cells *)

Lemma cell_Some_bounds (grid : SudokuGrid) r c v :
  cell grid r c = Some v ->
  exists line, grid !! r = Some line /\ line !! c = Some v.
Proof.
  unfold cell. destruct (grid !! r) as [line|] eqn:E; [|discriminate].
  intros H. exists line. split; [reflexivity | exact H].
Qed.

Lemma set_cell_id (grid : SudokuGrid) r c v :
  cell grid r c = Some v -> set_cell grid r c v = grid.
Proof.
  intros H. apply cell_Some_bounds in H as (line & Hr & Hc).
  unfold set_cell. apply list_eq. intros i.
  destruct (decide (i = r)) as [->|Hne].
  - rewrite list_lookup_alter_eq, Hr. simpl. f_equal. by apply list_insert_id.
  - by rewrite list_lookup_alter_ne.
Qed.

Lemma set_cell_set_cell (grid : SudokuGrid) r c v w :
  set_cell (set_cell grid r c v) r c w = set_cell grid r c w.
Proof.
  unfold set_cell. rewrite list_alter_alter_eq.
  apply list_alter_ext; [|reflexivity].
  intros line _. simpl. apply list_insert_insert_eq.
Qed.

Lemma set_cell_comm (grid : SudokuGrid) r c v r' c' w :
  (r, c) <> (r', c') ->
  set_cell (set_cell grid r c v) r' c' w = set_cell (set_cell grid r' c' w) r c v.
Proof.
  intros Hne. unfold set_cell.
  destruct (decide (r = r')) as [->|Hr].
  - rewrite !list_alter_alter_eq. apply list_alter_ext; [|reflexivity].
    intros line _. simpl. apply list_insert_insert_ne. congruence.
  - apply list_alter_alter_ne. congruence.
Qed.

Lemma cell_set_cell_ne (grid : SudokuGrid) r c v r' c' :
  (r, c) <> (r', c') -> cell (set_cell grid r c v) r' c' = cell grid r' c'.
Proof.
  intros Hne. unfold cell, set_cell.
  destruct (decide (r = r')) as [->|Hr].
  - rewrite list_lookup_alter_eq. destruct (grid !! r') as [line|]; simpl; [|reflexivity].
    apply list_lookup_insert_ne. congruence.
  - by rewrite list_lookup_alter_ne.
Qed.

Lemma cell_set_cell_eq (grid : SudokuGrid) r c v :
  is_Some (cell grid r c) -> cell (set_cell grid r c v) r c = Some v.
Proof.
  intros [x H]. apply cell_Some_bounds in H as (line & Hr & Hc).
  unfold cell, set_cell. rewrite list_lookup_alter_eq, Hr. simpl.
  apply list_lookup_insert_eq. by eapply lookup_lt_Some.
Qed.

Lemma cell_set_cell_None (grid : SudokuGrid) r c v :
  cell grid r c = None -> set_cell grid r c v = grid.
Proof.
  unfold cell, set_cell. intros H. apply list_eq. intros i.
  destruct (decide (i = r)) as [->|Hne]; [|by rewrite list_lookup_alter_ne].
  rewrite list_lookup_alter_eq. destruct (grid !! r) as [line|]; simpl; [|reflexivity].
  f_equal. apply list_insert_ge. by apply lookup_ge_None.
Qed.

Lemma restore_set_cell (grid : SudokuGrid) r c v :
  restore_cell (set_cell grid r c v) r c (cell grid r c) = grid.
Proof.
  destruct (cell grid r c) as [x|] eqn:E; simpl.
  - rewrite set_cell_set_cell. by apply set_cell_id.
  - by apply cell_set_cell_None.
Qed.

Lemma deepCopyGrid_id (grid : SudokuGrid) : deepCopyGrid grid = grid.
Proof. unfold deepCopyGrid. apply map_id. Qed.

Lemma wf_grid_set_cell (grid : SudokuGrid) r c v :
  wf_grid grid -> wf_grid (set_cell grid r c v).
Proof.
  intros [Hl Hf]. unfold wf_grid, set_cell. split.
  - by rewrite length_alter.
  - apply Forall_alter; [exact Hf|]. intros line _ Hline. by rewrite length_insert.
Qed.

Lemma wf_grid_cell (grid : SudokuGrid) r c :
  wf_grid grid -> r < SUDOKU_SIZE -> c < SUDOKU_SIZE -> is_Some (cell grid r c).
Proof.
  intros [Hl Hf] Hr Hc. unfold cell.
  destruct (lookup_lt_is_Some_2 grid r) as [line Hline]; [lia|].
  rewrite Hline. apply lookup_lt_is_Some_2.
  rewrite Forall_forall in Hf. rewrite (Hf line); [exact Hc|].
  apply list_elem_of_lookup. eauto.
Qed.

Lemma wf_gridb_spec (grid : SudokuGrid) : wf_gridb grid = true -> wf_grid grid.
Proof.
  unfold wf_gridb, wf_grid. intros H. apply andb_prop in H as [H1 H2].
  split; [by apply Nat.eqb_eq|].
  rewrite forallb_forall in H2. apply Forall_forall. intros line Hin.
  apply Nat.eqb_eq. apply H2. by apply list_elem_of_In.
Qed.

(** ** The empty cells of a grid *)

Lemma scan_filter (P : nat -> nat -> bool) (rws cls : list nat) :
  flat_map (fun r => flat_map (fun c => if P r c then [mkPos r c] else []) cls) rws
  = filter (fun p => P (row p) (col p) = true)
           (flat_map (fun r => map (fun c => mkPos r c) cls) rws).
Proof.
  induction rws as [|r rws IH]; simpl; [reflexivity|].
  rewrite filter_app, <- IH. apply (f_equal2 app); [|reflexivity].
  clear IH. induction cls as [|c cls IH]; simpl; [reflexivity|].
  rewrite filter_cons. simpl. rewrite <- IH.
  destruct (P r c); simpl; reflexivity.
Qed.

Lemma findEmptyCells_filter (grid : SudokuGrid) :
  findEmptyCells grid = filter (isEmptyAt grid) allPositions.
Proof. unfold findEmptyCells, allPositions. apply scan_filter. Qed.

Lemma allPositions_NoDup : NoDup allPositions.
Proof. apply (bool_decide_unpack _). vm_compute. exact I. Qed.

Lemma elem_of_allPositions (p : CellPosition) :
  p ∈ allPositions <-> row p < SUDOKU_SIZE /\ col p < SUDOKU_SIZE.
Proof.
  unfold allPositions. rewrite list_elem_of_In, in_flat_map. split.
  - intros (r & Hr & Hp). apply in_map_iff in Hp as (c & <- & Hc).
    apply in_seq in Hr, Hc. simpl. lia.
  - intros [Hr Hc]. exists (row p). split; [apply in_seq; lia|].
    apply in_map_iff. exists (col p). split; [by destruct p|apply in_seq; lia].
Qed.

Lemma elem_of_findEmptyCells (grid : SudokuGrid) (p : CellPosition) :
  p ∈ findEmptyCells grid <->
  row p < SUDOKU_SIZE /\ col p < SUDOKU_SIZE /\ cell grid (row p) (col p) = Some EMPTY_CELL.
Proof.
  rewrite findEmptyCells_filter, list_elem_of_filter, elem_of_allPositions.
  unfold isEmptyAt, cell_is.
  destruct (cell grid (row p) (col p)) as [x|].
  - rewrite Nat.eqb_eq. split; [intros [-> ?]; tauto | intros (? & ? & [= ->]); tauto].
  - split; [intros [? ?]; discriminate | intros (? & ? & ?); discriminate].
Qed.

Lemma findEmptyCells_NoDup (grid : SudokuGrid) : NoDup (findEmptyCells grid).
Proof. rewrite findEmptyCells_filter. apply NoDup_filter, allPositions_NoDup. Qed.

(** Writing a clue removes exactly that position from the empty cells. *)
Lemma findEmptyCells_set_cell (grid : SudokuGrid) r c v :
  v <> EMPTY_CELL ->
  findEmptyCells (set_cell grid r c v)
  = filter (fun p => p <> mkPos r c) (findEmptyCells grid).
Proof.
  intros Hv. rewrite !findEmptyCells_filter, list_filter_filter.
  apply list_filter_iff. intros [r' c']. unfold isEmptyAt, cell_is. simpl.
  destruct (decide ((r, c) = (r', c'))) as [E|Hne].
  - injection E as <- <-.
    destruct (cell grid r c) as [x|] eqn:Hx.
    + rewrite cell_set_cell_eq by eauto. apply Nat.eqb_neq in Hv. rewrite Hv.
      split; [discriminate | intros [Hc _]; by destruct Hc].
    + rewrite cell_set_cell_None, Hx by done.
      split; [discriminate | intros [Hc _]; by destruct Hc].
  - rewrite cell_set_cell_ne by done. split; [|intros [_ H]; exact H].
    intros H. split; [congruence | exact H].
Qed.

Lemma filter_ne_notin {A} `{EqDecision A} (x : A) (l : list A) :
  x ∉ l -> filter (fun y => y <> x) l = l.
Proof.
  induction l as [|y l IH]; intros Hx; [reflexivity|].
  apply not_elem_of_cons in Hx as [Hxy Hx].
  rewrite filter_cons_True by congruence. f_equal. by apply IH.
Qed.

Lemma filter_ne_length {A} `{EqDecision A} (x : A) (l : list A) :
  NoDup l -> x ∈ l -> S (length (filter (fun y => y <> x) l)) = length l.
Proof.
  induction 1 as [|y l Hy Hnd IH]; intros Hin; [by apply elem_of_nil in Hin|].
  apply elem_of_cons in Hin as [->|Hin].
  - rewrite filter_cons_False by (intros Hc; by apply Hc).
    rewrite filter_ne_notin by done. reflexivity.
  - rewrite filter_cons_True by (intros ->; contradiction).
    simpl. by rewrite IH.
Qed.

Lemma findEmptyCells_fill_length (grid : SudokuGrid) (p : CellPosition) v :
  v <> EMPTY_CELL -> p ∈ findEmptyCells grid ->
  S (length (findEmptyCells (set_cell grid (row p) (col p) v))) = length (findEmptyCells grid).
Proof.
  intros Hv Hp. rewrite findEmptyCells_set_cell by done.
  destruct p as [r c]. simpl. apply filter_ne_length; [apply findEmptyCells_NoDup|done].
Qed.

Lemma firstEmpty_Some (grid : SudokuGrid) (p : CellPosition) :
  firstEmpty grid = Some p ->
  p ∈ findEmptyCells grid /\ cell grid (row p) (col p) = Some EMPTY_CELL.
Proof.
  unfold firstEmpty. intros H.
  assert (Hin : p ∈ findEmptyCells grid).
  { destruct (findEmptyCells grid); [discriminate|]. injection H as ->. apply elem_of_cons. by left. }
  split; [exact Hin|]. by apply elem_of_findEmptyCells in Hin as (_ & _ & ?).
Qed.

(** ** [shuffleArray] returns a permutation of its argument *)

Lemma swap_Permutation {A} (a : list A) (i j : nat) : swap a i j ≡ₚ a.
Proof.
  unfold swap.
  destruct (a !! i) as [x|] eqn:Hi; [|reflexivity].
  destruct (a !! j) as [y|] eqn:Hj; [|reflexivity].
  apply Permutation_inj. split; [by rewrite !length_insert|].
  exists (fun k => if decide (k = i) then j else if decide (k = j) then i else k).
  split.
  - intros k1 k2. repeat case_decide; congruence.
  - intros k. pose proof (lookup_lt_Some _ _ _ Hi). pose proof (lookup_lt_Some _ _ _ Hj).
    destruct (decide (k = j)) as [->|Hkj].
    + rewrite list_lookup_insert_eq by (by rewrite length_insert).
      destruct (decide (j = i)) as [->|Hji]; [congruence|].
      destruct (decide (j = j)); congruence.
    + rewrite list_lookup_insert_ne by done.
      destruct (decide (k = i)) as [->|Hki].
      * by rewrite list_lookup_insert_eq.
      * rewrite list_lookup_insert_ne by done.
        destruct (decide (k = j)); congruence.
Qed.

Lemma shuffle_loop_Permutation {A} (i : nat) (a : list A) (rs : Rand) :
  fst (shuffle_loop i a rs) ≡ₚ a.
Proof.
  revert a rs. induction i as [|i IH]; intros a rs; simpl; [reflexivity|].
  destruct (randomIndex (S (i + 1)) rs) as [j rs'].
  rewrite IH. apply swap_Permutation.
Qed.

Lemma shuffleArray_Permutation {A} (a : list A) (rs : Rand) :
  fst (shuffleArray a rs) ≡ₚ a.
Proof. apply shuffle_loop_Permutation. Qed.

(** ** The backtracking solver *)

Lemma solve_candidates_restores rec r c numbers :
  forall grid rs res,
  (forall g s res', rec g s = Some res' -> solver_post g res') ->
  cell grid r c = Some EMPTY_CELL ->
  solve_candidates rec r c numbers grid rs = Some res ->
  solver_post grid res.
Proof.
  induction numbers as [|num rest IH]; intros grid rs res Hrec Hcell; simpl.
  - intros [= <-]. by intros _.
  - destruct (isSafe grid r c num); [|by apply IH].
    destruct (rec (set_cell grid r c num) rs) as [[[b g'] rs']|] eqn:E; [|discriminate].
    destruct b.
    + intros [= <-]. intros Hb. discriminate.
    + apply Hrec in E. unfold solver_post in E. simpl in E. rewrite E by done.
      rewrite set_cell_set_cell, set_cell_id by done. by apply IH.
Qed.

Lemma solveSudoku_fuel_restores fuel :
  forall grid depth rs res,
  solveSudoku_fuel fuel grid depth rs = Some res -> solver_post grid res.
Proof.
  induction fuel as [|fuel IH]; intros grid depth rs res; cbn [solveSudoku_fuel]; [discriminate|].
  destruct (depth >? 1000)%Z.
  - intros [= <-]. by intros _.
  - destruct (firstEmpty grid) as [p|] eqn:Hp.
    + destruct (shuffleArray (seq 1 9) rs) as [numbers rs1].
      apply firstEmpty_Some in Hp as [_ Hcell].
      apply solve_candidates_restores; [|exact Hcell].
      intros g s res'. apply IH.
    + intros [= <-]. intros Hb. discriminate.
Qed.

(** Enough fuel: the candidates are nonzero, so every nested call has one
    empty cell less. *)
Lemma solve_candidates_total rec r c numbers :
  forall grid rs,
  (forall g s, length (findEmptyCells g) < length (findEmptyCells grid) ->
     exists res', rec g s = Some res' /\ solver_post g res') ->
  mkPos r c ∈ findEmptyCells grid ->
  Forall (fun num => num <> EMPTY_CELL) numbers ->
  is_Some (solve_candidates rec r c numbers grid rs).
Proof.
  induction numbers as [|num rest IH]; intros grid rs Hrec Hin Hnz; simpl; [eauto|].
  apply Forall_cons in Hnz as [Hnum Hrest].
  destruct (isSafe grid r c num); [|by apply IH].
  destruct (Hrec (set_cell grid r c num) rs) as ([[b g'] rs'] & E & Hpost).
  { pose proof (findEmptyCells_fill_length grid (mkPos r c) num Hnum Hin) as Hl.
    simpl in Hl. lia. }
  rewrite E. destruct b; [eauto|].
  unfold solver_post in Hpost. simpl in Hpost. rewrite Hpost by done.
  apply elem_of_findEmptyCells in Hin as Hc. destruct Hc as (_ & _ & Hc). simpl in Hc.
  rewrite set_cell_set_cell, set_cell_id by done. by apply IH.
Qed.

Lemma solveSudoku_fuel_enough fuel :
  forall grid depth rs,
  length (findEmptyCells grid) < fuel ->
  exists res, solveSudoku_fuel fuel grid depth rs = Some res /\ solver_post grid res.
Proof.
  induction fuel as [|fuel IH]; intros grid depth rs Hfuel; [lia|].
  assert (Hsome : is_Some (solveSudoku_fuel (S fuel) grid depth rs)).
  { cbn [solveSudoku_fuel]. destruct (depth >? 1000)%Z; [eauto|].
    destruct (firstEmpty grid) as [[r c]|] eqn:Hp; [|eauto].
    destruct (shuffleArray (seq 1 9) rs) as [numbers rs1] eqn:Hsh.
    apply firstEmpty_Some in Hp as [Hin _]. cbn [row col].
    apply solve_candidates_total; [|exact Hin|].
    - intros g s Hlt. apply IH. lia.
    - pose proof (shuffleArray_Permutation (seq 1 9) rs) as Hperm.
      rewrite Hsh in Hperm. simpl in Hperm. rewrite Hperm.
      repeat constructor; discriminate. }
  destruct Hsome as [res Hres]. exists res. split; [exact Hres|].
  by eapply solveSudoku_fuel_restores.
Qed.

Lemma solveSudoku_unfold (grid : SudokuGrid) depth rs :
  solveSudoku_fuel (S (length (findEmptyCells grid))) grid depth rs
  = Some (solveSudoku grid depth rs).
Proof.
  unfold solveSudoku.
  destruct (solveSudoku_fuel_enough (S (length (findEmptyCells grid))) grid depth rs)
    as (res & -> & _); [lia|reflexivity].
Qed.

(** ** The solution counter *)

Lemma scanEmpty_firstEmpty (board : SudokuGrid) : scanEmpty board = firstEmpty board.
Proof.
  unfold scanEmpty, firstEmpty, findEmptyCells.
  generalize (seq 0 SUDOKU_SIZE) at 2 4. generalize (seq 0 SUDOKU_SIZE). intros cls rws.
  set (inner := fun r (found : option CellPosition) c =>
                  match found with
                  | Some _ => found
                  | None => if cell_is board r c EMPTY_CELL then Some (mkPos r c) else None
                  end).
  assert (Hin : forall r l found,
             fold_left (inner r) l found
             = match found with
               | Some _ => found
               | None => head (flat_map (fun c => if cell_is board r c EMPTY_CELL
                                                  then [mkPos r c] else []) l)
               end).
  { intros r l. induction l as [|c l IH]; intros found; simpl; [by destruct found|].
    rewrite IH. destruct found; simpl; [reflexivity|].
    destruct (cell_is board r c EMPTY_CELL); reflexivity. }
  assert (Hout : forall l found,
             fold_left (fun found r => match found with
                                       | Some _ => found
                                       | None => fold_left (inner r) cls None
                                       end) l found
             = match found with
               | Some _ => found
               | None => head (flat_map (fun r =>
                           flat_map (fun c => if cell_is board r c EMPTY_CELL
                                              then [mkPos r c] else []) cls) l)
               end).
  { induction l as [|r l IH]; intros found; simpl; [by destruct found|].
    rewrite IH. destruct found; simpl; [reflexivity|]. rewrite Hin.
    destruct (flat_map _ cls); reflexivity. }
  apply Hout.
Qed.

Lemma count_candidates_post rec cap r c nums :
  forall board count res,
  (forall b n res', rec b n = Some res' -> counter_post b n res') ->
  cell board r c = Some EMPTY_CELL ->
  count_candidates rec cap r c nums board count = Some res ->
  counter_post board count res.
Proof.
  induction nums as [|num rest IH]; intros board count res Hrec Hcell; simpl.
  - intros [= <-]. split; simpl; [reflexivity|lia].
  - destruct (isSafe board r c num); [|by apply IH].
    destruct (rec (set_cell board r c num) count) as [[b' c']|] eqn:E; [|discriminate].
    apply Hrec in E as [Hb Hc]. simpl in Hb, Hc. subst b'.
    rewrite set_cell_set_cell, set_cell_id by done.
    destruct (c' >=? cap)%Z.
    + intros [= <-]. by split.
    + intros H. apply IH in H as [Hb' Hc']; [|done..]. split; [done|lia].
Qed.

Lemma solve_fuel_post fuel cap :
  forall board count res,
  solve_fuel fuel cap board count = Some res -> counter_post board count res.
Proof.
  induction fuel as [|fuel IH]; intros board count res; cbn [solve_fuel]; [discriminate|].
  destruct (count >=? cap)%Z.
  - intros [= <-]. split; simpl; [reflexivity|lia].
  - rewrite scanEmpty_firstEmpty. destruct (firstEmpty board) as [p|] eqn:Hp.
    + apply firstEmpty_Some in Hp as [_ Hcell].
      apply count_candidates_post; [|exact Hcell]. intros b n res'. apply IH.
    + intros [= <-]. split; simpl; [reflexivity|lia].
Qed.

Lemma count_candidates_total rec cap r c nums :
  forall board count,
  (forall b n, length (findEmptyCells b) < length (findEmptyCells board) ->
     exists res', rec b n = Some res' /\ counter_post b n res') ->
  mkPos r c ∈ findEmptyCells board ->
  Forall (fun num => num <> EMPTY_CELL) nums ->
  is_Some (count_candidates rec cap r c nums board count).
Proof.
  induction nums as [|num rest IH]; intros board count Hrec Hin Hnz; simpl; [eauto|].
  apply Forall_cons in Hnz as [Hnum Hrest].
  destruct (isSafe board r c num); [|by apply IH].
  destruct (Hrec (set_cell board r c num) count) as ([b' c'] & E & Hb & Hc).
  { pose proof (findEmptyCells_fill_length board (mkPos r c) num Hnum Hin) as Hl.
    simpl in Hl. lia. }
  rewrite E. simpl in Hb. subst b'.
  apply elem_of_findEmptyCells in Hin as Hcell. destruct Hcell as (_ & _ & Hcell).
  simpl in Hcell. rewrite set_cell_set_cell, set_cell_id by done.
  destruct (c' >=? cap)%Z; [eauto|]. by apply IH.
Qed.

Lemma solve_fuel_enough fuel cap :
  forall board count,
  length (findEmptyCells board) < fuel ->
  exists res, solve_fuel fuel cap board count = Some res /\ counter_post board count res.
Proof.
  induction fuel as [|fuel IH]; intros board count Hfuel; [lia|].
  assert (Hsome : is_Some (solve_fuel (S fuel) cap board count)).
  { cbn [solve_fuel]. destruct (count >=? cap)%Z; [eauto|].
    rewrite scanEmpty_firstEmpty.
    destruct (firstEmpty board) as [[r c]|] eqn:Hp; [|eauto].
    apply firstEmpty_Some in Hp as [Hin _]. cbn [row col].
    apply count_candidates_total; [|exact Hin|].
    - intros b n Hlt. apply IH. lia.
    - repeat constructor; discriminate. }
  destruct Hsome as [res Hres]. exists res. split; [exact Hres|].
  by eapply solve_fuel_post.
Qed.

(** [countSolutions] is the counter reached by [solve] on the copy. *)
Lemma countSolutions_unfold (grid : SudokuGrid) (cap : Z) :
  exists board,
    solve_fuel (S (length (findEmptyCells grid))) cap grid 0 = Some (board, countSolutions grid cap).
Proof.
  unfold countSolutions. rewrite deepCopyGrid_id.
  destruct (solve_fuel_enough (S (length (findEmptyCells grid))) cap grid 0%Z)
    as ([b n] & -> & _); [lia|]. by exists b.
Qed.

Lemma countSolutions_complete (grid : SudokuGrid) :
  findEmptyCells grid = [] -> countSolutions grid 2 = 1%Z.
Proof.
  intros H. unfold countSolutions. rewrite deepCopyGrid_id, H.
  cbn [length solve_fuel]. simpl (0 >=? 2)%Z. cbv iota.
  rewrite scanEmpty_firstEmpty. unfold firstEmpty. rewrite H. reflexivity.
Qed.

(** ** Counting clues *)

Lemma filled_or_empty (grid : SudokuGrid) (l : list CellPosition) :
  Forall (fun p => is_Some (cell grid (row p) (col p))) l ->
  length (filter (isFilledAt grid) l) + length (filter (isEmptyAt grid) l) = length l.
Proof.
  induction 1 as [|p l [v Hv] _ IH]; [reflexivity|].
  destruct (decide (v = EMPTY_CELL)) as [->|Hne].
  - rewrite (filter_cons_False (isFilledAt grid)), (filter_cons_True (isEmptyAt grid)).
    + simpl. lia.
    + unfold isEmptyAt, cell_is. by rewrite Hv.
    + unfold isFilledAt. rewrite Hv. intros Hc. by apply Hc.
  - rewrite (filter_cons_True (isFilledAt grid)), (filter_cons_False (isEmptyAt grid)).
    + simpl. lia.
    + unfold isEmptyAt, cell_is. rewrite Hv. apply Nat.eqb_neq in Hne. by rewrite Hne.
    + unfold isFilledAt. by rewrite Hv.
Qed.

Lemma clueCount_empties (grid : SudokuGrid) :
  wf_grid grid ->
  clueCount grid + length (findEmptyCells grid) = SUDOKU_SIZE * SUDOKU_SIZE.
Proof.
  intros Hwf. unfold clueCount, filledCells. rewrite findEmptyCells_filter.
  rewrite filled_or_empty; [reflexivity|].
  apply Forall_forall. intros p Hp. apply elem_of_allPositions in Hp as [Hr Hc].
  by apply wf_grid_cell.
Qed.

(** ** Failure of the solver restores the grid *)

(** C10: on a 9x9 grid, whenever [solveSudoku] returns [false] -- the
    search is exhausted or [depth] is beyond the ceiling of 1000 -- the
    grid it leaves behind is the grid it was given: every tentative
    placement was cleared.  (On a 9x9 grid every index is in range, so the
    [catch] branch of the source is not taken.)  The first conjunct records
    that the recursion of the embedding does reach that answer (82 levels
    of nesting are enough). *)
Theorem solveSudoku_failure_restores_grid
    (grid : SudokuGrid) (depth : Z) (rs : Rand) (grid' : SudokuGrid) (rs' : Rand) :
  wf_grid grid ->
  solveSudoku grid depth rs = (false, grid', rs') ->
  solveSudoku_fuel (S (length (findEmptyCells grid))) grid depth rs = Some (false, grid', rs')
  /\ grid' = grid.
Proof.
  intros _ H. pose proof (solveSudoku_unfold grid depth rs) as Hrun.
  rewrite H in Hrun. split; [exact Hrun|].
  apply solveSudoku_fuel_restores in Hrun. by apply Hrun.
Qed.

Lemma solveSudoku_failure_restores_grid_witness :
  wf_grid stuck_grid
  /\ solveSudoku stuck_grid 0 [] = (false, stuck_grid, [])
  /\ solveSudoku_fuel (S (length (findEmptyCells stuck_grid))) stuck_grid 0 []
     = Some (false, stuck_grid, [])
  /\ stuck_grid = stuck_grid.
Proof.
  assert (Hwf : wf_grid stuck_grid) by (apply wf_gridb_spec; reflexivity).
  split; [exact Hwf|]. split; [vm_compute; reflexivity|].
  apply (solveSudoku_failure_restores_grid stuck_grid 0 [] stuck_grid [] Hwf).
  vm_compute; reflexivity.
Defined.

(** ** Uniqueness check *)



(** ** Hints *)

Section stable_sort.
Context {A : Type} (k : A -> nat).

Let compareFn (a b : A) : Z := (Z.of_nat (k a) - Z.of_nat (k b))%Z.

Lemma head_sort_insert (x : A) (l : list A) :
  head (sort_insert compareFn x l)
  = match head l with
    | Some y => if decide (k x <= k y) then Some x else Some y
    | None => Some x
    end.
Proof.
  destruct l as [|y l]; simpl; [reflexivity|].
  unfold compareFn.
  destruct (Z.leb_spec (Z.of_nat (k x) - Z.of_nat (k y)) 0);
    destruct (decide (k x <= k y)); simpl; (reflexivity || lia).
Qed.

Lemma js_sort_Permutation (l : list A) : js_sort compareFn l ≡ₚ l.
Proof.
  induction l as [|x l IH]; simpl; [reflexivity|].
  rewrite <- IH at 2. generalize (js_sort compareFn l). clear.
  intros l. induction l as [|y l IH]; simpl; [reflexivity|].
  destruct (compareFn x y <=? 0)%Z; [reflexivity|].
  rewrite IH. apply Permutation_swap.
Qed.

(** The head of the sorted list is the first minimum of the input. *)
Lemma head_js_sort (l : list A) :
  l <> [] -> exists h, head (js_sort compareFn l) = Some h /\ first_min k l h.
Proof.
  induction l as [|x l IH]; intros Hne; [congruence|].
  simpl. rewrite head_sort_insert.
  destruct l as [|x' l'].
  - simpl. exists x. split; [reflexivity|]. exists [], []. by repeat split.
  - destruct IH as (h & Hh & l1 & l2 & Hl & H1 & H2); [congruence|].
    rewrite Hh. destruct (decide (k x <= k h)) as [Hle|Hgt].
    + exists x. split; [reflexivity|]. exists [], (x' :: l'). split; [reflexivity|].
      split; [constructor|]. rewrite Hl. apply Forall_app. split.
      * eapply Forall_impl; [exact H1|]. simpl. intros; lia.
      * constructor; [lia|]. eapply Forall_impl; [exact H2|]. simpl. intros; lia.
    + exists h. split; [reflexivity|]. exists (x :: l1), l2. rewrite Hl.
      split; [reflexivity|]. split; [|exact H2]. constructor; [lia|exact H1].
Qed.
End stable_sort.

Lemma first_min_map {A B} (f : A -> B) (k : B -> nat) (l : list A) (h : B) :
  first_min k (map f l) h -> exists a, h = f a /\ first_min (fun x => k (f x)) l a.
Proof.
  intros (l1 & l2 & Hl & H1 & H2).
  apply map_eq_app in Hl as (m1 & m2' & -> & Hm1 & Hm2).
  apply map_eq_cons in Hm2 as (a & m2 & -> & Ha & Hm2). subst.
  exists a. split; [reflexivity|]. exists m1, m2. split; [reflexivity|].
  rewrite List.Forall_map in H1, H2. by split.
Qed.

Lemma allPositions_sorted : StronglySorted row_major_lt allPositions.
Proof. apply (bool_decide_unpack _). vm_compute. exact I. Qed.

Lemma StronglySorted_filter {A} (R : A -> A -> Prop) (P : A -> Prop)
    `{forall x, Decision (P x)} (l : list A) :
  StronglySorted R l -> StronglySorted R (filter P l).
Proof.
  induction 1 as [|x l Hs IH Hx]; [constructor|].
  rewrite filter_cons. case_decide; [|exact IH].
  constructor; [exact IH|]. apply Forall_forall. intros y Hy.
  apply list_elem_of_filter in Hy as [_ Hy]. rewrite Forall_forall in Hx. by apply Hx.
Qed.

Lemma findEmptyCells_sorted (grid : SudokuGrid) :
  StronglySorted row_major_lt (findEmptyCells grid).
Proof. rewrite findEmptyCells_filter. apply StronglySorted_filter, allPositions_sorted. Qed.

(** The cell chosen by [getHint]. *)
Lemma getHint_first_min (grid solution : SudokuGrid) :
  findEmptyCells grid <> [] ->
  exists p, getHint grid solution
            = Some (mkHint (row p) (col p) (cell solution (row p) (col p)))
    /\ first_min (possibilities grid) (findEmptyCells grid) p.
Proof.
  intros Hne. unfold getHint.
  destruct (findEmptyCells grid) as [|p0 l0] eqn:E; [congruence|].
  cbn [length Nat.eqb]. rewrite <- E.
  destruct (head_js_sort (fun a : CellPosition * nat => snd a)
              (map (fun p => (p, possibilities grid p)) (findEmptyCells grid)))
    as (h & Hh & Hmin).
  { rewrite E. discriminate. }
  apply first_min_map in Hmin as (p & -> & Hmin). simpl in Hmin.
  exists p. split; [|exact Hmin].
  destruct (js_sort _ _) as [|[hc n] srt]; [discriminate|].
  simpl in Hh. injection Hh as -> ->. reflexivity.
Qed.

(** C7: for a 9x9 grid and a 9x9 solution, [getHint] answers [null]
    exactly when the grid has no empty cell; a hint it returns sits on an
    empty cell of the grid and carries [solution[row][col]] for that
    cell. *)
Theorem getHint_sound (grid solution : SudokuGrid) :
  wf_grid grid -> wf_grid solution ->
  (getHint grid solution = None <-> forall p, ~ emptyCell grid p)
  /\ (forall h, getHint grid solution = Some h ->
        emptyCell grid (mkPos (hint_row h) (hint_col h))
        /\ value h = cell solution (hint_row h) (hint_col h)).
Proof.
  intros _ _. destruct (findEmptyCells grid) as [|p0 l0] eqn:E.
  - assert (Hnone : getHint grid solution = None) by (unfold getHint; by rewrite E).
    split; [|intros h Hh; congruence].
    split; [|done]. intros _ p Hp.
    apply elem_of_findEmptyCells in Hp. rewrite E in Hp. by apply elem_of_nil in Hp.
  - destruct (getHint_first_min grid solution) as (p & Hp & l1 & l2 & Hl & _); [congruence|].
    assert (Hin : emptyCell grid p).
    { apply elem_of_findEmptyCells. rewrite Hl. apply elem_of_app. right. by left. }
    split.
    + split; [congruence|]. intros Hno. by destruct (Hno p).
    + intros h Hh. rewrite Hp in Hh. injection Hh as <-. simpl. by destruct p.
Qed.

Lemma getHint_sound_witness :
  wf_grid stuck_grid /\ wf_grid solved_grid
  /\ getHint stuck_grid solved_grid = Some (mkHint 0 1 (Some 3))
  /\ emptyCell stuck_grid (mkPos 0 1)
  /\ Some 3 = cell solved_grid 0 1.
Proof.
  assert (H1 : wf_grid stuck_grid) by (apply wf_gridb_spec; reflexivity).
  assert (H2 : wf_grid solved_grid) by (apply wf_gridb_spec; reflexivity).
  assert (H : getHint stuck_grid solved_grid = Some (mkHint 0 1 (Some 3)))
    by (vm_compute; reflexivity).
  split; [exact H1|]. split; [exact H2|]. split; [exact H|].
  exact (proj2 (getHint_sound stuck_grid solved_grid H1 H2) _ H).
Defined.

(** The first minimum of the row-major list of empty cells: no empty
    cell has fewer possible values, and those with as many come later. *)
Lemma first_min_empty_cell (grid : SudokuGrid) (p : CellPosition) :
  first_min (possibilities grid) (findEmptyCells grid) p ->
  emptyCell grid p
  /\ forall q, emptyCell grid q ->
       possibilities grid p <= possibilities grid q
       /\ (possibilities grid q = possibilities grid p -> q <> p -> row_major_lt p q).
Proof.
  intros (l1 & l2 & Hl & H1 & H2). split.
  { apply elem_of_findEmptyCells. rewrite Hl. apply elem_of_app. right. by left. }
  intros q Hq. apply elem_of_findEmptyCells in Hq.
  pose proof (findEmptyCells_sorted grid) as Hs. rewrite Hl in Hs.
  rewrite Hl in Hq. rewrite Forall_forall in H1, H2.
  apply elem_of_app in Hq as [Hq|Hq].
  - specialize (H1 q Hq). split; [lia|]. intros; lia.
  - apply elem_of_cons in Hq as [->|Hq]; [split; [lia|congruence]|].
    split; [by apply H2|]. intros _ _.
    apply StronglySorted_app_1_r, StronglySorted_cons in Hs as [Hs _].
    rewrite Forall_forall in Hs. by apply Hs.
Qed.

(** C8: on a 9x9 grid with an empty cell, and for a 9x9 solution, the
    hint is placed on an empty cell whose number of possible values -- the
    values [v] of 1..9 with [isSafe grid row col v] -- is least among all
    empty cells, and every other empty cell with that same number comes
    later in row-major order. *)
Theorem getHint_most_constrained (grid solution : SudokuGrid) (q0 : CellPosition) :
  wf_grid grid -> wf_grid solution -> emptyCell grid q0 ->
  exists h, getHint grid solution = Some h
    /\ let p := mkPos (hint_row h) (hint_col h) in
       let count := fun q : CellPosition =>
         length (filter (fun v => isSafe grid (row q) (col q) v = true) (seq 1 9)) in
       emptyCell grid p
       /\ forall q, emptyCell grid q ->
            count p <= count q
            /\ (count q = count p -> q <> p -> row_major_lt p q).
Proof.
  intros _ _ Hq0. apply elem_of_findEmptyCells in Hq0.
  destruct (getHint_first_min grid solution) as (p & Hp & Hmin).
  { intros E. rewrite E in Hq0. by apply elem_of_nil in Hq0. }
  eexists. split; [exact Hp|]. cbn [hint_row hint_col]. cbv zeta.
  replace {| row := row p; col := col p |} with p by (by destruct p).
  exact (first_min_empty_cell grid p Hmin).
Qed.

Lemma getHint_most_constrained_witness :
  wf_grid carved_grid /\ wf_grid solved_grid /\ emptyCell carved_grid (mkPos 0 1)
  /\ getHint carved_grid solved_grid = Some (mkHint 4 0 (Some 1))
  /\ let count := fun q : CellPosition =>
        length (filter (fun v => isSafe carved_grid (row q) (col q) v = true) (seq 1 9)) in
      count (mkPos 0 1) = 5 /\ count (mkPos 4 0) = 1 /\ count (mkPos 4 8) = 1
      /\ forall q, emptyCell carved_grid q ->
            count (mkPos 4 0) <= count q
            /\ (count q = count (mkPos 4 0) -> q <> mkPos 4 0 -> row_major_lt (mkPos 4 0) q).
Proof.
  assert (H1 : wf_grid carved_grid) by (apply wf_gridb_spec; reflexivity).
  assert (H2 : wf_grid solved_grid) by (apply wf_gridb_spec; reflexivity).
  assert (H3 : emptyCell carved_grid (mkPos 0 1)).
  { unfold emptyCell. simpl. unfold SUDOKU_SIZE. repeat split; lia. }
  assert (Hh : getHint carved_grid solved_grid = Some (mkHint 4 0 (Some 1)))
    by (vm_compute; reflexivity).
  split; [exact H1|]. split; [exact H2|]. split; [exact H3|]. split; [exact Hh|].
  cbv zeta. split; [vm_compute; reflexivity|]. split; [vm_compute; reflexivity|].
  split; [vm_compute; reflexivity|].
  destruct (getHint_most_constrained carved_grid solved_grid (mkPos 0 1) H1 H2 H3)
    as (h & Hg & _ & Hmin).
  rewrite Hh in Hg. injection Hg as <-. exact Hmin.
Defined.

(** ** Carving *)

Lemma restore_pair (puzzle : SudokuGrid) r c r' c' :
  restore_cell
    (restore_cell (set_cell (set_cell puzzle r c EMPTY_CELL) r' c' EMPTY_CELL)
                  r c (cell puzzle r c))
    r' c' (cell puzzle r' c')
  = puzzle.
Proof.
  destruct (decide ((r, c) = (r', c'))) as [[= <- <-]|Hne].
  - rewrite set_cell_set_cell.
    destruct (cell puzzle r c) as [v|] eqn:E; simpl.
    + by rewrite !set_cell_set_cell, set_cell_id.
    + by apply cell_set_cell_None.
  - destruct (cell puzzle r c) as [v|] eqn:E; simpl.
    + rewrite (set_cell_comm _ r' c' EMPTY_CELL r c v) by congruence.
      rewrite set_cell_set_cell, (set_cell_id puzzle r c v) by done.
      apply restore_set_cell.
    + rewrite (cell_set_cell_None puzzle r c) by done. apply restore_set_cell.
Qed.

(** Invariants of the two removal loops: a property of the puzzle that
    survives every accepted removal survives the loop, since a rejected
    removal puts the puzzle back as it was. *)
Section carving_invariant.
Context (I : SudokuGrid -> Prop).
Hypothesis I_clear :
  forall p r c, I p -> hasUniqueSolution (set_cell p r c EMPTY_CELL) = true ->
                I (set_cell p r c EMPTY_CELL).
Hypothesis I_clear2 :
  forall p r c r' c', I p ->
    hasUniqueSolution (set_cell (set_cell p r c EMPTY_CELL) r' c' EMPTY_CELL) = true ->
    I (set_cell (set_cell p r c EMPTY_CELL) r' c' EMPTY_CELL).

Lemma removeCells_loop_inv total toRemove maxAttempts positions :
  forall puzzle removed attempts,
  I puzzle ->
  I (fst (removeCells_loop total toRemove maxAttempts positions puzzle removed attempts)).
Proof.
  induction positions as [|pos rest IH]; intros puzzle removed attempts HI;
    cbn [removeCells_loop]; [exact HI|].
  destruct ((removed >=? toRemove)%Z || (attempts >=? maxAttempts)%Z); [exact HI|].
  destruct (cell_filled puzzle (row pos) (col pos)); [|by apply IH].
  destruct (hasUniqueSolution (set_cell puzzle (row pos) (col pos) EMPTY_CELL)) eqn:Hu.
  - destruct ((total - removed - 1 >=? 32)%Z || isSolvableWithoutGuessing _).
    + apply IH. by apply I_clear.
    + rewrite restore_set_cell. by apply IH.
  - rewrite restore_set_cell. by apply IH.
Qed.

Lemma removeSymmetric_loop_inv toRemove positions :
  forall puzzle removed,
  I puzzle -> I (fst (removeSymmetric_loop toRemove positions puzzle removed)).
Proof.
  induction positions as [|pos rest IH]; intros puzzle removed HI;
    cbn [removeSymmetric_loop]; [exact HI|].
  destruct (removed >=? toRemove)%Z; [exact HI|].
  destruct (cell_filled puzzle (row pos) (col pos)
            && cell_filled puzzle (SUDOKU_SIZE - 1 - row pos) (SUDOKU_SIZE - 1 - col pos));
    [|by apply IH].
  destruct (hasUniqueSolution _) eqn:Hu.
  - apply IH. by apply I_clear2.
  - rewrite restore_pair. by apply IH.
Qed.

Lemma removeSymmetricCells_inv grid clues rs :
  I grid -> I (fst (removeSymmetricCells grid clues rs)).
Proof.
  intros HI. unfold removeSymmetricCells. rewrite deepCopyGrid_id.
  destruct (shuffleArray symmetricPositions rs) as [positions rs'].
  cbn [fst]. by apply removeSymmetric_loop_inv.
Qed.

Lemma removeCells_inv grid clues rs :
  I grid -> I (fst (removeCells grid clues rs)).
Proof.
  intros HI. unfold removeCells. rewrite deepCopyGrid_id.
  destruct (shuffleArray allPositions rs) as [positions rs'].
  pose proof (removeCells_loop_inv (Z.of_nat (SUDOKU_SIZE * SUDOKU_SIZE))
                (Z.of_nat (SUDOKU_SIZE * SUDOKU_SIZE) - clues)%Z
                (Z.of_nat (SUDOKU_SIZE * SUDOKU_SIZE) * 2)%Z positions grid 0 0 HI) as Hloop.
  destruct (removeCells_loop _ _ _ positions grid 0 0) as [puzzle' removed].
  destruct (removed <? _)%Z; [by apply removeSymmetricCells_inv | exact Hloop].
Qed.
End carving_invariant.

Lemma hasUniqueSolution_true (grid : SudokuGrid) :
  wf_grid grid -> hasUniqueSolution grid = true ->
  countSolutions grid 2 = 1%Z /\ 17 <= clueCount grid.
Proof.
  intros Hwf Hu. pose proof (clueCount_empties grid Hwf) as Hcount.
  unfold hasUniqueSolution, hasUniqueSolution_with in Hu.
  destruct (Z.ltb_spec (Z.of_nat (SUDOKU_SIZE * SUDOKU_SIZE)
                        - Z.of_nat (length (findEmptyCells grid))) 17); [discriminate|].
  apply Z.eqb_eq in Hu. split; [exact Hu|lia].
Qed.

(** The carving invariant behind uniqueness: the puzzle is still the
    complete grid, or its last accepted state passed [hasUniqueSolution]. *)
Lemma carved_unique (grid puzzle : SudokuGrid) :
  wf_grid grid -> findEmptyCells grid = [] ->
  wf_grid puzzle /\ (puzzle = grid \/ hasUniqueSolution puzzle = true) ->
  countSolutions puzzle 2 = 1%Z /\ 17 <= clueCount puzzle.
Proof.
  intros Hwf Hfull [Hwfp [->|Hu]]; [|by apply hasUniqueSolution_true].
  split; [by apply countSolutions_complete|].
  pose proof (clueCount_empties grid Hwf) as Hc. rewrite Hfull in Hc.
  simpl in Hc. lia.
Qed.

(** What the test made by the carving loops gives: on the puzzle carved
    from a grid without empty cell [countSolutions puzzle 2] is 1, and at
    least 17 clues are left. *)
Lemma carving_counts_one (grid : SudokuGrid) (clues : Z) (rs : Rand) :
  wf_grid grid -> findEmptyCells grid = [] ->
  (countSolutions (fst (removeCells grid clues rs)) 2 = 1%Z
   /\ 17 <= clueCount (fst (removeCells grid clues rs)))
  /\ (countSolutions (fst (removeSymmetricCells grid clues rs)) 2 = 1%Z
      /\ 17 <= clueCount (fst (removeSymmetricCells grid clues rs))).
Proof.
  intros Hwf Hfull.
  set (I := fun p : SudokuGrid => wf_grid p /\ (p = grid \/ hasUniqueSolution p = true)).
  assert (H1 : forall p r c, I p -> hasUniqueSolution (set_cell p r c EMPTY_CELL) = true ->
                             I (set_cell p r c EMPTY_CELL)).
  { intros p r c [Hp _] Hu. split; [by apply wf_grid_set_cell | by right]. }
  assert (H2 : forall p r c r' c', I p ->
             hasUniqueSolution (set_cell (set_cell p r c EMPTY_CELL) r' c' EMPTY_CELL) = true ->
             I (set_cell (set_cell p r c EMPTY_CELL) r' c' EMPTY_CELL)).
  { intros p r c r' c' [Hp _] Hu. split; [by do 2 apply wf_grid_set_cell | by right]. }
  assert (H0 : I grid) by (split; [exact Hwf | by left]).
  split; apply (carved_unique grid); try done.
  - by apply (removeCells_inv I H1 H2).
  - by apply (removeSymmetricCells_inv I H2).
Qed.

(** ** The puzzle is the solution with cells cleared *)

Lemma agrees_refl (grid : SudokuGrid) : agrees grid grid.
Proof. intros r c. by right. Qed.

Lemma agrees_clear (puzzle solution : SudokuGrid) r c :
  agrees puzzle solution -> agrees (set_cell puzzle r c EMPTY_CELL) solution.
Proof.
  intros H r' c'. destruct (decide ((r, c) = (r', c'))) as [[= <- <-]|Hne].
  - destruct (cell puzzle r c) as [v|] eqn:E.
    + left. apply cell_set_cell_eq. eauto.
    + rewrite cell_set_cell_None by done. apply H.
  - rewrite cell_set_cell_ne by done. apply H.
Qed.

Lemma removeCells_agrees (grid : SudokuGrid) (clues : Z) (rs : Rand) :
  agrees (fst (removeCells grid clues rs)) grid.
Proof.
  apply (removeCells_inv (fun p => agrees p grid)).
  - intros p r c Hp _. by apply agrees_clear.
  - intros p r c r' c' Hp _. by do 2 apply agrees_clear.
  - apply agrees_refl.
Qed.

(** ** Counting the clues left by carving *)

Lemma elem_of_filledCells (grid : SudokuGrid) (p : CellPosition) :
  p ∈ filledCells grid <->
  row p < SUDOKU_SIZE /\ col p < SUDOKU_SIZE /\ isFilledAt grid p.
Proof.
  unfold filledCells. rewrite list_elem_of_filter, elem_of_allPositions. tauto.
Qed.

Lemma filledCells_NoDup (grid : SudokuGrid) : NoDup (filledCells grid).
Proof. apply NoDup_filter, allPositions_NoDup. Qed.

Lemma filledCells_clear (grid : SudokuGrid) r c :
  filledCells (set_cell grid r c EMPTY_CELL)
  = filter (fun p => p <> mkPos r c) (filledCells grid).
Proof.
  unfold filledCells. rewrite list_filter_filter.
  apply list_filter_iff. intros [r' c']. unfold isFilledAt. simpl.
  destruct (decide ((r, c) = (r', c'))) as [[= <- <-]|Hne].
  - destruct (cell grid r c) as [x|] eqn:Hx.
    + rewrite cell_set_cell_eq by eauto. split; [congruence | intros [Hc _]; by destruct Hc].
    + rewrite cell_set_cell_None, Hx by done. split; [done | intros [_ []]].
  - rewrite cell_set_cell_ne by done. split; [|intros [_ H]; exact H].
    intros H. split; [congruence | exact H].
Qed.

Lemma cell_filled_isFilledAt (grid : SudokuGrid) (p : CellPosition) :
  wf_grid grid -> p ∈ allPositions ->
  cell_filled grid (row p) (col p) = true -> p ∈ filledCells grid.
Proof.
  intros Hwf Hp Hf. apply elem_of_allPositions in Hp as [Hr Hc].
  apply elem_of_filledCells. split; [done|]. split; [done|].
  destruct (wf_grid_cell grid (row p) (col p) Hwf Hr Hc) as [v Hv].
  unfold cell_filled, cell_is in Hf. unfold isFilledAt. rewrite Hv in *.
  apply negb_true_iff, Nat.eqb_neq in Hf. exact Hf.
Qed.

Lemma clueCount_clear (grid : SudokuGrid) (p : CellPosition) :
  p ∈ filledCells grid ->
  S (clueCount (set_cell grid (row p) (col p) EMPTY_CELL)) = clueCount grid.
Proof.
  intros Hp. unfold clueCount. rewrite filledCells_clear. destruct p as [r c].
  apply filter_ne_length; [apply filledCells_NoDup | exact Hp].
Qed.

Lemma removeCells_loop_count total toRemove maxAttempts positions :
  forall puzzle removed attempts,
  wf_grid puzzle -> Forall (fun p => p ∈ allPositions) positions ->
  let res := removeCells_loop total toRemove maxAttempts positions puzzle removed attempts in
  (Z.of_nat (clueCount (fst res)) = Z.of_nat (clueCount puzzle) - (snd res - removed))%Z
  /\ (removed <= snd res)%Z
  /\ (removed <= toRemove -> snd res <= toRemove)%Z.
Proof.
  induction positions as [|pos rest IH]; intros puzzle removed attempts Hwf Hpos;
    cbn [removeCells_loop]; [simpl; lia|].
  apply Forall_cons in Hpos as [Hin Hrest].
  destruct (Z.geb_spec removed toRemove); cbn [orb]; [simpl; lia|].
  destruct (attempts >=? maxAttempts)%Z; [simpl; lia|].
  destruct (cell_filled puzzle (row pos) (col pos)) eqn:Hf; [|by apply IH].
  destruct (hasUniqueSolution (set_cell puzzle (row pos) (col pos) EMPTY_CELL)).
  - destruct ((total - removed - 1 >=? 32)%Z || isSolvableWithoutGuessing _).
    + pose proof (clueCount_clear puzzle pos (cell_filled_isFilledAt _ _ Hwf Hin Hf)) as Hc.
      specialize (IH (set_cell puzzle (row pos) (col pos) EMPTY_CELL) (removed + 1)%Z
                     (attempts + 1)%Z (wf_grid_set_cell _ _ _ _ Hwf) Hrest).
      simpl in IH |- *. lia.
    + rewrite restore_set_cell. by apply IH.
  - rewrite restore_set_cell. by apply IH.
Qed.

Lemma elem_of_symmetricPositions (p : CellPosition) :
  p ∈ symmetricPositions ->
  p ∈ allPositions
  /\ mkPos (SUDOKU_SIZE - 1 - row p) (SUDOKU_SIZE - 1 - col p) ∈ allPositions
  /\ mkPos (SUDOKU_SIZE - 1 - row p) (SUDOKU_SIZE - 1 - col p) <> p.
Proof.
  revert p. apply Forall_forall. apply (bool_decide_unpack _). vm_compute. exact I.
Qed.

Lemma removeSymmetric_loop_count toRemove positions :
  forall puzzle removed,
  wf_grid puzzle -> Forall (fun p => p ∈ symmetricPositions) positions ->
  let res := removeSymmetric_loop toRemove positions puzzle removed in
  (Z.of_nat (clueCount (fst res)) = Z.of_nat (clueCount puzzle) - (snd res - removed))%Z
  /\ (exists k : nat, snd res = removed + 2 * Z.of_nat k)%Z
  /\ (removed <= toRemove + 1 -> snd res <= toRemove + 1)%Z.
Proof.
  induction positions as [|pos rest IH]; intros puzzle removed Hwf Hpos;
    cbn [removeSymmetric_loop].
  { simpl. split; [lia|]. split; [exists 0; lia | lia]. }
  apply Forall_cons in Hpos as [Hin Hrest].
  destruct (Z.geb_spec removed toRemove).
  { simpl. split; [lia|]. split; [exists 0; lia | lia]. }
  destruct (cell_filled puzzle (row pos) (col pos)) eqn:Hf1; cbn [andb]; [|by apply IH].
  destruct (cell_filled puzzle (SUDOKU_SIZE - 1 - row pos) (SUDOKU_SIZE - 1 - col pos)) eqn:Hf2;
    [|by apply IH].
  destruct (hasUniqueSolution _).
  - apply elem_of_symmetricPositions in Hin as (Hin1 & Hin2 & Hne).
    set (q := mkPos (SUDOKU_SIZE - 1 - row pos) (SUDOKU_SIZE - 1 - col pos)) in *.
    pose proof (clueCount_clear puzzle pos (cell_filled_isFilledAt _ _ Hwf Hin1 Hf1)) as Hc1.
    assert (Hq : q ∈ filledCells (set_cell puzzle (row pos) (col pos) EMPTY_CELL)).
    { rewrite filledCells_clear. apply list_elem_of_filter. split; [by destruct pos|].
      by apply cell_filled_isFilledAt. }
    pose proof (clueCount_clear _ q Hq) as Hc2. simpl in Hc2.
    specialize (IH (set_cell (set_cell puzzle (row pos) (col pos) EMPTY_CELL)
                             (SUDOKU_SIZE - 1 - row pos) (SUDOKU_SIZE - 1 - col pos) EMPTY_CELL)
                   (removed + 2)%Z).
    destruct IH as (IH1 & [k IH2] & IH3); [by do 2 apply wf_grid_set_cell | exact Hrest |].
    simpl in IH1, IH2, IH3 |- *. split; [lia|]. split; [exists (S k); lia | lia].
  - rewrite restore_pair. by apply IH.
Qed.

Lemma removeSymmetricCells_count (grid : SudokuGrid) (clues : Z) (rs : Rand) :
  wf_grid grid -> (clues <= 81)%Z ->
  exists k : nat,
    (Z.of_nat (clueCount (fst (removeSymmetricCells grid clues rs)))
     = Z.of_nat (clueCount grid) - 2 * Z.of_nat k)%Z
    /\ (2 * Z.of_nat k <= 81 - clues + 1)%Z.
Proof.
  intros Hwf Hclues. unfold removeSymmetricCells. rewrite deepCopyGrid_id.
  pose proof (shuffleArray_Permutation symmetricPositions rs) as Hperm.
  destruct (shuffleArray symmetricPositions rs) as [positions rs']. cbn [fst] in *.
  destruct (removeSymmetric_loop_count (Z.of_nat (SUDOKU_SIZE * SUDOKU_SIZE) - clues)%Z
              positions grid 0 Hwf) as (H1 & [k H2] & H3).
  { apply Forall_forall. intros p Hp. by rewrite Hperm in Hp. }
  exists k. simpl in H1, H2, H3 |- *. lia.
Qed.

Lemma removeCells_count (grid : SudokuGrid) (clues : Z) (rs : Rand) :
  wf_grid grid -> (clues <= 81)%Z ->
  (Z.of_nat (clueCount (fst (removeCells grid clues rs)))
   = Z.of_nat (clueCount grid) - (81 - clues))%Z
  \/ exists k : nat,
      (Z.of_nat (clueCount (fst (removeCells grid clues rs)))
       = Z.of_nat (clueCount grid) - 2 * Z.of_nat k)%Z
      /\ (2 * Z.of_nat k <= 81 - clues + 1)%Z.
Proof.
  intros Hwf Hclues. unfold removeCells. rewrite deepCopyGrid_id.
  pose proof (shuffleArray_Permutation allPositions rs) as Hperm.
  destruct (shuffleArray allPositions rs) as [positions rs']. cbn [fst] in Hperm.
  destruct (removeCells_loop_count (Z.of_nat (SUDOKU_SIZE * SUDOKU_SIZE))
              (Z.of_nat (SUDOKU_SIZE * SUDOKU_SIZE) - clues)%Z
              (Z.of_nat (SUDOKU_SIZE * SUDOKU_SIZE) * 2)%Z positions grid 0 0 Hwf)
    as (H1 & H2 & H3).
  { apply Forall_forall. intros p Hp. by rewrite Hperm in Hp. }
  destruct (removeCells_loop _ _ _ positions grid 0 0) as [puzzle' removed].
  cbn [fst snd] in H1, H2, H3.
  destruct (Z.ltb_spec removed (Z.of_nat (SUDOKU_SIZE * SUDOKU_SIZE) - clues)).
  - right. by apply removeSymmetricCells_count.
  - left. simpl in *. lia.
Qed.

(** ** Well-formedness of generated grids *)

Lemma solve_candidates_wf rec r c numbers :
  forall grid rs res,
  (forall g s res', wf_grid g -> rec g s = Some res' -> wf_grid (snd (fst res'))) ->
  wf_grid grid ->
  solve_candidates rec r c numbers grid rs = Some res ->
  wf_grid (snd (fst res)).
Proof.
  induction numbers as [|num rest IH]; intros grid rs res Hrec Hwf; simpl.
  - by intros [= <-].
  - destruct (isSafe grid r c num); [|by apply IH].
    destruct (rec (set_cell grid r c num) rs) as [[[b g'] rs']|] eqn:E; [|discriminate].
    apply Hrec in E; [|by apply wf_grid_set_cell]. simpl in E.
    destruct b; [by intros [= <-]|].
    apply IH; [exact Hrec | by apply wf_grid_set_cell].
Qed.

Lemma solveSudoku_fuel_wf fuel :
  forall grid depth rs res,
  wf_grid grid -> solveSudoku_fuel fuel grid depth rs = Some res -> wf_grid (snd (fst res)).
Proof.
  induction fuel as [|fuel IH]; intros grid depth rs res Hwf;
    cbn [solveSudoku_fuel]; [discriminate|].
  destruct (depth >? 1000)%Z; [by intros [= <-]|].
  destruct (firstEmpty grid) as [p|]; [|by intros [= <-]].
  destruct (shuffleArray (seq 1 9) rs) as [numbers rs1].
  apply solve_candidates_wf; [|exact Hwf]. intros g s res' Hg. by apply IH.
Qed.

Lemma fillBox_wf (grid : SudokuGrid) r0 c0 rs :
  wf_grid grid -> wf_grid (fst (fillBox grid r0 c0 rs)).
Proof.
  intros Hwf. unfold fillBox.
  destruct (shuffleArray (seq 1 9) rs) as [numbers rs'].
  assert (H : forall rws cls (st : SudokuGrid * nat),
             wf_grid (fst st) ->
             wf_grid (fst (fold_left (fun st r =>
                 fold_left (fun '(g, index) c =>
                     (set_cell g r c (numbers !!! index), index + 1)) cls st) rws st))).
  { induction rws as [|r rws IH]; intros cls st Hst; simpl; [exact Hst|].
    apply IH. clear IH. revert st Hst.
    induction cls as [|c cls IH]; intros [g index] Hst; simpl; [exact Hst|].
    apply IH. simpl. by apply wf_grid_set_cell. }
  specialize (H (seq r0 3) (seq c0 3) (grid, 0) Hwf).
  destruct (fold_left _ (seq r0 3) (grid, 0)) as [grid' n]. exact H.
Qed.

Lemma createEmptyBoard_wf : wf_grid createEmptyBoard.
Proof. apply wf_gridb_spec. reflexivity. Qed.

Lemma generateCompleteSudoku_wf (rs : Rand) : wf_grid (fst (generateCompleteSudoku rs)).
Proof.
  unfold generateCompleteSudoku, fillDiagonalBoxes. cbn [fold_left].
  pose proof (fillBox_wf createEmptyBoard 0 0 rs createEmptyBoard_wf) as H1.
  destruct (fillBox createEmptyBoard 0 0 rs) as [g1 s1]. cbn [fst] in H1.
  pose proof (fillBox_wf g1 3 3 s1 H1) as H2.
  destruct (fillBox g1 3 3 s1) as [g2 s2]. cbn [fst] in H2.
  pose proof (fillBox_wf g2 6 6 s2 H2) as H3.
  destruct (fillBox g2 6 6 s2) as [g3 s3]. cbn [fst] in H3.
  pose proof (solveSudoku_unfold g3 0 s3) as Hrun.
  apply solveSudoku_fuel_wf in Hrun; [|exact H3].
  destruct (solveSudoku g3 0 s3) as [[b g4] s4]. exact Hrun.
Qed.

(** ** Orchestration *)

Lemma generate_once_known (difficulty : string) (config : DifficultyConfig) (rs : Rand) :
  lookup_config DIFFICULTY_CONFIGS difficulty = Some config ->
  generate_once difficulty rs
  = (inr (fst (removeCells (fst (generateCompleteSudoku rs)) (clues config)
                           (snd (generateCompleteSudoku rs))),
          fst (generateCompleteSudoku rs)),
     snd (removeCells (fst (generateCompleteSudoku rs)) (clues config)
                      (snd (generateCompleteSudoku rs)))).
Proof.
  intros Hcfg. unfold generate_once. rewrite Hcfg.
  destruct (generateCompleteSudoku rs) as [solution rs1]. cbn [fst snd].
  destruct (removeCells solution (clues config) rs1) as [puzzle rs2]. cbn [fst snd].
  unfold js_not. cbn [orb]. by rewrite !deepCopyGrid_id.
Qed.

Lemma generate_once_unknown (difficulty : string) (rs : Rand) :
  lookup_config DIFFICULTY_CONFIGS difficulty = None ->
  generate_once difficulty rs
  = (inl (InvalidDifficulty difficulty), snd (generateCompleteSudoku rs)).
Proof.
  intros Hcfg. unfold generate_once. rewrite Hcfg.
  by destruct (generateCompleteSudoku rs) as [solution rs1].
Qed.

Lemma generate_once_agrees (difficulty : string) (rs : Rand) puzzle solution rs' :
  generate_once difficulty rs = (inr (puzzle, solution), rs') -> agrees puzzle solution.
Proof.
  destruct (lookup_config DIFFICULTY_CONFIGS difficulty) as [config|] eqn:Hcfg.
  - rewrite (generate_once_known _ _ _ Hcfg). intros [= <- <- _]. apply removeCells_agrees.
  - by rewrite (generate_once_unknown _ _ Hcfg).
Qed.

Lemma generate_loop_agrees todo :
  forall attempt maxRetries difficulty lastError log rs puzzle solution log' rs',
  generate_loop todo attempt maxRetries difficulty lastError log rs
  = (Returned puzzle solution, log', rs') ->
  agrees puzzle solution.
Proof.
  induction todo as [|todo IH]; intros attempt maxRetries difficulty lastError log rs
    puzzle solution log' rs'; cbn [generate_loop]; [discriminate|].
  destruct (generate_once difficulty rs) as [[error|[p s]] rs1] eqn:E.
  - apply IH.
  - intros [= <- <- _ _]. by eapply generate_once_agrees.
Qed.

(** [removeCells] is its random pass, followed by the symmetric fallback
    when the pass removed fewer cells than asked. *)
Lemma removeCells_unfold (grid : SudokuGrid) (clues : Z) (rs : Rand) :
  removeCells grid clues rs
  = let positions := fst (shuffleArray allPositions rs) in
    let rs' := snd (shuffleArray allPositions rs) in
    let pass := removeCells_loop 81 (81 - clues) 162 positions grid 0 0 in
    if (snd pass <? 81 - clues)%Z then removeSymmetricCells grid clues rs'
    else (fst pass, rs').
Proof.
  unfold removeCells. rewrite deepCopyGrid_id.
  destruct (shuffleArray allPositions rs) as [positions rs']. cbn [fst snd].
  change (Z.of_nat (SUDOKU_SIZE * SUDOKU_SIZE)) with 81%Z. change (81 * 2)%Z with 162%Z.
  cbv zeta. by destruct (removeCells_loop 81 (81 - clues) 162 positions grid 0 0).
Qed.

(** The run of [generatePuzzle] on [reverse_source], step by step: the
    generated board, the random pass of [removeCells], which stops at 55
    removals, and the symmetric fallback. *)
Lemma generateCompleteSudoku_reverse :
  generateCompleteSudoku reverse_source = (solved_grid, reverse_carving).
Proof. vm_compute. reflexivity. Qed.

Lemma random_pass_reverse :
  snd (removeCells_loop 81 59 162 (fst (shuffleArray allPositions reverse_carving))
                        solved_grid 0 0) = 55%Z.
Proof. vm_compute. reflexivity. Qed.

Lemma symmetric_fallback_reverse :
  removeSymmetricCells solved_grid 22 (snd (shuffleArray allPositions reverse_carving))
  = (carved_grid, []).
Proof. vm_compute. reflexivity. Qed.

Lemma removeCells_reverse :
  removeCells solved_grid 22 reverse_carving = (carved_grid, []).
Proof.
  rewrite removeCells_unfold. cbv zeta. change (81 - 22)%Z with 59%Z.
  rewrite random_pass_reverse. exact symmetric_fallback_reverse.
Qed.

Lemma generatePuzzle_expert_run :
  generatePuzzle "expert" 3 reverse_source = (Returned carved_grid solved_grid, [], []).
Proof.
  unfold generatePuzzle. cbn [generate_loop].
  rewrite (generate_once_known "expert" (mkConfig "expert" "Expert" 22 1 "Ultimate challenge")
             reverse_source eq_refl).
  rewrite generateCompleteSudoku_reverse. cbn [fst snd clues].
  rewrite removeCells_reverse. reflexivity.
Qed.

(** C9: in a pair returned by [generatePuzzle], every cell of the puzzle
    is empty or equal to the cell of the solution at the same place. *)
Theorem generatePuzzle_puzzle_within_solution
    (difficulty : string) (maxRetries : nat) (rs : Rand)
    (puzzle solution : SudokuGrid) (log : list Warning) (rs' : Rand) :
  generatePuzzle difficulty maxRetries rs = (Returned puzzle solution, log, rs') ->
  forall r c, cell puzzle r c = Some EMPTY_CELL \/ cell puzzle r c = cell solution r c.
Proof. unfold generatePuzzle. apply generate_loop_agrees. Qed.

Lemma generatePuzzle_puzzle_within_solution_witness :
  generatePuzzle "expert" 3 reverse_source = (Returned carved_grid solved_grid, [], [])
  /\ forall r c, cell carved_grid r c = Some EMPTY_CELL
                 \/ cell carved_grid r c = cell solved_grid r c.
Proof.
  split; [exact generatePuzzle_expert_run|].
  exact (generatePuzzle_puzzle_within_solution "expert" 3 reverse_source
           carved_grid solved_grid [] [] generatePuzzle_expert_run).
Defined.

(** C2, as stated, fails: on [reverse_source] the random pass stops at 55
    removals, the symmetric fallback takes over and [generatePuzzle]
    returns a puzzle with 31 clues, neither 22 clues nor an error. *)
Lemma generatePuzzle_expert_returns_31_clues :
  generatePuzzle "expert" 3 reverse_source = (Returned carved_grid solved_grid, [], [])
  /\ clueCount carved_grid = 31
  /\ clueCount carved_grid <> 22.
Proof.
  split; [exact generatePuzzle_expert_run|].
  split; [vm_compute; reflexivity | vm_compute; discriminate].
Qed.

Lemma lastMessage_invalid (difficulty : string) :
  lastMessage (Some (InvalidDifficulty difficulty))
  = "Invalid difficulty level: " +:+ difficulty.
Proof. reflexivity. Qed.

Lemma generate_loop_unknown (difficulty : string) (maxRetries todo : nat) :
  lookup_config DIFFICULTY_CONFIGS difficulty = None ->
  forall attempt lastError log rs,
  exists rs',
    generate_loop todo attempt maxRetries difficulty lastError log rs
    = (Thrown ("Failed to generate " +:+ difficulty +:+ " puzzle after "
               +:+ pretty maxRetries +:+ " attempts. "
               +:+ lastMessage (match todo with
                                | 0 => lastError
                                | S _ => Some (InvalidDifficulty difficulty)
                                end)),
       log ++ map (fun i => mkWarning i maxRetries (InvalidDifficulty difficulty))
                  (seq attempt todo),
       rs').
Proof.
  intros Hcfg. induction todo as [|todo IH]; intros attempt lastError log rs;
    cbn [generate_loop].
  - exists rs. by rewrite app_nil_r.
  - rewrite (generate_once_unknown _ _ Hcfg).
    destruct (IH (attempt + 1) (Some (InvalidDifficulty difficulty))
                 (log ++ [mkWarning attempt maxRetries (InvalidDifficulty difficulty)])
                 (snd (generateCompleteSudoku rs))) as [rs' ->].
    exists rs'. rewrite <- app_assoc. cbn [app seq map]. rewrite Nat.add_1_r.
    by destruct todo.
Qed.

(** C3, as stated, fails: with the unknown name "nope" and three retries
    the invalid-difficulty error is caught and retried; three attempts are
    recorded and what is thrown in the end is the terminal error. *)
Lemma generatePuzzle_unknown_difficulty_retried :
  lookup_config DIFFICULTY_CONFIGS "nope" = None
  /\ inherited_property "nope" = false
  /\ generatePuzzle "nope" 3 []
     = (Thrown "Failed to generate nope puzzle after 3 attempts. Invalid difficulty level: nope",
        [ mkWarning 1 3 (InvalidDifficulty "nope");
          mkWarning 2 3 (InvalidDifficulty "nope");
          mkWarning 3 3 (InvalidDifficulty "nope") ],
        [])
  /\ length (snd (fst (generatePuzzle "nope" 3 []))) = 3
  /\ fst (fst (generatePuzzle "nope" 3 [])) <> Thrown (message (InvalidDifficulty "nope")).
Proof.
  split; [reflexivity|]. split; [reflexivity|].
  assert (H : generatePuzzle "nope" 3 []
     = (Thrown "Failed to generate nope puzzle after 3 attempts. Invalid difficulty level: nope",
        [ mkWarning 1 3 (InvalidDifficulty "nope");
          mkWarning 2 3 (InvalidDifficulty "nope");
          mkWarning 3 3 (InvalidDifficulty "nope") ],
        [])) by (vm_compute; reflexivity).
  split; [exact H|]. rewrite H. split; [reflexivity | discriminate].
Qed.

(** C3, amended: for a difficulty name that is neither in the
    configuration table nor the name of a property that the table inherits
    from [Object.prototype], every one of the [maxRetries] attempts
    raises the invalid-difficulty error, which is caught and recorded;
    [generatePuzzle] then throws the terminal error, which names the
    difficulty, the number of attempts and the last cause (the
    invalid-difficulty message, or "Unknown error" when [maxRetries] is
    0). *)
Theorem generatePuzzle_unknown_difficulty
    (difficulty : string) (maxRetries : nat) (rs : Rand) :
  lookup_config DIFFICULTY_CONFIGS difficulty = None ->
  inherited_property difficulty = false ->
  exists rs',
    generatePuzzle difficulty maxRetries rs
    = (Thrown ("Failed to generate " +:+ difficulty +:+ " puzzle after "
               +:+ pretty maxRetries +:+ " attempts. "
               +:+ (if Nat.eqb maxRetries 0 then "Unknown error"
                    else "Invalid difficulty level: " +:+ difficulty)),
       map (fun i => mkWarning i maxRetries (InvalidDifficulty difficulty))
           (seq 1 maxRetries),
       rs').
Proof.
  intros Hcfg _. unfold generatePuzzle.
  destruct (generate_loop_unknown difficulty maxRetries maxRetries Hcfg 1 None [] rs)
    as [rs' ->].
  exists rs'. by destruct maxRetries.
Qed.

Lemma generatePuzzle_unknown_difficulty_witness :
  lookup_config DIFFICULTY_CONFIGS "nope" = None
  /\ inherited_property "nope" = false
  /\ exists rs',
    generatePuzzle "nope" 3 []
    = (Thrown ("Failed to generate " +:+ "nope" +:+ " puzzle after "
               +:+ pretty 3 +:+ " attempts. "
               +:+ (if Nat.eqb 3 0 then "Unknown error"
                    else "Invalid difficulty level: " +:+ "nope")),
       map (fun i => mkWarning i 3 (InvalidDifficulty "nope")) (seq 1 3),
       rs').
Proof.
  split; [reflexivity|]. split; [reflexivity|].
  exact (generatePuzzle_unknown_difficulty "nope" 3 [] eq_refl eq_refl).
Defined.

(** ** Board validation *)

Lemma cell_is_true (grid : SudokuGrid) r c v :
  cell_is grid r c v = true <-> cell grid r c = Some v.
Proof.
  unfold cell_is. destruct (cell grid r c) as [x|]; [|split; discriminate].
  rewrite Nat.eqb_eq. split; congruence.
Qed.

Lemma box_start_spec (r r' : nat) :
  (exists i, i < BOX_SIZE /\ r' = r - r mod BOX_SIZE + i) <-> r / BOX_SIZE = r' / BOX_SIZE.
Proof.
  unfold BOX_SIZE.
  pose proof (Nat.div_mod_eq r 3) as Hr. pose proof (Nat.div_mod_eq r' 3) as Hr'.
  pose proof (Nat.mod_upper_bound r 3). pose proof (Nat.mod_upper_bound r' 3).
  split.
  - intros (i & Hi & ->).
    assert (E : r - r mod 3 + i = i + (r / 3) * 3) by lia.
    rewrite E, Nat.div_add by lia. rewrite (Nat.div_small i 3) by lia. reflexivity.
  - intros E. exists (r' mod 3). split; [lia|]. rewrite E in Hr. lia.
Qed.

(** [isSafe] fails exactly when the value sits in the row, the column or
    the box of the cell. *)
Lemma isSafe_false_iff (grid : SudokuGrid) (p : CellPosition) (num : nat) :
  num <> EMPTY_CELL -> row p < SUDOKU_SIZE -> col p < SUDOKU_SIZE ->
  isSafe grid (row p) (col p) num = false <->
  exists q, row q < SUDOKU_SIZE /\ col q < SUDOKU_SIZE /\ sameUnit p q
            /\ cell grid (row q) (col q) = Some num.
Proof.
  intros Hnum Hr Hc. unfold isSafe.
  apply Nat.eqb_neq in Hnum. rewrite Hnum.
  set (inRow := existsb (fun x => cell_is grid (row p) x num) (seq 0 SUDOKU_SIZE)).
  set (inCol := existsb (fun x => cell_is grid x (col p) num) (seq 0 SUDOKU_SIZE)).
  set (inBox := existsb _ (seq 0 BOX_SIZE)).
  assert (HR : inRow = true <-> exists x, x < SUDOKU_SIZE /\ cell grid (row p) x = Some num).
  { unfold inRow. rewrite existsb_exists. split.
    - intros (x & Hx & Hv). apply in_seq in Hx. apply cell_is_true in Hv. exists x. split; [lia|done].
    - intros (x & Hx & Hv). exists x. split; [apply in_seq; lia | by apply cell_is_true]. }
  assert (HC : inCol = true <-> exists x, x < SUDOKU_SIZE /\ cell grid x (col p) = Some num).
  { unfold inCol. rewrite existsb_exists. split.
    - intros (x & Hx & Hv). apply in_seq in Hx. apply cell_is_true in Hv. exists x. split; [lia|done].
    - intros (x & Hx & Hv). exists x. split; [apply in_seq; lia | by apply cell_is_true]. }
  assert (HB : inBox = true <->
               exists r' c', row p / BOX_SIZE = r' / BOX_SIZE /\ col p / BOX_SIZE = c' / BOX_SIZE
                             /\ cell grid r' c' = Some num).
  { unfold inBox. rewrite existsb_exists. split.
    - intros (i & Hi & Hex). apply existsb_exists in Hex as (j & Hj & Hv).
      apply in_seq in Hi, Hj. apply cell_is_true in Hv.
      eexists _, _. split; [|split; [|exact Hv]];
        apply box_start_spec; eexists; (split; [|reflexivity]); lia.
    - intros (r' & c' & Hbr & Hbc & Hv).
      apply box_start_spec in Hbr as (i & Hi & ->). apply box_start_spec in Hbc as (j & Hj & ->).
      exists i. split; [apply in_seq; lia|]. apply existsb_exists.
      exists j. split; [apply in_seq; lia | by apply cell_is_true]. }
  assert (Hbound : forall x y, x / BOX_SIZE = y / BOX_SIZE -> x < SUDOKU_SIZE -> y < SUDOKU_SIZE).
  { unfold BOX_SIZE, SUDOKU_SIZE. intros x y E Hx.
    pose proof (Nat.div_mod_eq x 3). pose proof (Nat.div_mod_eq y 3).
    pose proof (Nat.mod_upper_bound x 3). pose proof (Nat.mod_upper_bound y 3). lia. }
  clearbody inRow inCol inBox. split.
  - intros H. destruct inRow.
    { destruct (proj1 HR eq_refl) as (x & Hx & Hv).
      exists (mkPos (row p) x). unfold sameUnit. simpl. tauto. }
    destruct inCol.
    { destruct (proj1 HC eq_refl) as (x & Hx & Hv).
      exists (mkPos x (col p)). unfold sameUnit. simpl. tauto. }
    destruct inBox; [|discriminate].
    destruct (proj1 HB eq_refl) as (r' & c' & Hbr & Hbc & Hv).
    exists (mkPos r' c'). unfold sameUnit. simpl.
    split; [by apply (Hbound (row p))|]. split; [by apply (Hbound (col p))|]. tauto.
  - intros ([r' c'] & Hr' & Hc' & Hunit & Hv). simpl in *.
    destruct inRow; [reflexivity|]. destruct inCol; [reflexivity|].
    destruct inBox; [reflexivity|]. exfalso.
    destruct Hunit as [E|[E|[Er Ec]]]; simpl in *.
    + assert (false = true); [|discriminate]. apply HR. exists c'. by rewrite E.
    + assert (false = true); [|discriminate]. apply HC. exists r'. by rewrite E.
    + assert (false = true); [|discriminate]. apply HB. by exists r', c'.
Qed.

Lemma isConflictb_spec (grid : SudokuGrid) (p : CellPosition) :
  row p < SUDOKU_SIZE -> col p < SUDOKU_SIZE ->
  isConflictb grid p = true <-> inConflict grid p.
Proof.
  intros Hr Hc. unfold isConflictb, inConflict.
  destruct (cell grid (row p) (col p)) as [v|] eqn:Hv.
  2:{ split; [discriminate | intros (v & q & _ & H & _); discriminate]. }
  rewrite andb_true_iff, !negb_true_iff, Nat.eqb_neq.
  assert (Hcleared : cell (set_cell grid (row p) (col p) EMPTY_CELL) (row p) (col p)
                     = Some EMPTY_CELL) by (apply cell_set_cell_eq; eauto).
  assert (Hother : forall q, q <> p ->
             cell (set_cell grid (row p) (col p) EMPTY_CELL) (row q) (col q)
             = cell grid (row q) (col q)).
  { intros q Hq. apply cell_set_cell_ne. intros [= E1 E2]. apply Hq.
    destruct p, q; simpl in *; congruence. }
  split.
  - intros [Hnz Hunsafe]. apply isSafe_false_iff in Hunsafe; [|done..].
    destruct Hunsafe as (q & Hqr & Hqc & Hunit & Hq).
    assert (Hne : q <> p) by (intros ->; congruence).
    exists v, q. rewrite Hother in Hq by done. by repeat split.
  - intros (v' & q & Hnz & [= <-] & Hne & Hqr & Hqc & Hunit & Hq).
    split; [done|]. apply isSafe_false_iff; [done..|].
    exists q. rewrite Hother by done. by repeat split.
Qed.

Lemma validateBoard_step_spec (grid : SudokuGrid) r c valid confl :
  validateBoard_step r c (grid, valid, confl)
  = (grid,
     valid && negb (isConflictb grid (mkPos r c)),
     if isConflictb grid (mkPos r c) then set_add (conflictKey r c) confl else confl).
Proof.
  unfold validateBoard_step, isConflictb. cbn [row col].
  destruct (cell grid r c) as [v|] eqn:Hv; [|cbn [negb]; by rewrite andb_true_r].
  destruct (Nat.eqb v EMPTY_CELL) eqn:Hz; cbn [negb andb]; [by rewrite andb_true_r|].
  rewrite set_cell_set_cell, (set_cell_id grid r c v) by done.
  destruct (isSafe _ r c v); cbn [negb]; cbv iota beta;
    [by rewrite andb_true_r | by rewrite andb_false_r].
Qed.

Lemma nested_fold {S} (f : nat -> nat -> S -> S) (rws cls : list nat) (st : S) :
  fold_left (fun st r => fold_left (fun st c => f r c st) cls st) rws st
  = fold_left (fun st p => f (row p) (col p) st)
              (flat_map (fun r => map (fun c => mkPos r c) cls) rws) st.
Proof.
  revert st. induction rws as [|r rws IH]; intros st; simpl; [reflexivity|].
  rewrite fold_left_app, IH. f_equal.
  clear IH. revert st. induction cls as [|c cls IH]; intros st; simpl; [reflexivity|].
  apply IH.
Qed.

Lemma validateBoard_fold (grid : SudokuGrid) (l : list CellPosition) :
  forall valid confl,
  fold_left (fun st p => validateBoard_step (row p) (col p) st) l (grid, valid, confl)
  = (grid,
     valid && forallb (fun p => negb (isConflictb grid p)) l,
     fold_left (fun s p => if isConflictb grid p
                           then set_add (conflictKey (row p) (col p)) s else s) l confl).
Proof.
  induction l as [|[r c] l IH]; intros valid confl; cbn [fold_left forallb row col];
    [by rewrite andb_true_r|].
  rewrite validateBoard_step_spec, IH. by rewrite andb_assoc.
Qed.

Lemma validateBoard_loop_spec (grid : SudokuGrid) :
  validateBoard_loop grid
  = (grid,
     forallb (fun p => negb (isConflictb grid p)) allPositions,
     fold_left (fun s p => if isConflictb grid p
                           then set_add (conflictKey (row p) (col p)) s else s)
               allPositions []).
Proof.
  unfold validateBoard_loop.
  rewrite (nested_fold (fun r c st => validateBoard_step r c st)).
  apply validateBoard_fold.
Qed.

Lemma In_set_add (k k' : string) (s : list string) :
  In k (set_add k' s) <-> k = k' \/ In k s.
Proof.
  unfold set_add. destruct (existsb (String.eqb k') s) eqn:E.
  - split; [tauto|]. intros [->|H]; [|exact H].
    apply existsb_exists in E as (x & Hx & Hk). apply String.eqb_eq in Hk. by subst.
  - rewrite in_app_iff. simpl. split; [intros [H|[H|[]]]; auto | intros [H|H]; auto].
Qed.

Lemma In_conflict_fold (grid : SudokuGrid) (l : list CellPosition) :
  forall confl k,
  In k (fold_left (fun s p => if isConflictb grid p
                             then set_add (conflictKey (row p) (col p)) s else s) l confl)
  <-> In k confl
      \/ exists p, In p l /\ isConflictb grid p = true /\ k = conflictKey (row p) (col p).
Proof.
  induction l as [|p l IH]; intros confl k; simpl.
  - split; [tauto | intros [H|(p & [] & _)]; exact H].
  - rewrite IH. destruct (isConflictb grid p) eqn:E.
    + rewrite In_set_add. split.
      * intros [[->|H]|(q & Hq & Hc & Hk)]; [right; exists p; auto | auto |].
        right. exists q. auto.
      * intros [H|(q & [<-|Hq] & Hc & Hk)]; [auto | auto |]. right. exists q. auto.
    + split.
      * intros [H|(q & Hq & Hc & Hk)]; [auto|]. right. exists q. auto.
      * intros [H|(q & [<-|Hq] & Hc & Hk)]; [auto | congruence |]. right. exists q. auto.
Qed.

Lemma conflictKey_inj (p q : CellPosition) :
  p ∈ allPositions -> q ∈ allPositions ->
  conflictKey (row p) (col p) = conflictKey (row q) (col q) -> p = q.
Proof.
  intros Hp Hq.
  assert (H : Forall (fun p => Forall (fun q =>
                conflictKey (row p) (col p) = conflictKey (row q) (col q) -> p = q)
              allPositions) allPositions).
  { apply (bool_decide_unpack _). vm_compute. exact I. }
  rewrite Forall_forall in H. specialize (H p Hp). rewrite Forall_forall in H.
  by apply H.
Qed.

(** C5: on a 9x9 grid [validateBoard] leaves the grid as it found it; its
    conflict set holds the key of a position exactly when that cell is
    filled and its value occurs in another cell of its row, column or box
    (both members of a conflicting pair are therefore listed); [isValid]
    is true exactly when the set is empty. In particular a grid with 5 at
    (0,0) and at (0,3) is reported invalid with both "0-0" and "0-3" in
    the set. *)
Theorem validateBoard_conflicts (grid : SudokuGrid) :
  wf_grid grid ->
  snd (validateBoard grid) = grid
  /\ (forall p, row p < SUDOKU_SIZE -> col p < SUDOKU_SIZE ->
        (In (conflictKey (row p) (col p)) (conflicts (fst (validateBoard grid)))
         <-> inConflict grid p))
  /\ (forall k, In k (conflicts (fst (validateBoard grid))) ->
        exists p, row p < SUDOKU_SIZE /\ col p < SUDOKU_SIZE
                  /\ k = conflictKey (row p) (col p))
  /\ (isValid (fst (validateBoard grid)) = true
      <-> conflicts (fst (validateBoard grid)) = [])
  /\ (cell grid 0 0 = Some 5 -> cell grid 0 3 = Some 5 ->
      isValid (fst (validateBoard grid)) = false
      /\ In "0-0" (conflicts (fst (validateBoard grid)))
      /\ In "0-3" (conflicts (fst (validateBoard grid)))).
Proof.
  intros _. unfold validateBoard. rewrite validateBoard_loop_spec. cbn [fst snd isValid conflicts].
  set (confl := fold_left _ allPositions []).
  set (valid := forallb _ allPositions).
  assert (Hmem : forall k, In k confl <->
            exists p, In p allPositions /\ isConflictb grid p = true
                      /\ k = conflictKey (row p) (col p)).
  { intros k. unfold confl. rewrite In_conflict_fold. cbn [In]. tauto. }
  assert (Hall : valid = true <-> forall p, In p allPositions -> isConflictb grid p = false).
  { unfold valid. rewrite forallb_forall. split; intros H p Hp; specialize (H p Hp).
    - by apply negb_true_iff in H.
    - by apply negb_true_iff. }
  clearbody confl valid.
  assert (Hkey : forall p, row p < SUDOKU_SIZE -> col p < SUDOKU_SIZE ->
            (In (conflictKey (row p) (col p)) confl <-> inConflict grid p)).
  { intros p Hr Hc. rewrite Hmem. rewrite <- isConflictb_spec by done. split.
    - intros (q & Hq & Hconf & Hk). apply list_elem_of_In in Hq.
      assert (p = q) as ->; [|exact Hconf].
      apply conflictKey_inj; [by apply elem_of_allPositions | exact Hq | exact Hk].
    - intros Hconf. exists p. split; [|by split].
      apply list_elem_of_In. by apply elem_of_allPositions. }
  assert (Hvalid : valid = true <-> confl = []).
  { rewrite Hall. split.
    - intros Hno. destruct confl as [|k l]; [reflexivity|]. exfalso.
      destruct (proj1 (Hmem k)) as (p & Hp & Hconf & _); [by left|].
      rewrite (Hno p Hp) in Hconf. discriminate.
    - intros E p Hp. destruct (isConflictb grid p) eqn:Hconf; [|reflexivity]. exfalso.
      assert (Hin : In (conflictKey (row p) (col p)) confl) by (apply Hmem; eauto).
      rewrite E in Hin. destruct Hin. }
  split; [reflexivity|]. split; [exact Hkey|]. split.
  { intros k Hk. apply Hmem in Hk as (p & Hp & _ & ->).
    apply list_elem_of_In, elem_of_allPositions in Hp. exists p. tauto. }
  split; [exact Hvalid|].
  intros H00 H03.
  assert (H1 : In "0-0" confl).
  { apply (Hkey (mkPos 0 0)); [unfold SUDOKU_SIZE; simpl; lia..|].
    exists 5, (mkPos 0 3). unfold sameUnit, SUDOKU_SIZE. simpl.
    repeat split; (done || lia || auto). }
  assert (H2 : In "0-3" confl).
  { apply (Hkey (mkPos 0 3)); [unfold SUDOKU_SIZE; simpl; lia..|].
    exists 5, (mkPos 0 0). unfold sameUnit, SUDOKU_SIZE. simpl.
    repeat split; (done || lia || auto). }
  split; [|by split].
  destruct valid; [|reflexivity].
  rewrite (proj1 Hvalid eq_refl) in H1. destruct H1.
Qed.

Lemma validateBoard_conflicts_witness :
  wf_grid doubled_five_grid
  /\ cell doubled_five_grid 0 0 = Some 5 /\ cell doubled_five_grid 0 3 = Some 5
  /\ isValid (fst (validateBoard doubled_five_grid)) = false
  /\ In "0-0" (conflicts (fst (validateBoard doubled_five_grid)))
  /\ In "0-3" (conflicts (fst (validateBoard doubled_five_grid))).
Proof.
  assert (Hwf : wf_grid doubled_five_grid) by (apply wf_gridb_spec; reflexivity).
  split; [exact Hwf|]. split; [reflexivity|]. split; [reflexivity|].
  exact (proj2 (proj2 (proj2 (proj2 (validateBoard_conflicts doubled_five_grid Hwf))))
           eq_refl eq_refl).
Defined.

(** ** The propagation loop terminates *)

Lemma propagate_cell_progress (r c : nat) (g g' : SudokuGrid) (b b' : bool) :
  r < SUDOKU_SIZE -> c < SUDOKU_SIZE ->
  propagate_cell r c (g, b) = Some (g', b') ->
  length (findEmptyCells g') <= length (findEmptyCells g)
  /\ (b' = true -> b = true \/ length (findEmptyCells g') < length (findEmptyCells g)).
Proof.
  intros Hr Hc. unfold propagate_cell.
  destruct (cell_is g r c EMPTY_CELL) eqn:He; [|intros [= <- <-]; auto].
  destruct (getPossibleNumbers g r c) as [|v [|w l]] eqn:Hp;
    [discriminate | | intros [= <- <-]; auto].
  intros [= <- <-].
  assert (Hv : v <> EMPTY_CELL).
  { assert (Hin : v ∈ getPossibleNumbers g r c) by (rewrite Hp; by left).
    unfold getPossibleNumbers in Hin. apply list_elem_of_filter in Hin as [_ Hin].
    apply list_elem_of_In, in_seq in Hin. unfold EMPTY_CELL. lia. }
  assert (Hin : mkPos r c ∈ findEmptyCells g).
  { apply elem_of_findEmptyCells. simpl. by apply cell_is_true in He. }
  pose proof (findEmptyCells_fill_length g (mkPos r c) v Hv Hin) as Hl. simpl in Hl.
  split; [lia | intros _; right; lia].
Qed.

Lemma propagate_fold_progress (l : list CellPosition) :
  forall g b g' b',
  Forall (fun p => p ∈ allPositions) l ->
  fold_left (fun st p => match st with
                         | Some s => propagate_cell (row p) (col p) s
                         | None => None
                         end) l (Some (g, b)) = Some (g', b') ->
  length (findEmptyCells g') <= length (findEmptyCells g)
  /\ (b' = true -> b = true \/ length (findEmptyCells g') < length (findEmptyCells g)).
Proof.
  induction l as [|p l IH]; intros g b g' b' Hl; cbn [fold_left].
  - intros [= <- <-]. auto.
  - apply Forall_cons in Hl as [Hp Hl]. apply elem_of_allPositions in Hp as [Hr Hc].
    destruct (propagate_cell (row p) (col p) (g, b)) as [[g1 b1]|] eqn:E.
    + intros H. apply IH in H as [H1 H2]; [|exact Hl].
      apply propagate_cell_progress in E as [E1 E2]; [|done..].
      split; [lia|]. intros Hb. destruct (H2 Hb) as [->|Hlt]; [|right; lia].
      destruct (E2 eq_refl) as [->|Hlt]; [by left | right; lia].
    + intros H. exfalso. clear -H. induction l as [|q l IHl]; [discriminate | by apply IHl].
Qed.

Lemma propagate_pass_progress (g g' : SudokuGrid) (b' : bool) :
  propagate_pass g = Some (g', b') ->
  length (findEmptyCells g') <= length (findEmptyCells g)
  /\ (b' = true -> length (findEmptyCells g') < length (findEmptyCells g)).
Proof.
  unfold propagate_pass.
  rewrite (nested_fold (fun r c (st : option (SudokuGrid * bool)) =>
                          match st with
                          | Some s => propagate_cell r c s
                          | None => None
                          end)).
  intros H. apply propagate_fold_progress in H as [H1 H2].
  - split; [exact H1|]. intros Hb. by destruct (H2 Hb).
  - apply Forall_forall. auto.
Qed.

Lemma propagate_fuel_enough (fuel : nat) :
  forall g, length (findEmptyCells g) < fuel -> is_Some (propagate_fuel fuel g).
Proof.
  induction fuel as [|fuel IH]; intros g Hfuel; [lia|]. cbn [propagate_fuel].
  destruct (propagate_pass g) as [[g' b']|] eqn:E; [|eauto].
  apply propagate_pass_progress in E as [E1 E2].
  destruct b'; [|eauto]. apply IH. specialize (E2 eq_refl). lia.
Qed.

(** ** The solver finds a completion whenever there is one *)

Lemma sameUnit_sym (p q : CellPosition) : sameUnit p q -> sameUnit q p.
Proof. unfold sameUnit. intros [H|[H|[H1 H2]]]; auto. Qed.

Lemma pos_eq_dec_cases (p : CellPosition) r c :
  p = mkPos r c \/ (r, c) <> (row p, col p).
Proof.
  destruct p as [r' c']. simpl.
  destruct (decide ((r, c) = (r', c'))) as [[= -> ->]|H]; [by left | by right].
Qed.

(** Writing a safe value into an empty cell keeps the grid consistent. *)
Lemma consistent_place (grid : SudokuGrid) (p : CellPosition) (num : nat) :
  consistent grid -> emptyCell grid p -> num <> EMPTY_CELL ->
  isSafe grid (row p) (col p) num = true ->
  consistent (set_cell grid (row p) (col p) num).
Proof.
  intros Hcons (Hr & Hc & Hcell) Hnum Hsafe q Hqr Hqc (v & q' & Hv & Hq & Hne & Hr' & Hc' & Hunit & Hq').
  assert (Hnot : forall z, row z < SUDOKU_SIZE -> col z < SUDOKU_SIZE -> sameUnit p z ->
                           cell grid (row z) (col z) <> Some num).
  { intros z Hzr Hzc Hz Hzv.
    assert (isSafe grid (row p) (col p) num = false); [|congruence].
    apply isSafe_false_iff; [done..|]. by exists z. }
  destruct (pos_eq_dec_cases q (row p) (col p)) as [->|Hqp].
  - simpl in Hq. rewrite cell_set_cell_eq in Hq by eauto. injection Hq as <-.
    destruct (pos_eq_dec_cases q' (row p) (col p)) as [->|Hq'p]; [by destruct Hne|].
    rewrite cell_set_cell_ne in Hq' by done. by apply (Hnot q').
  - rewrite cell_set_cell_ne in Hq by done.
    destruct (pos_eq_dec_cases q' (row p) (col p)) as [->|Hq'p].
    + simpl in Hq'. rewrite cell_set_cell_eq in Hq' by eauto. injection Hq' as <-.
      apply (Hnot q); [done..| |done]. apply sameUnit_sym. exact Hunit.
    + rewrite cell_set_cell_ne in Hq' by done.
      apply (Hcons q Hqr Hqc). by exists v, q'.
Qed.

Lemma bounded_place (grid : SudokuGrid) r c (num : nat) :
  bounded grid -> num <= 9 -> bounded (set_cell grid r c num).
Proof.
  intros Hb Hnum q Hqr Hqc. destruct (Hb q Hqr Hqc) as (v & Hv & Hle).
  destruct (pos_eq_dec_cases q r c) as [->|Hne].
  - exists num. simpl in *. split; [|done]. apply cell_set_cell_eq. eauto.
  - exists v. by rewrite cell_set_cell_ne.
Qed.

Lemma shuffled_numbers (rs : Rand) :
  forall num, num ∈ fst (shuffleArray (seq 1 9) rs) <-> 1 <= num <= 9.
Proof.
  intros num. rewrite shuffleArray_Permutation, list_elem_of_In, in_seq. lia.
Qed.

Lemma solve_candidates_sound rec r c numbers :
  forall grid rs grid' rs',
  (forall g s g' s', solver_inv g -> rec g s = Some (true, g', s') ->
                     solver_inv g' /\ findEmptyCells g' = []) ->
  (forall g s res, rec g s = Some res -> solver_post g res) ->
  solver_inv grid -> emptyCell grid (mkPos r c) ->
  Forall (fun num => 1 <= num <= 9) numbers ->
  solve_candidates rec r c numbers grid rs = Some (true, grid', rs') ->
  solver_inv grid' /\ findEmptyCells grid' = [].
Proof.
  induction numbers as [|num rest IH]; intros grid rs grid' rs' Hrec Hpost Hinv Hempty Hnums;
    simpl; [discriminate|].
  apply Forall_cons in Hnums as [Hnum Hrest].
  destruct (isSafe grid r c num) eqn:Hsafe; [|by apply IH].
  destruct (rec (set_cell grid r c num) rs) as [[[b g1] rs1]|] eqn:E; [|discriminate].
  destruct b.
  - intros [= <- <-]. apply (Hrec _ _ _ _ ) in E; [exact E|].
    destruct Hinv as (Hwf & Hcons & Hb).
    split; [by apply wf_grid_set_cell|]. split.
    + apply (consistent_place grid (mkPos r c)); [done..|unfold EMPTY_CELL; lia|done].
    + apply bounded_place; [done|lia].
  - apply Hpost in E. unfold solver_post in E. simpl in E. rewrite E by done.
    pose proof Hempty as (_ & _ & Hcell). simpl in Hcell.
    rewrite set_cell_set_cell, set_cell_id by done. by apply IH.
Qed.

Lemma solveSudoku_fuel_sound fuel :
  forall grid depth rs grid' rs',
  solver_inv grid ->
  solveSudoku_fuel fuel grid depth rs = Some (true, grid', rs') ->
  solver_inv grid' /\ findEmptyCells grid' = [].
Proof.
  induction fuel as [|fuel IH]; intros grid depth rs grid' rs' Hinv;
    cbn [solveSudoku_fuel]; [discriminate|].
  destruct (depth >? 1000)%Z; [discriminate|].
  destruct (firstEmpty grid) as [[r c]|] eqn:Hp.
  - pose proof (shuffled_numbers rs) as Hnums.
    destruct (shuffleArray (seq 1 9) rs) as [numbers rs1]. cbn [fst] in Hnums. cbn [row col].
    apply firstEmpty_Some in Hp as [Hin _]. apply elem_of_findEmptyCells in Hin.
    apply solve_candidates_sound; try done.
    + intros g s g' s' Hg. by apply IH.
    + intros g s res. apply solveSudoku_fuel_restores.
    + apply Forall_forall. intros num Hn. by apply Hnums.
  - intros [= <- <-]. split; [exact Hinv|].
    unfold firstEmpty in Hp. by apply head_None in Hp.
Qed.

Lemma agrees_place (grid s : SudokuGrid) r c v :
  agrees grid s -> cell s r c = Some v -> is_Some (cell grid r c) ->
  agrees (set_cell grid r c v) s.
Proof.
  intros Hag Hs Hg r' c'. destruct (decide ((r, c) = (r', c'))) as [[= <- <-]|Hne].
  - right. rewrite Hs. by apply cell_set_cell_eq.
  - rewrite cell_set_cell_ne by done. apply Hag.
Qed.

(** The value a solved extension holds at an empty cell is safe there. *)
Lemma solution_value_safe (grid s : SudokuGrid) (p : CellPosition) (v : nat) :
  agrees grid s -> solved s -> emptyCell grid p ->
  cell s (row p) (col p) = Some v ->
  1 <= v <= 9 /\ isSafe grid (row p) (col p) v = true.
Proof.
  intros Hag (Hwf & Hfull & Hcons & Hb) (Hr & Hc & Hcell) Hv.
  assert (Hv0 : v <> EMPTY_CELL).
  { intros ->. assert (Hin : p ∈ findEmptyCells s) by (by apply elem_of_findEmptyCells).
    rewrite Hfull in Hin. by apply elem_of_nil in Hin. }
  split.
  { destruct (Hb p Hr Hc) as (v' & Hv' & Hle). unfold EMPTY_CELL in Hv0.
    rewrite Hv in Hv'. injection Hv' as <-. lia. }
  destruct (isSafe grid (row p) (col p) v) eqn:Hsafe; [reflexivity|]. exfalso.
  apply isSafe_false_iff in Hsafe as (q & Hqr & Hqc & Hunit & Hq); [|done..].
  apply (Hcons p Hr Hc). exists v, q.
  assert (Hne : q <> p) by (intros ->; congruence).
  repeat split; try done.
  destruct (Hag (row q) (col q)) as [H0|Heq]; [congruence|]. by rewrite <- Heq.
Qed.

Lemma solve_candidates_complete rec r c (v : nat) numbers :
  forall grid rs,
  (forall g s, length (findEmptyCells g) < length (findEmptyCells grid) ->
     exists res', rec g s = Some res' /\ solver_post g res') ->
  (forall s, exists g' s', rec (set_cell grid r c v) s = Some (true, g', s')) ->
  emptyCell grid (mkPos r c) ->
  isSafe grid r c v = true ->
  Forall (fun num => num <> EMPTY_CELL) numbers ->
  v ∈ numbers ->
  exists grid' rs', solve_candidates rec r c numbers grid rs = Some (true, grid', rs').
Proof.
  induction numbers as [|num rest IH]; intros grid rs Hrec Hgood Hempty Hsafe Hnz Hin;
    [by apply elem_of_nil in Hin|].
  apply Forall_cons in Hnz as [Hnum Hrest]. simpl.
  assert (Hpos : mkPos r c ∈ findEmptyCells grid) by (by apply elem_of_findEmptyCells).
  destruct (decide (num = v)) as [->|Hne].
  - rewrite Hsafe. destruct (Hgood rs) as (g' & s' & ->). eauto.
  - assert (Hin' : v ∈ rest) by (apply elem_of_cons in Hin as [->|?]; [congruence|done]).
    destruct (isSafe grid r c num); [|by apply IH].
    destruct (Hrec (set_cell grid r c num) rs) as ([[b g1] rs1] & E & Hpost).
    { pose proof (findEmptyCells_fill_length grid (mkPos r c) num Hnum Hpos) as Hl.
      simpl in Hl. lia. }
    rewrite E. destruct b; [eauto|].
    unfold solver_post in Hpost. simpl in Hpost. rewrite Hpost by done.
    pose proof Hempty as (_ & _ & Hcell). simpl in Hcell.
    rewrite set_cell_set_cell, set_cell_id by done. by apply IH.
Qed.

Lemma solveSudoku_fuel_complete (s : SudokuGrid) fuel :
  solved s ->
  forall grid depth rs,
  agrees grid s -> wf_grid grid ->
  length (findEmptyCells grid) < fuel ->
  (depth + Z.of_nat (length (findEmptyCells grid)) <= 1000)%Z ->
  exists grid' rs', solveSudoku_fuel fuel grid depth rs = Some (true, grid', rs').
Proof.
  intros Hs. induction fuel as [|fuel IH]; intros grid depth rs Hag Hwf Hfuel Hdepth; [lia|].
  cbn [solveSudoku_fuel].
  destruct (Z.gtb_spec depth 1000); [lia|].
  destruct (firstEmpty grid) as [[r c]|] eqn:Hp; [|eauto].
  pose proof (shuffled_numbers rs) as Hnums.
  destruct (shuffleArray (seq 1 9) rs) as [numbers rs1]. cbn [fst] in Hnums. cbn [row col].
  apply firstEmpty_Some in Hp as [Hin _].
  apply elem_of_findEmptyCells in Hin as Hempty.
  destruct Hs as (Hswf & Hsfull & Hscons & Hsb).
  destruct Hempty as (Hr & Hc & Hcell). simpl in Hr, Hc, Hcell.
  destruct (wf_grid_cell s r c Hswf Hr Hc) as [v Hv].
  destruct (solution_value_safe grid s (mkPos r c) v) as [Hrange Hsafe]; try done.
  pose proof (findEmptyCells_fill_length grid (mkPos r c) v) as Hl. simpl in Hl.
  apply (solve_candidates_complete _ r c v); try done.
  - intros g s' Hlt. apply solveSudoku_fuel_enough. lia.
  - intros s'. apply IH.
    + apply agrees_place; eauto.
    + by apply wf_grid_set_cell.
    + rewrite <- Hl in Hfuel; [lia | unfold EMPTY_CELL; lia | done].
    + rewrite <- Hl in Hdepth; [lia | unfold EMPTY_CELL; lia | done].
  - apply Forall_forall. intros num Hn. apply Hnums in Hn. unfold EMPTY_CELL. lia.
  - apply Hnums. lia.
Qed.

(** A grid that sits inside a solved grid is consistent and bounded. *)
Lemma solver_inv_of_solution (grid s : SudokuGrid) :
  wf_grid grid -> agrees grid s -> solved s -> solver_inv grid.
Proof.
  intros Hwf Hag (Hswf & Hsfull & Hscons & Hsb). split; [exact Hwf|]. split.
  - intros p Hr Hc (v & q & Hv & Hp & Hne & Hqr & Hqc & Hunit & Hq).
    apply (Hscons p Hr Hc). exists v, q. repeat split; try done.
    + destruct (Hag (row p) (col p)) as [H0|Heq]; [congruence | by rewrite <- Heq].
    + destruct (Hag (row q) (col q)) as [H0|Heq]; [congruence | by rewrite <- Heq].
  - intros p Hr Hc. destruct (wf_grid_cell grid _ _ Hwf Hr Hc) as [v Hv].
    exists v. split; [done|].
    destruct (Hag (row p) (col p)) as [H0|Heq]; [rewrite Hv in H0; injection H0 as ->; unfold EMPTY_CELL; lia|].
    destruct (Hsb p Hr Hc) as (v' & Hv' & Hle). congruence.
Qed.

(** Run from depth 0 on a grid that has a solved extension, [solveSudoku]
    answers [true] and leaves a solved grid. *)
Lemma solveSudoku_completes (grid s : SudokuGrid) (rs : Rand) :
  wf_grid grid -> agrees grid s -> solved s ->
  exists grid' rs', solveSudoku grid 0 rs = (true, grid', rs') /\ solved grid'.
Proof.
  intros Hwf Hag Hs.
  assert (Hlen : length (findEmptyCells grid) <= 81).
  { pose proof (clueCount_empties grid Hwf) as H. simpl in H. lia. }
  destruct (solveSudoku_fuel_complete s (S (length (findEmptyCells grid))) Hs grid 0 rs)
    as (g' & rs' & Hrun); [done | done | lia | lia |].
  pose proof (solveSudoku_unfold grid 0 rs) as Hun. rewrite Hrun in Hun.
  injection Hun as Hun. exists g', rs'. split; [done|].
  apply solveSudoku_fuel_sound in Hrun as [(Hwf' & Hc' & Hb') Hfull'].
  - split; [exact Hwf'|]. split; [exact Hfull'|]. split; [exact Hc' | exact Hb'].
  - by eapply solver_inv_of_solution.
Qed.

(** ** The solver only fills empty cells *)

Lemma agrees_trans (a b c : SudokuGrid) : agrees a b -> agrees b c -> agrees a c.
Proof.
  intros Hab Hbc r k. destruct (Hab r k) as [H|H]; [by left|].
  rewrite H. destruct (Hbc r k) as [H'|H']; [left; congruence | by right].
Qed.

Lemma agrees_fill (grid : SudokuGrid) r c v :
  cell grid r c = Some EMPTY_CELL -> agrees grid (set_cell grid r c v).
Proof.
  intros Hcell r' c'. destruct (decide ((r, c) = (r', c'))) as [[= <- <-]|Hne].
  - by left.
  - right. by rewrite cell_set_cell_ne.
Qed.

Lemma solve_candidates_extends rec r c numbers :
  forall grid rs grid' rs',
  (forall g s g' s', rec g s = Some (true, g', s') -> agrees g g') ->
  (forall g s res, rec g s = Some res -> solver_post g res) ->
  cell grid r c = Some EMPTY_CELL ->
  solve_candidates rec r c numbers grid rs = Some (true, grid', rs') ->
  agrees grid grid'.
Proof.
  induction numbers as [|num rest IH]; intros grid rs grid' rs' Hrec Hpost Hcell;
    simpl; [discriminate|].
  destruct (isSafe grid r c num); [|by apply IH].
  destruct (rec (set_cell grid r c num) rs) as [[[b g1] rs1]|] eqn:E; [|discriminate].
  destruct b.
  - intros [= <- <-]. apply Hrec in E.
    eapply agrees_trans; [|exact E]. by apply agrees_fill.
  - apply Hpost in E. unfold solver_post in E. simpl in E. rewrite E by done.
    rewrite set_cell_set_cell, set_cell_id by done. by apply IH.
Qed.

Lemma solveSudoku_fuel_extends fuel :
  forall grid depth rs grid' rs',
  solveSudoku_fuel fuel grid depth rs = Some (true, grid', rs') -> agrees grid grid'.
Proof.
  induction fuel as [|fuel IH]; intros grid depth rs grid' rs';
    cbn [solveSudoku_fuel]; [discriminate|].
  destruct (depth >? 1000)%Z; [discriminate|].
  destruct (firstEmpty grid) as [[r c]|] eqn:Hp.
  - destruct (shuffleArray (seq 1 9) rs) as [numbers rs1]. cbn [row col].
    apply firstEmpty_Some in Hp as [_ Hcell]. cbn [row col] in Hcell.
    apply solve_candidates_extends; try done.
    + intros g s g' s'. apply IH.
    + intros g s res. apply solveSudoku_fuel_restores.
  - intros [= <- <-]. apply agrees_refl.
Qed.

(** ** Complete boards, unit by unit *)

Lemma units_ok : Forall unit_ok units.
Proof. apply (bool_decide_unpack _). vm_compute. exact I. Qed.

Lemma units_cover_true : units_cover.
Proof. apply (bool_decide_unpack _). vm_compute. exact I. Qed.

Lemma same_unit_lookup (ps : list CellPosition) (p q : CellPosition) :
  unit_ok ps -> p ∈ ps -> q ∈ ps ->
  row p < SUDOKU_SIZE /\ col p < SUDOKU_SIZE /\ row q < SUDOKU_SIZE /\ col q < SUDOKU_SIZE
  /\ sameUnit p q.
Proof.
  intros (_ & _ & Hrange & Hsame) Hp Hq.
  rewrite Forall_forall in Hrange, Hsame.
  destruct (Hrange p Hp) as [? ?]. destruct (Hrange q Hq) as [? ?].
  specialize (Hsame p Hp). rewrite Forall_forall in Hsame.
  repeat split; try done. by apply Hsame.
Qed.

Lemma no_empty_cell (grid : SudokuGrid) (p : CellPosition) :
  findEmptyCells grid = [] -> row p < SUDOKU_SIZE -> col p < SUDOKU_SIZE ->
  cell grid (row p) (col p) <> Some EMPTY_CELL.
Proof.
  intros Hfull Hr Hc Hcell.
  assert (Hin : p ∈ findEmptyCells grid) by (by apply elem_of_findEmptyCells).
  rewrite Hfull in Hin. by apply elem_of_nil in Hin.
Qed.

(** On a complete board without conflicts every unit holds 1..9 once. *)
Lemma solved_unit (grid : SudokuGrid) (ps : list CellPosition) :
  bounded grid -> findEmptyCells grid = [] -> consistent grid ->
  unit_ok ps -> unitComplete grid ps.
Proof.
  intros Hb Hfull Hcons Hok. pose proof Hok as (Hlen & Hnd & _).
  unfold unitComplete, valuesAt.
  apply submseteq_length_Permutation.
  - apply NoDup_submseteq.
    + apply NoDup_fmap_2_strong; [|exact Hnd].
      intros p q Hp Hq Heq.
      destruct (same_unit_lookup ps p q Hok Hp Hq) as (Hpr & Hpc & Hqr & Hqc & Hunit).
      destruct (decide (q = p)) as [->|Hne]; [done|]. exfalso.
      destruct (Hb p Hpr Hpc) as (v & Hv & _).
      apply (Hcons p Hpr Hpc). exists v, q. repeat split; try done.
      * intros ->. by apply (no_empty_cell grid p).
      * by rewrite <- Heq.
    + intros x Hx. apply list_elem_of_fmap in Hx as (p & -> & Hp).
      destruct (same_unit_lookup ps p p Hok Hp Hp) as (Hpr & Hpc & _).
      destruct (Hb p Hpr Hpc) as (v & Hv & Hle). rewrite Hv.
      apply list_elem_of_fmap. exists v. split; [done|].
      apply list_elem_of_In, in_seq.
      assert (v <> 0); [|lia]. intros ->. by apply (no_empty_cell grid p).
  - rewrite !length_map, length_seq. lia.
Qed.

Lemma elem_of_rowCells (p : CellPosition) :
  row p < SUDOKU_SIZE -> col p < SUDOKU_SIZE -> rowCells (row p) ∈ units /\ p ∈ rowCells (row p).
Proof.
  intros Hr Hc. split.
  - unfold units. apply elem_of_app. left. apply list_elem_of_fmap.
    exists (row p). split; [done|]. apply list_elem_of_In, in_seq. lia.
  - unfold rowCells. apply list_elem_of_fmap. exists (col p). split; [by destruct p|].
    apply list_elem_of_In, in_seq. lia.
Qed.

Lemma unitComplete_value (grid : SudokuGrid) (ps : list CellPosition) (p : CellPosition) :
  unitComplete grid ps -> p ∈ ps ->
  exists v, cell grid (row p) (col p) = Some v /\ 1 <= v <= 9.
Proof.
  intros Hu Hp.
  assert (Hin : cell grid (row p) (col p) ∈ valuesAt grid ps).
  { unfold valuesAt. apply list_elem_of_fmap. by exists p. }
  rewrite Hu in Hin. apply list_elem_of_fmap in Hin as (v & Hv & Hin).
  exists v. split; [done|]. apply list_elem_of_In, in_seq in Hin. lia.
Qed.

Lemma unitComplete_inj (grid : SudokuGrid) (ps : list CellPosition) (p q : CellPosition) :
  unitComplete grid ps -> p ∈ ps -> q ∈ ps ->
  cell grid (row p) (col p) = cell grid (row q) (col q) -> p = q.
Proof.
  intros Hu Hp Hq Heq.
  assert (Hnd : NoDup (valuesAt grid ps)).
  { rewrite Hu. apply NoDup_fmap_2; [apply _|]. apply NoDup_ListNoDup, seq_NoDup. }
  apply list_elem_of_lookup in Hp as [i Hi]. apply list_elem_of_lookup in Hq as [j Hj].
  assert (i = j) as ->.
  { eapply NoDup_lookup; [exact Hnd| |];
      unfold valuesAt; rewrite list_lookup_fmap.
    - by rewrite Hi.
    - rewrite Hj. simpl. by rewrite Heq. }
  congruence.
Qed.

(** Conversely, a board whose units all hold 1..9 once is complete and
    has no conflict. *)
Lemma units_solved (grid : SudokuGrid) :
  Forall (unitComplete grid) units ->
  findEmptyCells grid = [] /\ consistent grid /\ bounded grid.
Proof.
  intros Hall. rewrite Forall_forall in Hall.
  assert (Hval : forall p, row p < SUDOKU_SIZE -> col p < SUDOKU_SIZE ->
                           exists v, cell grid (row p) (col p) = Some v /\ 1 <= v <= 9).
  { intros p Hr Hc. destruct (elem_of_rowCells p Hr Hc) as [Hu Hp].
    by apply (unitComplete_value grid (rowCells (row p))); [apply Hall|]. }
  split; [|split].
  - destruct (findEmptyCells grid) as [|p l] eqn:E; [done|]. exfalso.
    assert (Hp : p ∈ findEmptyCells grid) by (rewrite E; left).
    apply elem_of_findEmptyCells in Hp as (Hr & Hc & Hcell).
    destruct (Hval p Hr Hc) as (v & Hv & Hle). unfold EMPTY_CELL in Hcell.
    rewrite Hcell in Hv. injection Hv as <-. lia.
  - intros p Hr Hc (v & q & Hv & Hp & Hne & Hqr & Hqc & Hunit & Hq).
    pose proof units_cover_true as Hcov. unfold units_cover in Hcov.
    rewrite Forall_forall in Hcov.
    assert (Hpin : p ∈ allPositions) by (by apply elem_of_allPositions).
    assert (Hqin : q ∈ allPositions) by (by apply elem_of_allPositions).
    specialize (Hcov p Hpin). rewrite Forall_forall in Hcov.
    specialize (Hcov q Hqin Hunit). apply Exists_exists in Hcov as (ps & Hps & Hp' & Hq').
    apply Hne. symmetry. apply (unitComplete_inj grid ps); [by apply Hall|done..|congruence].
  - intros p Hr Hc. destruct (Hval p Hr Hc) as (v & Hv & Hle). exists v. split; [done|lia].
Qed.

(** ** Checking the hypotheses on a concrete grid *)

Lemma consistent_check (grid : SudokuGrid) :
  forallb (fun p => negb (isConflictb grid p)) allPositions = true -> consistent grid.
Proof.
  intros H p Hr Hc Hconf. rewrite forallb_forall in H.
  assert (Hin : In p allPositions) by (by apply list_elem_of_In, elem_of_allPositions).
  specialize (H p Hin). apply isConflictb_spec in Hconf; [|done..]. by rewrite Hconf in H.
Qed.

Lemma bounded_check (grid : SudokuGrid) :
  forallb (fun p => match cell grid (row p) (col p) with
                    | Some v => Nat.leb v 9
                    | None => false
                    end) allPositions = true -> bounded grid.
Proof.
  intros H p Hr Hc. rewrite forallb_forall in H.
  assert (Hin : In p allPositions) by (by apply list_elem_of_In, elem_of_allPositions).
  specialize (H p Hin). destruct (cell grid (row p) (col p)) as [v|]; [|done].
  exists v. split; [done|]. by apply Nat.leb_le.
Qed.

Lemma solver_inv_check (grid : SudokuGrid) :
  wf_gridb grid = true ->
  forallb (fun p => negb (isConflictb grid p)) allPositions = true ->
  forallb (fun p => match cell grid (row p) (col p) with
                    | Some v => Nat.leb v 9
                    | None => false
                    end) allPositions = true ->
  solver_inv grid.
Proof.
  intros H1 H2 H3. split; [by apply wf_gridb_spec|].
  split; [by apply consistent_check | by apply bounded_check].
Qed.

Lemma solved_grid_solved : solved solved_grid.
Proof.
  destruct (solver_inv_check solved_grid) as (H1 & H2 & H3); [by vm_compute..|].
  split; [done|]. split; [by vm_compute|]. done.
Qed.

Lemma one_gap_grid_inv : solver_inv one_gap_grid.
Proof. apply solver_inv_check; by vm_compute. Qed.

(** ** [shuffleArray] *)

Lemma randomIndex_rest (bound : nat) (rs : Rand) : snd (randomIndex bound rs) = drop 1 rs.
Proof. by destruct rs. Qed.

Lemma shuffle_loop_rest {A} (i : nat) (a : list A) (rs : Rand) :
  snd (shuffle_loop i a rs) = drop i rs.
Proof.
  revert a rs. induction i as [|i IH]; intros a rs; cbn [shuffle_loop]; [by rewrite drop_0|].
  pose proof (randomIndex_rest (S i + 1) rs) as Hr.
  destruct (randomIndex (S i + 1) rs) as [j rs']. cbn [snd] in Hr.
  by rewrite IH, Hr, drop_drop.
Qed.

Lemma shuffleArray_permutes_aux {A} (array : list A) (rs : Rand) :
  exists shuffled, shuffled ≡ₚ array
    /\ shuffleArray array rs = (shuffled, drop (length array - 1) rs).
Proof.
  exists (fst (shuffleArray array rs)). split; [apply shuffle_loop_Permutation|].
  rewrite <- (shuffle_loop_rest (length array - 1) array rs).
  unfold shuffleArray. by destruct (shuffle_loop _ _ _).
Qed.

(** X1: shuffleArray returns a rearrangement of its argument, whatever
    Math.random answers, and draws one number per element but the first. *)
Theorem shuffleArray_permutes {A} (array : list A) (rs : Rand) :
  fst (shuffleArray array rs) ≡ₚ array
  /\ snd (shuffleArray array rs) = drop (length array - 1) rs.
Proof.
  split; [apply shuffle_loop_Permutation | apply shuffle_loop_rest].
Qed.

(** ** [solveSudoku] *)

(** X2: when solveSudoku answers true on a 9x9 grid without conflicts and
    with values 0..9, the grid it leaves is complete, has no conflict,
    and keeps every cell that was filled. *)
Theorem solveSudoku_true_solves (grid : SudokuGrid) (depth : Z) (rs : Rand)
    (grid' : SudokuGrid) (rs' : Rand) :
  solver_inv grid ->
  solveSudoku grid depth rs = (true, grid', rs') ->
  solved grid' /\ agrees grid grid'.
Proof.
  intros Hinv. unfold solveSudoku.
  destruct (solveSudoku_fuel _ grid depth rs) as [[[b g] s]|] eqn:E; [|discriminate].
  intros [= -> -> ->]. split.
  - destruct (solveSudoku_fuel_sound _ _ _ _ _ _ Hinv E) as [(Hwf & Hc & Hb) Hfull].
    split; [exact Hwf|]. split; [exact Hfull|]. split; [exact Hc | exact Hb].
  - by eapply solveSudoku_fuel_extends.
Qed.

Lemma solveSudoku_true_solves_witness :
  solved solved_grid /\ agrees one_gap_grid solved_grid.
Proof.
  apply (solveSudoku_true_solves one_gap_grid 0 [] solved_grid []).
  - apply solver_inv_check; by vm_compute.
  - by vm_compute.
Defined.

(** X3: when the grid can be completed to a valid board, solveSudoku
    answers true, for every outcome of the shuffles, and leaves a complete
    valid board. *)
Theorem solveSudoku_finds_completion (grid s : SudokuGrid) (rs : Rand) :
  wf_grid grid -> agrees grid s -> solved s ->
  exists grid' rs', solveSudoku grid 0 rs = (true, grid', rs') /\ solved grid'.
Proof. apply solveSudoku_completes. Qed.

Lemma solveSudoku_finds_completion_witness :
  exists grid' rs', solveSudoku one_gap_grid 0 [5; 3] = (true, grid', rs') /\ solved grid'.
Proof.
  apply (solveSudoku_finds_completion one_gap_grid solved_grid [5; 3]).
  - apply wf_gridb_spec. by vm_compute.
  - apply (agrees_fill one_gap_grid 0 0 2). by vm_compute.
  - exact solved_grid_solved.
Defined.

(** ** [isSafe] *)

(** X4: on a 9x9 grid isSafe accepts the empty marker at once; any other
    number is accepted exactly when no cell of the row, the column or the
    box of the position holds it, the position itself included. *)
Theorem isSafe_true_iff (grid : SudokuGrid) (p : CellPosition) (num : nat) :
  wf_grid grid -> row p < SUDOKU_SIZE -> col p < SUDOKU_SIZE ->
  isSafe grid (row p) (col p) num = true <->
  num = EMPTY_CELL
  \/ forall q, row q < SUDOKU_SIZE -> col q < SUDOKU_SIZE -> sameUnit p q ->
               cell grid (row q) (col q) <> Some num.
Proof.
  intros _ Hr Hc. destruct (decide (num = EMPTY_CELL)) as [->|Hne].
  - split; [by left | by intros _].
  - pose proof (isSafe_false_iff grid p num Hne Hr Hc) as Hiff. split.
    + intros Hsafe. right. intros q Hqr Hqc Hu Hq.
      assert (isSafe grid (row p) (col p) num = false); [|congruence].
      apply Hiff. by exists q.
    + intros [->|Hall]; [done|].
      clear Hiff. destruct (isSafe grid (row p) (col p) num) eqn:E; [done|]. exfalso.
      apply (isSafe_false_iff grid p num Hne Hr Hc) in E as (q & Hqr & Hqc & Hu & Hq).
      by apply (Hall q).
Qed.

Lemma isSafe_true_iff_witness :
  wf_grid one_gap_grid
  /\ (isSafe one_gap_grid 0 0 2 = true <->
      2 = EMPTY_CELL
      \/ forall q, row q < SUDOKU_SIZE -> col q < SUDOKU_SIZE -> sameUnit (mkPos 0 0) q ->
                   cell one_gap_grid (row q) (col q) <> Some 2).
Proof.
  assert (Hwf : wf_grid one_gap_grid) by (apply wf_gridb_spec; reflexivity).
  split; [exact Hwf|].
  apply (isSafe_true_iff one_gap_grid (mkPos 0 0) 2 Hwf); unfold SUDOKU_SIZE; simpl; lia.
Defined.

(** ** [findEmptyCells] *)

(** X5: on a 9x9 grid findEmptyCells lists the positions of the board
    that hold the empty marker, each once, in row-major order. *)
Theorem findEmptyCells_spec (grid : SudokuGrid) :
  wf_grid grid ->
  (forall p, p ∈ findEmptyCells grid <->
             row p < SUDOKU_SIZE /\ col p < SUDOKU_SIZE
             /\ cell grid (row p) (col p) = Some EMPTY_CELL)
  /\ NoDup (findEmptyCells grid)
  /\ StronglySorted row_major_lt (findEmptyCells grid).
Proof.
  intros _. split; [apply elem_of_findEmptyCells|].
  split; [apply findEmptyCells_NoDup | apply findEmptyCells_sorted].
Qed.

Lemma findEmptyCells_spec_witness :
  wf_grid carved_grid
  /\ length (findEmptyCells carved_grid) = 50
  /\ (forall p, p ∈ findEmptyCells carved_grid <->
                row p < SUDOKU_SIZE /\ col p < SUDOKU_SIZE
                /\ cell carved_grid (row p) (col p) = Some EMPTY_CELL)
  /\ NoDup (findEmptyCells carved_grid)
  /\ StronglySorted row_major_lt (findEmptyCells carved_grid).
Proof.
  assert (Hwf : wf_grid carved_grid) by (apply wf_gridb_spec; reflexivity).
  split; [exact Hwf|]. split; [vm_compute; reflexivity|].
  exact (findEmptyCells_spec carved_grid Hwf).
Defined.

(** ** Counting solutions *)

Lemma count_candidates_cap rec cap r c nums :
  forall board count res,
  (forall b n res', rec b n = Some res' -> (snd res' <= Z.max n cap)%Z) ->
  count_candidates rec cap r c nums board count = Some res ->
  (snd res <= Z.max count cap)%Z.
Proof.
  induction nums as [|num rest IH]; intros board count res Hrec; simpl.
  - intros [= <-]. simpl. lia.
  - destruct (isSafe board r c num); [|by apply IH].
    destruct (rec (set_cell board r c num) count) as [[b' c']|] eqn:E; [|discriminate].
    apply Hrec in E. simpl in E. rewrite Z.geb_leb.
    destruct (Z.leb_spec cap c').
    + intros [= <-]. simpl. lia.
    + intros H'. apply IH in H'; [|done]. lia.
Qed.

Lemma solve_fuel_cap fuel cap :
  forall board count res,
  solve_fuel fuel cap board count = Some res -> (snd res <= Z.max count cap)%Z.
Proof.
  induction fuel as [|fuel IH]; intros board count res; cbn [solve_fuel]; [discriminate|].
  rewrite Z.geb_leb. destruct (Z.leb_spec cap count).
  - intros [= <-]. simpl. lia.
  - destruct (scanEmpty board) as [p|].
    + apply count_candidates_cap. intros b n res'. apply IH.
    + intros [= <-]. simpl. lia.
Qed.

Lemma completion_of_fill (board s : SudokuGrid) r c num :
  cell board r c = Some EMPTY_CELL ->
  completion (set_cell board r c num) s -> completion board s.
Proof.
  intros Hcell [Hs Hag]. split; [exact Hs|].
  eapply agrees_trans; [|exact Hag]. by apply agrees_fill.
Qed.

Lemma completion_value (board s : SudokuGrid) r c num :
  num <> EMPTY_CELL -> cell board r c = Some num -> completion board s ->
  cell s r c = Some num.
Proof.
  intros Hnum Hcell [_ Hag]. destruct (Hag r c) as [H|H]; [|congruence].
  rewrite Hcell in H. congruence.
Qed.

Lemma solver_inv_place (board : SudokuGrid) r c num :
  solver_inv board -> emptyCell board (mkPos r c) -> 1 <= num <= 9 ->
  isSafe board r c num = true -> solver_inv (set_cell board r c num).
Proof.
  intros (Hwf & Hcons & Hb) Hempty Hnum Hsafe.
  split; [by apply wf_grid_set_cell|]. split.
  - apply (consistent_place board (mkPos r c)); [done..|unfold EMPTY_CELL; lia|done].
  - apply bounded_place; [done|lia].
Qed.

Lemma count_candidates_sound rec cap r c nums :
  forall board count res,
  (forall b n res', solver_inv b -> rec b n = Some res' ->
     exists sols, NoDup sols /\ Forall (completion b) sols
                  /\ Z.of_nat (length sols) = (snd res' - n)%Z) ->
  (forall b n res', rec b n = Some res' -> counter_post b n res') ->
  solver_inv board -> emptyCell board (mkPos r c) ->
  Forall (fun num => 1 <= num <= 9) nums -> NoDup nums ->
  count_candidates rec cap r c nums board count = Some res ->
  exists sols, NoDup sols /\ Forall (completion board) sols
               /\ Forall (fun s => exists v, v ∈ nums /\ cell s r c = Some v) sols
               /\ Z.of_nat (length sols) = (snd res - count)%Z.
Proof.
  induction nums as [|num rest IH];
    intros board count res Hrec Hpost Hinv Hempty Hnums Hnd; simpl.
  - intros [= <-]. exists []. simpl. repeat split; try constructor. lia.
  - apply Forall_cons in Hnums as [Hnum Hrest]. apply NoDup_cons in Hnd as [Hnotin Hnd].
    pose proof Hempty as (Hr & Hc & Hcell). simpl in Hr, Hc, Hcell.
    assert (Hlift : forall sols : list SudokuGrid,
               Forall (fun s => exists v, v ∈ rest /\ cell s r c = Some v) sols ->
               Forall (fun s => exists v, v ∈ num :: rest /\ cell s r c = Some v) sols).
    { intros sols Hs'. eapply Forall_impl; [exact Hs'|]. intros s (v & Hv & Hs). exists v.
      split; [by apply elem_of_cons; right | done]. }
    destruct (isSafe board r c num) eqn:Hsafe.
    2: { intros H. destruct (IH _ _ _ Hrec Hpost Hinv Hempty Hrest Hnd H)
           as (sols & H1 & H2 & H3 & H4). exists sols. auto. }
    destruct (rec (set_cell board r c num) count) as [[b' c']|] eqn:E; [|discriminate].
    pose proof (Hpost _ _ _ E) as [Hb' Hc']. simpl in Hb', Hc'. subst b'.
    destruct (Hrec _ _ _ (solver_inv_place board r c num Hinv Hempty Hnum Hsafe) E)
      as (sols1 & Hnd1 & Hall1 & Hlen1). simpl in Hlen1.
    assert (Hboard1 : cell (set_cell board r c num) r c = Some num).
    { apply cell_set_cell_eq. eauto. }
    assert (Hval1 : Forall (fun s => cell s r c = Some num) sols1).
    { eapply Forall_impl; [exact Hall1|]. intros s Hs.
      apply (completion_value (set_cell board r c num)); [unfold EMPTY_CELL; lia|done..]. }
    assert (Hall1' : Forall (completion board) sols1).
    { eapply Forall_impl; [exact Hall1|]. intros s. by apply completion_of_fill. }
    rewrite set_cell_set_cell, set_cell_id by done.
    destruct (c' >=? cap)%Z.
    + intros [= <-]. exists sols1. split; [done|]. split; [done|]. split; [|simpl; lia].
      eapply Forall_impl; [exact Hval1|]. intros s Hs. exists num.
      split; [by apply elem_of_cons; left | done].
    + intros H. destruct (IH _ _ _ Hrec Hpost Hinv Hempty Hrest Hnd H)
        as (sols2 & Hnd2 & Hall2 & Hval2 & Hlen2).
      exists (sols1 ++ sols2). split; [|split; [|split]].
      * apply NoDup_app. split; [done|]. split; [|done].
        intros s Hs1 Hs2. rewrite Forall_forall in Hval1, Hval2.
        destruct (Hval2 s Hs2) as (v & Hv & Hsv). rewrite (Hval1 s Hs1) in Hsv.
        injection Hsv as <-. done.
      * by apply Forall_app.
      * apply Forall_app. split; [|by apply Hlift].
        eapply Forall_impl; [exact Hval1|]. intros s Hs. exists num.
        split; [by apply elem_of_cons; left | done].
      * rewrite length_app. lia.
Qed.

Lemma seq_1_9_range : Forall (fun num => 1 <= num <= 9) (seq 1 9).
Proof. apply Forall_forall. intros x Hx. apply list_elem_of_In, in_seq in Hx. lia. Qed.

Lemma solve_fuel_sound fuel cap :
  forall board count res,
  solver_inv board ->
  solve_fuel fuel cap board count = Some res ->
  exists sols, NoDup sols /\ Forall (completion board) sols
               /\ Z.of_nat (length sols) = (snd res - count)%Z.
Proof.
  induction fuel as [|fuel IH]; intros board count res Hinv; cbn [solve_fuel]; [discriminate|].
  destruct (count >=? cap)%Z.
  { intros [= <-]. exists []. simpl. repeat split; try constructor. lia. }
  rewrite scanEmpty_firstEmpty. destruct (firstEmpty board) as [[r c]|] eqn:Hp.
  - apply firstEmpty_Some in Hp as [Hin _]. apply elem_of_findEmptyCells in Hin.
    cbn [row col]. intros H.
    apply (count_candidates_sound (solve_fuel fuel cap) cap r c (seq 1 9)) in H
      as (sols & ? & ? & _ & ?).
    + by exists sols.
    + intros b n res' Hb. by apply IH.
    + intros b n res'. apply solve_fuel_post.
    + exact Hinv.
    + exact Hin.
    + apply seq_1_9_range.
    + apply NoDup_ListNoDup, seq_NoDup.
  - intros [= <-]. exists [board]. split; [apply NoDup_singleton|]. split; [|simpl; lia].
    apply Forall_singleton. destruct Hinv as (Hwf & Hc & Hb).
    split; [|apply agrees_refl].
    unfold firstEmpty in Hp. apply head_None in Hp. by repeat (split; [done|]).
Qed.

(** Two 9x9 grids with the same cells are the same grid. *)
Lemma grid_ext (g1 g2 : SudokuGrid) :
  wf_grid g1 -> wf_grid g2 ->
  (forall r c, r < SUDOKU_SIZE -> c < SUDOKU_SIZE -> cell g1 r c = cell g2 r c) ->
  g1 = g2.
Proof.
  intros [L1 F1] [L2 F2] Hcells. apply list_eq. intros r.
  destruct (decide (r < SUDOKU_SIZE)) as [Hr|Hr].
  - destruct (lookup_lt_is_Some_2 g1 r) as [l1 E1]; [lia|].
    destruct (lookup_lt_is_Some_2 g2 r) as [l2 E2]; [lia|].
    rewrite E1, E2. f_equal. apply list_eq. intros c.
    rewrite Forall_forall in F1, F2.
    pose proof (F1 l1 (list_elem_of_lookup_2 _ _ _ E1)) as Hl1.
    pose proof (F2 l2 (list_elem_of_lookup_2 _ _ _ E2)) as Hl2.
    destruct (decide (c < SUDOKU_SIZE)) as [Hc|Hc].
    + specialize (Hcells r c Hr Hc). unfold cell in Hcells. by rewrite E1, E2 in Hcells.
    + rewrite !lookup_ge_None_2 by lia. done.
  - rewrite !lookup_ge_None_2 by lia. done.
Qed.

Lemma completion_full (board s : SudokuGrid) :
  wf_grid board -> findEmptyCells board = [] -> completion board s -> s = board.
Proof.
  intros Hwf Hfull [(Hswf & _) Hag]. apply grid_ext; [done..|].
  intros r c Hr Hc. destruct (Hag r c) as [H|H]; [|done].
  by destruct (no_empty_cell board (mkPos r c) Hfull Hr Hc).
Qed.

Lemma NoDup_all_equal {A} (a : A) (l : list A) :
  NoDup l -> Forall (fun x => x = a) l -> length l <= 1.
Proof.
  intros Hnd Hall. destruct l as [|x [|y l]]; simpl; [lia..|]. exfalso.
  apply Forall_cons in Hall as [-> Hall]. apply Forall_cons in Hall as [-> _].
  apply NoDup_cons in Hnd as [Hnd _]. apply Hnd. by left.
Qed.

Lemma count_candidates_complete rec cap r c nums :
  forall board count res sols,
  (forall b n res' sols', wf_grid b -> NoDup sols' -> Forall (completion b) sols' ->
     rec b n = Some res' -> (Z.min cap (n + Z.of_nat (length sols')) <= snd res')%Z) ->
  (forall b n res', rec b n = Some res' -> counter_post b n res') ->
  wf_grid board -> emptyCell board (mkPos r c) ->
  NoDup sols -> Forall (completion board) sols ->
  Forall (fun s => exists v, v ∈ nums /\ cell s r c = Some v) sols ->
  count_candidates rec cap r c nums board count = Some res ->
  (Z.min cap (count + Z.of_nat (length sols)) <= snd res)%Z.
Proof.
  induction nums as [|num rest IH];
    intros board count res sols Hrec Hpost Hwf Hempty Hnd Hall Hval; simpl.
  - intros [= <-]. destruct sols as [|s sols]; [simpl; lia|]. exfalso.
    apply Forall_cons in Hval as [(v & Hv & _) _]. by apply elem_of_nil in Hv.
  - pose proof Hempty as (Hr & Hc & Hcell). simpl in Hr, Hc, Hcell.
    destruct (isSafe board r c num) eqn:Hsafe.
    2: { apply IH; try done. rewrite Forall_forall in Hall, Hval. apply Forall_forall.
         intros s Hs. destruct (Hval s Hs) as (v & Hv & Hsv). exists v. split; [|done].
         apply elem_of_cons in Hv as [->|Hv]; [|done]. exfalso.
         destruct (Hall s Hs) as [Hsolved Hag].
         destruct (solution_value_safe board s (mkPos r c) num Hag Hsolved Hempty Hsv)
           as [_ Hsafe']. simpl in Hsafe'. congruence. }
    destruct (rec (set_cell board r c num) count) as [[b' c']|] eqn:E; [|discriminate].
    pose proof (Hpost _ _ _ E) as [Hb' Hc']. simpl in Hb', Hc'. subst b'.
    set (sols1 := filter (fun s => cell s r c = Some num) sols).
    set (sols2 := filter (fun s => cell s r c <> Some num) sols).
    assert (Hlen : length sols = length sols1 + length sols2).
    { subst sols1 sols2. clear. induction sols as [|s sols IHs]; [done|].
      rewrite !filter_cons. repeat case_decide; simpl; try lia; done. }
    assert (H1 : (Z.min cap (count + Z.of_nat (length sols1)) <= c')%Z).
    { apply (Hrec _ _ _ sols1) in E; [exact E|by apply wf_grid_set_cell| |].
      - by apply NoDup_filter.
      - apply Forall_forall. intros s Hs. apply list_elem_of_filter in Hs as [Hsv Hs].
        rewrite Forall_forall in Hall. destruct (Hall s Hs) as [Hsolved Hag].
        split; [done|]. apply agrees_place; [done..|eauto]. }
    rewrite set_cell_set_cell, set_cell_id by done. rewrite Z.geb_leb.
    destruct (Z.leb_spec cap c').
    + intros [= <-]. simpl. lia.
    + intros H'. apply (IH _ _ _ sols2) in H'; try done.
      * lia.
      * by apply NoDup_filter.
      * apply Forall_forall. intros s Hs. apply list_elem_of_filter in Hs as [_ Hs].
        rewrite Forall_forall in Hall. by apply Hall.
      * apply Forall_forall. intros s Hs. apply list_elem_of_filter in Hs as [Hne Hs].
        rewrite Forall_forall in Hval. destruct (Hval s Hs) as (v & Hv & Hsv).
        exists v. split; [|done]. apply elem_of_cons in Hv as [->|Hv]; [done|done].
Qed.

Lemma solve_fuel_complete fuel cap :
  forall board count res sols,
  wf_grid board -> NoDup sols -> Forall (completion board) sols ->
  solve_fuel fuel cap board count = Some res ->
  (Z.min cap (count + Z.of_nat (length sols)) <= snd res)%Z.
Proof.
  induction fuel as [|fuel IH]; intros board count res sols Hwf Hnd Hall;
    cbn [solve_fuel]; [discriminate|].
  rewrite Z.geb_leb. destruct (Z.leb_spec cap count).
  { intros [= <-]. simpl. lia. }
  rewrite scanEmpty_firstEmpty. destruct (firstEmpty board) as [[r c]|] eqn:Hp.
  - apply firstEmpty_Some in Hp as [Hin _]. apply elem_of_findEmptyCells in Hin.
    cbn [row col]. intros H'.
    apply (count_candidates_complete (solve_fuel fuel cap) cap r c (seq 1 9) board count res sols);
      [| |exact Hwf|exact Hin|exact Hnd|exact Hall| |exact H'].
    + intros b n res' sols'. apply IH.
    + intros b n res'. apply solve_fuel_post.
    + apply Forall_forall. intros s Hs. rewrite Forall_forall in Hall.
      destruct (Hall s Hs) as [Hsolved Hag]. pose proof Hin as (Hr & Hc & _).
      simpl in Hr, Hc. pose proof Hsolved as (Hswf & _).
      destruct (wf_grid_cell s r c Hswf Hr Hc) as [v Hv]. exists v. split; [|done].
      destruct (solution_value_safe board s (mkPos r c) v Hag Hsolved Hin Hv) as [Hrange _].
      apply list_elem_of_In, in_seq. lia.
  - intros [= <-]. simpl. unfold firstEmpty in Hp. apply head_None in Hp.
    assert (length sols <= 1); [|lia]. apply (NoDup_all_equal board); [done|].
    eapply Forall_impl; [exact Hall|]. intros s. by apply completion_full.
Qed.

Lemma countSolutions_bounds (grid : SudokuGrid) (cap : Z) :
  (0 <= countSolutions grid cap <= Z.max 0 cap)%Z.
Proof.
  destruct (countSolutions_unfold grid cap) as [board E].
  pose proof (solve_fuel_post _ _ _ _ _ E) as [_ Hlo].
  pose proof (solve_fuel_cap _ _ _ _ _ E) as Hhi. simpl in Hlo, Hhi. lia.
Qed.

(** X6: countSolutions never answers more than maxSolutions, and answers 0
    when maxSolutions is 0 or negative. *)
Theorem countSolutions_capped (grid : SudokuGrid) (maxSolutions : Z) :
  (0 <= countSolutions grid maxSolutions <= Z.max 0 maxSolutions)%Z.
Proof. apply countSolutions_bounds. Qed.

Lemma countSolutions_sound (grid : SudokuGrid) (cap : Z) :
  solver_inv grid ->
  exists sols, NoDup sols /\ Forall (completion grid) sols
               /\ Z.of_nat (length sols) = countSolutions grid cap.
Proof.
  intros Hinv. destruct (countSolutions_unfold grid cap) as [board E].
  destruct (solve_fuel_sound _ _ _ _ _ Hinv E) as (sols & H1 & H2 & H3).
  exists sols. simpl in H3. split; [done|]. split; [done|]. lia.
Qed.

Lemma countSolutions_lower (grid : SudokuGrid) (cap : Z) (sols : list SudokuGrid) :
  wf_grid grid -> NoDup sols -> Forall (completion grid) sols ->
  (Z.min cap (Z.of_nat (length sols)) <= countSolutions grid cap)%Z.
Proof.
  intros Hwf Hnd Hall. destruct (countSolutions_unfold grid cap) as [board E].
  pose proof (solve_fuel_complete _ _ _ _ _ sols Hwf Hnd Hall E) as H. simpl in H. lia.
Qed.

(** X7: on a 9x9 grid without conflicts and with values 0..9,
    countSolutions returns the number of complete valid boards that keep
    the clues of the grid, cut off at maxSolutions: that many different
    completions exist, and no list of different completions is longer,
    unless the cut was reached. *)
Theorem countSolutions_counts (grid : SudokuGrid) (maxSolutions : Z) :
  solver_inv grid ->
  (exists sols, NoDup sols /\ Forall (completion grid) sols
                /\ Z.of_nat (length sols) = countSolutions grid maxSolutions)
  /\ (forall sols, NoDup sols -> Forall (completion grid) sols ->
        (Z.min maxSolutions (Z.of_nat (length sols))
         <= countSolutions grid maxSolutions)%Z).
Proof.
  intros Hinv. split; [by apply countSolutions_sound|].
  intros sols. apply countSolutions_lower. by destruct Hinv.
Qed.

Lemma countSolutions_counts_witness :
  (exists sols, NoDup sols /\ Forall (completion one_gap_grid) sols
                /\ Z.of_nat (length sols) = countSolutions one_gap_grid 2)
  /\ (forall sols, NoDup sols -> Forall (completion one_gap_grid) sols ->
        (Z.min 2 (Z.of_nat (length sols)) <= countSolutions one_gap_grid 2)%Z).
Proof.
  apply (countSolutions_counts one_gap_grid 2). apply solver_inv_check; by vm_compute.
Defined.

(** A grid on which the count up to 2 is 1 has one completion only. *)
Lemma count_one_unique (grid : SudokuGrid) :
  solver_inv grid -> countSolutions grid 2 = 1%Z ->
  exists s, completion grid s /\ forall s', completion grid s' -> s' = s.
Proof.
  intros Hinv Hone. destruct (countSolutions_sound grid 2 Hinv) as (sols & Hnd & Hall & Hlen).
  rewrite Hone in Hlen. destruct sols as [|s [|s2 sols]]; cbn [length] in Hlen; [lia| |lia].
  apply Forall_cons in Hall as [Hall _]. exists s. split; [done|]. intros s' Hs'.
  destruct (decide (s' = s)) as [|Hne]; [done|]. exfalso.
  assert (Hwf : wf_grid grid) by (by destruct Hinv).
  pose proof (countSolutions_lower grid 2 [s'; s] Hwf) as H. simpl in H.
  rewrite Hone in H. assert (2 <= 1)%Z; [|lia]. apply H.
  - apply NoDup_cons. split; [|apply NoDup_singleton]. by intros ->%list_elem_of_singleton.
  - apply Forall_cons. split; [done|]. apply Forall_cons. split; [done|constructor].
Qed.

Lemma unique_count_one (grid s : SudokuGrid) :
  solver_inv grid -> completion grid s -> (forall s', completion grid s' -> s' = s) ->
  countSolutions grid 2 = 1%Z.
Proof.
  intros Hinv Hs Huniq.
  assert (Hwf : wf_grid grid) by (by destruct Hinv).
  pose proof (countSolutions_lower grid 2 [s] Hwf (NoDup_singleton s)) as Hlo.
  simpl in Hlo. pose proof (countSolutions_bounds grid 2) as Hhi.
  destruct (countSolutions_sound grid 2 Hinv) as (sols & Hnd & Hall & Hlen).
  assert (Hle1 : length sols <= 1).
  { apply (NoDup_all_equal s); [done|]. eapply Forall_impl; [exact Hall|]. exact Huniq. }
  assert (1 <= countSolutions grid 2)%Z; [|lia]. apply Hlo.
  apply Forall_cons. split; [done|constructor].
Qed.

(** X8: on a 9x9 grid without conflicts and with values 0..9,
    hasUniqueSolution answers true exactly when the grid has at least 17
    clues and exactly one complete valid board keeps its clues. *)
Theorem hasUniqueSolution_iff (grid : SudokuGrid) :
  solver_inv grid ->
  hasUniqueSolution grid = true <->
  17 <= clueCount grid
  /\ exists s, completion grid s /\ forall s', completion grid s' -> s' = s.
Proof.
  intros Hinv. assert (Hwf : wf_grid grid) by (by destruct Hinv). split.
  - intros Hu. apply hasUniqueSolution_true in Hu as [Hone H17]; [|done].
    split; [done|]. by apply count_one_unique.
  - intros [H17 (s & Hs & Huniq)].
    pose proof (unique_count_one grid s Hinv Hs Huniq) as Hone.
    pose proof (clueCount_empties grid Hwf) as Hcount.
    unfold hasUniqueSolution, hasUniqueSolution_with. rewrite Hone.
    destruct (Z.ltb_spec (Z.of_nat (SUDOKU_SIZE * SUDOKU_SIZE)
                          - Z.of_nat (length (findEmptyCells grid))) 17); [lia|done].
Qed.

Lemma hasUniqueSolution_iff_witness :
  hasUniqueSolution one_gap_grid = true <->
  17 <= clueCount one_gap_grid
  /\ exists s, completion one_gap_grid s /\ forall s', completion one_gap_grid s' -> s' = s.
Proof. apply (hasUniqueSolution_iff one_gap_grid). apply solver_inv_check; by vm_compute. Defined.

(** ** What carving leaves *)

Lemma carved_one_completion (grid puzzle : SudokuGrid) :
  solved grid -> agrees puzzle grid ->
  wf_grid puzzle /\ (puzzle = grid \/ hasUniqueSolution puzzle = true) ->
  completion puzzle grid /\ forall s, completion puzzle s -> s = grid.
Proof.
  intros Hsolved Hag [Hwf Hcase]. split; [by split|]. intros s Hs.
  destruct Hcase as [->|Hu].
  - destruct Hsolved as (Hgwf & Hfull & _). by apply completion_full.
  - assert (Hinv : solver_inv puzzle) by (by apply (solver_inv_of_solution puzzle grid)).
    apply hasUniqueSolution_true in Hu as [Hone _]; [|done].
    destruct (count_one_unique puzzle Hinv Hone) as (s0 & _ & Huniq).
    rewrite (Huniq s Hs). symmetry. apply Huniq. by split.
Qed.

Lemma carving_one_completion (grid : SudokuGrid) (clues : Z) (rs : Rand) :
  solved grid ->
  (completion (fst (removeCells grid clues rs)) grid
   /\ forall s, completion (fst (removeCells grid clues rs)) s -> s = grid)
  /\ (completion (fst (removeSymmetricCells grid clues rs)) grid
      /\ forall s, completion (fst (removeSymmetricCells grid clues rs)) s -> s = grid).
Proof.
  intros Hsolved. pose proof Hsolved as (Hwf & _).
  set (I := fun p : SudokuGrid =>
              agrees p grid /\ wf_grid p /\ (p = grid \/ hasUniqueSolution p = true)).
  assert (H1 : forall p r c, I p -> hasUniqueSolution (set_cell p r c EMPTY_CELL) = true ->
                             I (set_cell p r c EMPTY_CELL)).
  { intros p r c (Hag & Hp & _) Hu.
    split; [by apply agrees_clear|]. split; [by apply wf_grid_set_cell | by right]. }
  assert (H2 : forall p r c r' c', I p ->
             hasUniqueSolution (set_cell (set_cell p r c EMPTY_CELL) r' c' EMPTY_CELL) = true ->
             I (set_cell (set_cell p r c EMPTY_CELL) r' c' EMPTY_CELL)).
  { intros p r c r' c' (Hag & Hp & _) Hu.
    split; [by do 2 apply agrees_clear|].
    split; [by do 2 apply wf_grid_set_cell | by right]. }
  assert (H0 : I grid) by (split; [apply agrees_refl|]; split; [exact Hwf | by left]).
  split.
  - destruct (removeCells_inv I H1 H2 grid clues rs H0) as (Hag & Hrest).
    by apply carved_one_completion.
  - destruct (removeSymmetricCells_inv I H2 grid clues rs H0) as (Hag & Hrest).
    by apply carved_one_completion.
Qed.

(** X9: the puzzle carved from a complete valid board by removeCells, and
    the one carved by removeSymmetricCells, has that board as its only
    completion. *)
Theorem carved_puzzle_one_solution (grid : SudokuGrid) (clues : Z) (rs : Rand) :
  solved grid ->
  (completion (fst (removeCells grid clues rs)) grid
   /\ forall s, completion (fst (removeCells grid clues rs)) s -> s = grid)
  /\ (completion (fst (removeSymmetricCells grid clues rs)) grid
      /\ forall s, completion (fst (removeSymmetricCells grid clues rs)) s -> s = grid).
Proof. apply carving_one_completion. Qed.

Lemma carved_puzzle_one_solution_witness :
  (completion (fst (removeCells solved_grid 70 [])) solved_grid
   /\ forall s, completion (fst (removeCells solved_grid 70 [])) s -> s = solved_grid)
  /\ (completion (fst (removeSymmetricCells solved_grid 70 [])) solved_grid
      /\ forall s, completion (fst (removeSymmetricCells solved_grid 70 [])) s
                   -> s = solved_grid).
Proof. apply (carved_puzzle_one_solution solved_grid 70 []). exact solved_grid_solved. Defined.

(** ** The seeded board *)

Lemma perm_seq_9 (n : list nat) :
  n ≡ₚ seq 1 9 ->
  exists a0 a1 a2 a3 a4 a5 a6 a7 a8, n = [a0; a1; a2; a3; a4; a5; a6; a7; a8].
Proof.
  intros H. apply Permutation_length in H. simpl in H.
  do 9 (destruct n as [|? n]; [discriminate|]). destruct n; [|discriminate].
  by repeat eexists.
Qed.

Lemma shuffle_nine (rs : Rand) :
  exists n, n ≡ₚ seq 1 9 /\ shuffleArray (seq 1 9) rs = (n, drop 8 rs).
Proof. apply (shuffleArray_permutes_aux (seq 1 9) rs). Qed.

Lemma fillBox_unfold (grid : SudokuGrid) (r0 c0 : nat) (rs : Rand) :
  exists numbers, numbers ≡ₚ seq 1 9
    /\ fillBox grid r0 c0 rs
       = (fst (fold_left (fun st r =>
                 fold_left (fun '(g, index) c =>
                     (set_cell g r c (numbers !!! index), index + 1)) (seq c0 3) st)
               (seq r0 3) (grid, 0)),
          drop 8 rs).
Proof.
  unfold fillBox. destruct (shuffle_nine rs) as (n & Hn & ->). exists n. split; [done|].
  by destruct (fold_left _ _ _).
Qed.

Lemma fillDiagonalBoxes_seeded (rs : Rand) :
  exists n1 n5 n9,
    fillDiagonalBoxes createEmptyBoard rs = (seeded n1 n5 n9, drop 24 rs)
    /\ n1 ≡ₚ seq 1 9 /\ n5 ≡ₚ seq 1 9 /\ n9 ≡ₚ seq 1 9.
Proof.
  unfold fillDiagonalBoxes. cbn [fold_left].
  destruct (fillBox_unfold createEmptyBoard 0 0 rs) as (n1 & H1 & ->).
  destruct (fillBox_unfold
              (fst (fold_left (fun st r =>
                 fold_left (fun '(g, index) c =>
                     (set_cell g r c (n1 !!! index), index + 1)) (seq 0 3) st)
               (seq 0 3) (createEmptyBoard, 0))) 3 3 (drop 8 rs)) as (n5 & H5 & ->).
  destruct (fillBox_unfold
              (fst (fold_left (fun st r =>
                 fold_left (fun '(g, index) c =>
                     (set_cell g r c (n5 !!! index), index + 1)) (seq 3 3) st)
               (seq 3 3)
               (fst (fold_left (fun st r =>
                 fold_left (fun '(g, index) c =>
                     (set_cell g r c (n1 !!! index), index + 1)) (seq 0 3) st)
               (seq 0 3) (createEmptyBoard, 0)), 0))) 6 6 (drop 8 (drop 8 rs)))
    as (n9 & H9 & ->).
  exists n1, n5, n9. split; [|done].
  destruct (perm_seq_9 n1 H1) as (a0 & a1 & a2 & a3 & a4 & a5 & a6 & a7 & a8 & ->).
  destruct (perm_seq_9 n5 H5) as (b0 & b1 & b2 & b3 & b4 & b5 & b6 & b7 & b8 & ->).
  destruct (perm_seq_9 n9 H9) as (c0 & c1 & c2 & c3 & c4 & c5 & c6 & c7 & c8 & ->).
  rewrite !drop_drop. reflexivity.
Qed.

Lemma cell_seeded (n1 n5 n9 : list nat) (r c : nat) :
  r < SUDOKU_SIZE -> c < SUDOKU_SIZE ->
  cell (seeded n1 n5 n9) r c
  = Some (if Nat.eqb (r / BOX_SIZE) (c / BOX_SIZE)
          then nth (BOX_SIZE * (r mod BOX_SIZE) + c mod BOX_SIZE)
                   (match r / BOX_SIZE with 0 => n1 | 1 => n5 | _ => n9 end) 0
          else EMPTY_CELL).
Proof.
  intros Hr Hc. unfold cell, seeded.
  rewrite list_lookup_fmap, lookup_seq_lt by done. cbn [fmap option_fmap option_map].
  by rewrite list_lookup_fmap, lookup_seq_lt.
Qed.

Lemma seeded_wf (n1 n5 n9 : list nat) : wf_grid (seeded n1 n5 n9).
Proof. apply wf_gridb_spec. reflexivity. Qed.

Lemma split_index (r r' : nat) :
  r / BOX_SIZE = r' / BOX_SIZE -> r mod BOX_SIZE = r' mod BOX_SIZE -> r = r'.
Proof.
  unfold BOX_SIZE. intros H1 H2.
  rewrite (Nat.div_mod_eq r 3), (Nat.div_mod_eq r' 3). lia.
Qed.

Lemma seeded_inv (n1 n5 n9 : list nat) :
  n1 ≡ₚ seq 1 9 -> n5 ≡ₚ seq 1 9 -> n9 ≡ₚ seq 1 9 -> solver_inv (seeded n1 n5 n9).
Proof.
  intros H1 H5 H9.
  assert (Hn : forall a, let n := match a with 0 => n1 | 1 => n5 | _ => n9 end in
                         n ≡ₚ seq 1 9).
  { intros [|[|a]]; simpl; done. }
  assert (Hidx : forall r c, BOX_SIZE * (r mod BOX_SIZE) + c mod BOX_SIZE < 9).
  { intros r c. unfold BOX_SIZE.
    pose proof (Nat.mod_upper_bound r 3). pose proof (Nat.mod_upper_bound c 3). lia. }
  split; [apply seeded_wf|]. split.
  - intros p Hr Hc (v & q & Hv & Hp & Hne & Hqr & Hqc & Hunit & Hq).
    rewrite cell_seeded in Hp, Hq by done.
    destruct (Nat.eqb_spec (row p / BOX_SIZE) (col p / BOX_SIZE)) as [Ep|Ep];
      [|unfold EMPTY_CELL in *; congruence].
    destruct (Nat.eqb_spec (row q / BOX_SIZE) (col q / BOX_SIZE)) as [Eq|Eq];
      [|unfold EMPTY_CELL in *; congruence].
    assert (Hb : row p / BOX_SIZE = row q / BOX_SIZE).
    { destruct Hunit as [E|[E|[E _]]]; [by rewrite E | congruence | done]. }
    rewrite <- Hb in Hq. specialize (Hn (row p / BOX_SIZE)). cbn zeta in Hn.
    set (n := match row p / BOX_SIZE with 0 => n1 | 1 => n5 | _ => n9 end) in *.
    assert (Hlen : length n = 9) by (by rewrite Hn).
    assert (Hnd : NoDup n) by (rewrite Hn; apply NoDup_ListNoDup, seq_NoDup).
    assert (Hi : BOX_SIZE * (row p mod BOX_SIZE) + col p mod BOX_SIZE
                 = BOX_SIZE * (row q mod BOX_SIZE) + col q mod BOX_SIZE).
    { apply NoDup_ListNoDup in Hnd. apply (proj1 (NoDup_nth n 0) Hnd);
        [rewrite Hlen; apply Hidx..|congruence]. }
    apply Hne. destruct p as [rp cp], q as [rq cq]. cbn [row col] in *.
    unfold BOX_SIZE in *.
    pose proof (Nat.mod_upper_bound cp 3). pose proof (Nat.mod_upper_bound cq 3).
    assert (rq = rp) by (apply split_index; unfold BOX_SIZE; lia).
    assert (cq = cp) by (apply split_index; unfold BOX_SIZE; [congruence|lia]).
    congruence.
  - intros p Hr Hc. rewrite cell_seeded by done. eexists. split; [done|].
    destruct (Nat.eqb (row p / BOX_SIZE) (col p / BOX_SIZE)); [|unfold EMPTY_CELL; lia].
    specialize (Hn (row p / BOX_SIZE)). cbn zeta in Hn.
    set (n := match row p / BOX_SIZE with 0 => n1 | 1 => n5 | _ => n9 end) in *.
    assert (Hin : In (nth (BOX_SIZE * (row p mod BOX_SIZE) + col p mod BOX_SIZE) n 0) n).
    { apply nth_In. rewrite Hn. apply Hidx. }
    apply list_elem_of_In in Hin.
    set (x := nth (BOX_SIZE * (row p mod BOX_SIZE) + col p mod BOX_SIZE) n 0) in *.
    clearbody x. rewrite Hn in Hin. apply list_elem_of_In, in_seq in Hin. lia.
Qed.

Lemma seeded_diagonal (n1 n5 n9 : list nat) :
  length n1 = 9 -> length n5 = 9 -> length n9 = 9 ->
  valuesAt (seeded n1 n5 n9) (boxCells 0) = map Some n1
  /\ valuesAt (seeded n1 n5 n9) (boxCells 4) = map Some n5
  /\ valuesAt (seeded n1 n5 n9) (boxCells 8) = map Some n9.
Proof.
  intros L1 L5 L9.
  do 9 (destruct n1 as [|? n1]; [discriminate|]). destruct n1; [|discriminate].
  do 9 (destruct n5 as [|? n5]; [discriminate|]). destruct n5; [|discriminate].
  do 9 (destruct n9 as [|? n9]; [discriminate|]). destruct n9; [|discriminate].
  by vm_compute.
Qed.


(** X10: on the empty board fillDiagonalBoxes draws 24 numbers and leaves
    a 9x9 grid without conflicts in which each of the three diagonal boxes
    holds 1..9 once and every other cell is empty. *)
Theorem fillDiagonalBoxes_seeds (rs : Rand) :
  solver_inv (fst (fillDiagonalBoxes createEmptyBoard rs))
  /\ Forall (unitComplete (fst (fillDiagonalBoxes createEmptyBoard rs)))
            [boxCells 0; boxCells 4; boxCells 8]
  /\ (forall r c, r < SUDOKU_SIZE -> c < SUDOKU_SIZE -> r / BOX_SIZE <> c / BOX_SIZE ->
        cell (fst (fillDiagonalBoxes createEmptyBoard rs)) r c = Some EMPTY_CELL)
  /\ snd (fillDiagonalBoxes createEmptyBoard rs) = drop 24 rs.
Proof.
  destruct (fillDiagonalBoxes_seeded rs) as (n1 & n5 & n9 & -> & H1 & H5 & H9). cbn [fst snd].
  split; [by apply seeded_inv|]. split; [|split; [|done]].
  - destruct (seeded_diagonal n1 n5 n9) as (E1 & E5 & E9);
      [by rewrite ?H1, ?H5, ?H9..|].
    unfold unitComplete. repeat constructor; rewrite ?E1, ?E5, ?E9; by apply fmap_Permutation.
  - intros r c Hr Hc Hne. rewrite cell_seeded by done.
    by destruct (Nat.eqb_spec (r / BOX_SIZE) (c / BOX_SIZE)).
Qed.

(** ** [generateCompleteSudoku] *)

Lemma solved_units (grid : SudokuGrid) : solved grid -> Forall (unitComplete grid) units.
Proof.
  intros (Hwf & Hfull & Hcons & Hb). apply Forall_forall. intros ps Hps.
  apply solved_unit; try done. pose proof units_ok as Hok. rewrite Forall_forall in Hok.
  by apply Hok.
Qed.


(** ** [generatePuzzle] *)

Lemma generate_once_one_completion (difficulty : string) (rs : Rand) puzzle solution rs' :
  generate_once difficulty rs = (inr (puzzle, solution), rs') -> solved solution ->
  completion puzzle solution /\ forall s, completion puzzle s -> s = solution.
Proof.
  destruct (lookup_config DIFFICULTY_CONFIGS difficulty) as [config|] eqn:Hcfg.
  - rewrite (generate_once_known _ _ _ Hcfg). intros [= <- <- _] Hsolved.
    exact (proj1 (carving_one_completion _ (clues config) _ Hsolved)).
  - by rewrite (generate_once_unknown _ _ Hcfg).
Qed.

Lemma generate_loop_one_completion todo :
  forall attempt maxRetries difficulty lastError log rs puzzle solution log' rs',
  generate_loop todo attempt maxRetries difficulty lastError log rs
  = (Returned puzzle solution, log', rs') ->
  solved solution ->
  completion puzzle solution /\ forall s, completion puzzle s -> s = solution.
Proof.
  induction todo as [|todo IH]; intros attempt maxRetries difficulty lastError log rs
    puzzle solution log' rs'; cbn [generate_loop]; [discriminate|].
  destruct (generate_once difficulty rs) as [[error|[p s]] rs1] eqn:E.
  - apply IH.
  - intros [= <- <- _ _]. by eapply generate_once_one_completion.
Qed.

(** X12: when generatePuzzle returns a pair whose solution is a complete
    valid board, that solution is the one and only completion of the
    puzzle. *)
Theorem generatePuzzle_unique_solution
    (difficulty : string) (maxRetries : nat) (rs : Rand)
    (puzzle solution : SudokuGrid) (log : list Warning) (rs' : Rand) :
  generatePuzzle difficulty maxRetries rs = (Returned puzzle solution, log, rs') ->
  solved solution ->
  completion puzzle solution /\ forall s, completion puzzle s -> s = solution.
Proof. unfold generatePuzzle. apply generate_loop_one_completion. Qed.

Lemma generatePuzzle_unique_solution_witness :
  completion carved_grid solved_grid
  /\ forall s, completion carved_grid s -> s = solved_grid.
Proof.
  apply (generatePuzzle_unique_solution "expert" 3 reverse_source carved_grid solved_grid [] []).
  - exact generatePuzzle_expert_run.
  - exact solved_grid_solved.
Defined.

(** ** [isSolvableWithoutGuessing] *)

Section propagation_invariant.
Variable I : SudokuGrid -> Prop.
Hypothesis I_fill : forall g r c v,
  I g -> emptyCell g (mkPos r c) -> getPossibleNumbers g r c = [v] -> I (set_cell g r c v).

Lemma propagate_cell_inv (r c : nat) (g g' : SudokuGrid) (b b' : bool) :
  r < SUDOKU_SIZE -> c < SUDOKU_SIZE ->
  I g -> propagate_cell r c (g, b) = Some (g', b') -> I g'.
Proof.
  intros Hr Hc HI. unfold propagate_cell.
  destruct (cell_is g r c EMPTY_CELL) eqn:He; [|by intros [= <- <-]].
  destruct (getPossibleNumbers g r c) as [|v [|w l]] eqn:Hp;
    [discriminate | | by intros [= <- <-]].
  intros [= <- <-]. apply I_fill; [done| |done].
  split; [done|]. split; [done|]. by apply cell_is_true in He.
Qed.

Lemma propagate_fold_inv (l : list CellPosition) :
  forall g b g' b',
  Forall (fun p => p ∈ allPositions) l -> I g ->
  fold_left (fun st p => match st with
                         | Some s => propagate_cell (row p) (col p) s
                         | None => None
                         end) l (Some (g, b)) = Some (g', b') ->
  I g'.
Proof.
  induction l as [|p l IH]; intros g b g' b' Hl HI; cbn [fold_left].
  - by intros [= <- <-].
  - apply Forall_cons in Hl as [Hp Hl]. apply elem_of_allPositions in Hp as [Hr Hc].
    destruct (propagate_cell (row p) (col p) (g, b)) as [[g1 b1]|] eqn:E.
    + apply IH; [exact Hl|]. exact (propagate_cell_inv _ _ _ _ _ _ Hr Hc HI E).
    + intros H. exfalso. clear -H. induction l as [|q l IHl]; [discriminate | by apply IHl].
Qed.

Lemma propagate_pass_inv (g g' : SudokuGrid) (b' : bool) :
  I g -> propagate_pass g = Some (g', b') -> I g'.
Proof.
  intros HI. unfold propagate_pass.
  rewrite (nested_fold (fun r c (st : option (SudokuGrid * bool)) =>
                          match st with
                          | Some s => propagate_cell r c s
                          | None => None
                          end)).
  apply propagate_fold_inv; [|done]. apply Forall_forall. auto.
Qed.

Lemma propagate_fuel_inv (fuel : nat) :
  forall g, I g -> propagate_fuel fuel g = Some true ->
  exists g', I g' /\ findEmptyCells g' = [].
Proof.
  induction fuel as [|fuel IH]; intros g HI; cbn [propagate_fuel]; [discriminate|].
  destruct (propagate_pass g) as [[g' b']|] eqn:E; [|discriminate].
  apply propagate_pass_inv in E; [|done]. destruct b'; [by apply IH|].
  intros [= H]. exists g'. split; [done|]. apply Nat.eqb_eq in H.
  by destruct (findEmptyCells g').
Qed.
End propagation_invariant.

Lemma possible_number (g : SudokuGrid) r c v :
  v ∈ getPossibleNumbers g r c <-> 1 <= v <= 9 /\ isSafe g r c v = true.
Proof.
  unfold getPossibleNumbers. rewrite list_elem_of_filter, list_elem_of_In, in_seq.
  intuition lia.
Qed.

Lemma forced_fill (grid g : SudokuGrid) r c v :
  (solver_inv g /\ agrees grid g /\ forall s, completion grid s -> agrees g s) ->
  emptyCell g (mkPos r c) -> getPossibleNumbers g r c = [v] ->
  solver_inv (set_cell g r c v) /\ agrees grid (set_cell g r c v)
  /\ forall s, completion grid s -> agrees (set_cell g r c v) s.
Proof.
  intros (Hg & Hag & Hall) Hempty Hp.
  assert (Hv : v ∈ getPossibleNumbers g r c) by (rewrite Hp; by left).
  apply possible_number in Hv as [Hrange Hsafe].
  pose proof Hempty as (Hr & Hc & Hcell). simpl in Hr, Hc, Hcell.
  split; [by apply solver_inv_place|]. split.
  - eapply agrees_trans; [exact Hag|]. by apply agrees_fill.
  - intros s Hs. pose proof (Hall s Hs) as Hgs. destruct Hs as [Hsolved _].
    pose proof Hsolved as (Hswf & _).
    destruct (wf_grid_cell s r c Hswf Hr Hc) as [w Hw].
    destruct (solution_value_safe g s (mkPos r c) w Hgs Hsolved Hempty Hw) as [Hwr Hws].
    assert (Hin : w ∈ getPossibleNumbers g r c) by (by apply possible_number).
    rewrite Hp in Hin. apply list_elem_of_singleton in Hin as ->.
    apply agrees_place; [done..|eauto].
Qed.

Lemma solvable_one_completion (grid : SudokuGrid) :
  solver_inv grid -> isSolvableWithoutGuessing grid = true ->
  exists s, completion grid s /\ forall s', completion grid s' -> s' = s.
Proof.
  intros Hinv Hsolv. unfold isSolvableWithoutGuessing in Hsolv.
  rewrite deepCopyGrid_id in Hsolv.
  destruct (propagate_fuel _ grid) as [b|] eqn:E; [|discriminate]. subst b.
  destruct (propagate_fuel_inv
              (fun g => solver_inv g /\ agrees grid g
                        /\ forall s, completion grid s -> agrees g s)
              (forced_fill grid) (S (length (findEmptyCells grid))) grid)
    as (g' & (Hinv' & Hag & Hall) & Hfull).
  - split; [done|]. split; [apply agrees_refl|]. by intros s [_ Hs].
  - exact E.
  - destruct Hinv' as (Hwf & Hc & Hb). exists g'. split.
    + split; [|done]. split; [done|]. split; [done|]. by split.
    + intros s Hs. apply (completion_full g'); [done..|].
      split; [by destruct Hs | by apply Hall].
Qed.

(** X13: when isSolvableWithoutGuessing answers true on a 9x9 grid without
    conflicts and with values 0..9, the grid has exactly one completion:
    every cell it filled was forced. *)
Theorem isSolvableWithoutGuessing_unique (grid : SudokuGrid) :
  solver_inv grid -> isSolvableWithoutGuessing grid = true ->
  exists s, completion grid s /\ forall s', completion grid s' -> s' = s.
Proof. apply solvable_one_completion. Qed.

Lemma isSolvableWithoutGuessing_unique_witness :
  exists s, completion one_gap_grid s /\ forall s', completion one_gap_grid s' -> s' = s.
Proof.
  apply (isSolvableWithoutGuessing_unique one_gap_grid).
  - apply solver_inv_check; by vm_compute.
  - by vm_compute.
Defined.

(** ** [removeSymmetricCells] *)

Lemma symmetricPositions_spec (p : CellPosition) :
  p ∈ symmetricPositions ->
  row p < SUDOKU_SIZE /\ col p < SUDOKU_SIZE /\ (row p, col p) <> (4, 4).
Proof.
  revert p. apply Forall_forall. apply (bool_decide_unpack _). vm_compute. exact I.
Qed.

Lemma cell_clear_pair (puzzle : SudokuGrid) r c r' c' x y :
  wf_grid puzzle -> r < SUDOKU_SIZE -> c < SUDOKU_SIZE ->
  r' < SUDOKU_SIZE -> c' < SUDOKU_SIZE ->
  cell (set_cell (set_cell puzzle r c EMPTY_CELL) r' c' EMPTY_CELL) x y
  = if decide ((x, y) = (r, c) \/ (x, y) = (r', c')) then Some EMPTY_CELL
    else cell puzzle x y.
Proof.
  intros Hwf Hr Hc Hr' Hc'.
  assert (Hwf1 : wf_grid (set_cell puzzle r c EMPTY_CELL)) by (by apply wf_grid_set_cell).
  destruct (decide ((r', c') = (x, y))) as [[= <- <-]|Hne'].
  - rewrite cell_set_cell_eq by (by apply wf_grid_cell). case_decide; [done|]. tauto.
  - rewrite cell_set_cell_ne by done.
    destruct (decide ((r, c) = (x, y))) as [[= <- <-]|Hne].
    + rewrite cell_set_cell_eq by (by apply wf_grid_cell). case_decide; [done|]. tauto.
    + rewrite cell_set_cell_ne by done. case_decide as H; [|done].
      destruct H as [H|H]; congruence.
Qed.

Lemma removeSymmetric_loop_symmetric toRemove positions :
  forall puzzle removed,
  Forall (fun p => p ∈ symmetricPositions) positions ->
  wf_grid puzzle -> half_turn_symmetric puzzle ->
  wf_grid (fst (removeSymmetric_loop toRemove positions puzzle removed))
  /\ half_turn_symmetric (fst (removeSymmetric_loop toRemove positions puzzle removed))
  /\ cell (fst (removeSymmetric_loop toRemove positions puzzle removed)) 4 4 = cell puzzle 4 4.
Proof.
  induction positions as [|pos rest IH]; intros puzzle removed Hpos Hwf Hsym;
    cbn [removeSymmetric_loop]; [done|].
  apply Forall_cons in Hpos as [Hp Hrest].
  destruct (removed >=? toRemove)%Z; [done|].
  destruct (cell_filled puzzle (row pos) (col pos)
            && cell_filled puzzle (SUDOKU_SIZE - 1 - row pos) (SUDOKU_SIZE - 1 - col pos));
    [|by apply IH].
  destruct (hasUniqueSolution _) eqn:Hu; [|rewrite restore_pair; by apply IH].
  apply symmetricPositions_spec in Hp as (Hr & Hc & Hcentre).
  assert (Hr' : SUDOKU_SIZE - 1 - row pos < SUDOKU_SIZE) by (unfold SUDOKU_SIZE in *; lia).
  assert (Hc' : SUDOKU_SIZE - 1 - col pos < SUDOKU_SIZE) by (unfold SUDOKU_SIZE in *; lia).
  set (p1 := set_cell (set_cell puzzle (row pos) (col pos) EMPTY_CELL)
                      (SUDOKU_SIZE - 1 - row pos) (SUDOKU_SIZE - 1 - col pos) EMPTY_CELL).
  destruct (IH p1 (removed + 2)%Z Hrest) as (H1 & H2 & H3).
  - by do 2 apply wf_grid_set_cell.
  - intros x y Hx Hy. unfold p1. rewrite !cell_clear_pair by done.
    assert (Hx' : SUDOKU_SIZE - 1 - x < SUDOKU_SIZE) by (unfold SUDOKU_SIZE in *; lia).
    assert (Hy' : SUDOKU_SIZE - 1 - y < SUDOKU_SIZE) by (unfold SUDOKU_SIZE in *; lia).
    specialize (Hsym x y Hx Hy). unfold SUDOKU_SIZE in *.
    repeat case_decide; try done.
    + exfalso. match goal with H : ~ _ |- _ => apply H end.
      match goal with H : _ \/ _ |- _ => destruct H as [[= -> ->]|[= -> ->]] end;
        [right | left]; f_equal; lia.
    + exfalso. match goal with H : ~ _ |- _ => apply H end.
      match goal with H : _ \/ _ |- _ => destruct H as [[= E1 E2]|[= E1 E2]] end;
        [right | left]; f_equal; lia.
  - split; [done|]. split; [done|]. rewrite H3. unfold p1.
    rewrite cell_clear_pair by done. case_decide as H; [|done]. exfalso.
    unfold SUDOKU_SIZE in *.
    destruct H as [[= E1 E2]|[= E1 E2]]; apply Hcentre; f_equal; lia.
Qed.

(** X14: removeSymmetricCells never touches the centre cell, and applied
    to a 9x9 grid whose empty cells are symmetric under the half-turn of
    the board (a complete grid, for one) it returns a grid with the same
    symmetry. *)
Theorem removeSymmetricCells_symmetric (grid : SudokuGrid) (clues : Z) (rs : Rand) :
  wf_grid grid -> half_turn_symmetric grid ->
  half_turn_symmetric (fst (removeSymmetricCells grid clues rs))
  /\ cell (fst (removeSymmetricCells grid clues rs)) 4 4 = cell grid 4 4.
Proof.
  intros Hwf Hsym. unfold removeSymmetricCells. rewrite deepCopyGrid_id.
  pose proof (shuffleArray_Permutation symmetricPositions rs) as Hperm.
  destruct (shuffleArray symmetricPositions rs) as [positions rs']. cbn [fst] in *.
  apply removeSymmetric_loop_symmetric; [|done..].
  apply Forall_forall. intros p Hp. by rewrite <- Hperm.
Qed.

Lemma removeSymmetricCells_symmetric_witness :
  half_turn_symmetric (fst (removeSymmetricCells solved_grid 70 []))
  /\ cell (fst (removeSymmetricCells solved_grid 70 [])) 4 4 = cell solved_grid 4 4.
Proof.
  apply (removeSymmetricCells_symmetric solved_grid 70 []).
  - apply wf_gridb_spec. by vm_compute.
  - intros r c Hr Hc.
    pose proof (no_empty_cell solved_grid (mkPos r c) eq_refl Hr Hc) as H1.
    assert (Hr' : SUDOKU_SIZE - 1 - r < SUDOKU_SIZE) by (unfold SUDOKU_SIZE in *; lia).
    assert (Hc' : SUDOKU_SIZE - 1 - c < SUDOKU_SIZE) by (unfold SUDOKU_SIZE in *; lia).
    pose proof (no_empty_cell solved_grid (mkPos _ _) eq_refl Hr' Hc') as H2.
    simpl in H1, H2. tauto.
Defined.

(** ** [isPuzzleComplete] *)

Lemma scan_empty_false (grid : SudokuGrid) :
  existsb (fun r => existsb (fun c => cell_is grid r c EMPTY_CELL) (seq 0 SUDOKU_SIZE))
          (seq 0 SUDOKU_SIZE) = false
  <-> findEmptyCells grid = [].
Proof.
  split.
  - intros H. destruct (findEmptyCells grid) as [|p l] eqn:E; [done|]. exfalso.
    assert (Hp : p ∈ findEmptyCells grid) by (rewrite E; left).
    apply elem_of_findEmptyCells in Hp as (Hr & Hc & Hcell).
    assert (existsb (fun r => existsb (fun c => cell_is grid r c EMPTY_CELL)
                                      (seq 0 SUDOKU_SIZE)) (seq 0 SUDOKU_SIZE) = true);
      [|congruence].
    apply existsb_exists. exists (row p). split; [apply in_seq; lia|].
    apply existsb_exists. exists (col p). split; [apply in_seq; lia|].
    by apply cell_is_true.
  - intros Hfull. apply not_true_is_false. intros H.
    apply existsb_exists in H as (r & Hr & H). apply existsb_exists in H as (c & Hc & H).
    apply in_seq in Hr, Hc. apply cell_is_true in H.
    apply (no_empty_cell grid (mkPos r c) Hfull); simpl; [lia..|done].
Qed.

Lemma validateBoard_valid (grid : SudokuGrid) :
  isValid (fst (validateBoard grid)) = true <-> consistent grid.
Proof.
  unfold validateBoard. rewrite validateBoard_loop_spec. cbn [fst isValid]. split.
  - intros H. apply consistent_check. exact H.
  - intros Hcons. apply forallb_forall. intros p Hp.
    apply list_elem_of_In, elem_of_allPositions in Hp as [Hr Hc].
    destruct (isConflictb grid p) eqn:E; [|done]. exfalso.
    apply (Hcons p Hr Hc). by apply isConflictb_spec.
Qed.

Lemma isPuzzleComplete_true (grid : SudokuGrid) :
  fst (isPuzzleComplete grid) = true <-> findEmptyCells grid = [] /\ consistent grid.
Proof.
  unfold isPuzzleComplete.
  destruct (existsb _ (seq 0 SUDOKU_SIZE)) eqn:E.
  - cbn [fst]. split; [done|]. intros [Hfull _]. apply scan_empty_false in Hfull. congruence.
  - apply scan_empty_false in E. rewrite <- validateBoard_valid.
    destruct (validateBoard grid) as [result grid']. cbn [fst]. tauto.
Qed.

(** X15: on a 9x9 grid isPuzzleComplete leaves the grid as it was; it
    answers true exactly when no cell of the board is empty and no filled
    cell repeats a value of its row, column or box, which for values 0..9
    means that every row, column and box holds 1..9 once. *)
Theorem isPuzzleComplete_spec (grid : SudokuGrid) :
  wf_grid grid ->
  snd (isPuzzleComplete grid) = grid
  /\ (fst (isPuzzleComplete grid) = true <-> findEmptyCells grid = [] /\ consistent grid)
  /\ (bounded grid ->
      (fst (isPuzzleComplete grid) = true <-> Forall (unitComplete grid) units)).
Proof.
  intros Hwf. split; [|split; [apply isPuzzleComplete_true|]].
  - unfold isPuzzleComplete. destruct (existsb _ (seq 0 SUDOKU_SIZE)); [done|].
    unfold validateBoard. rewrite validateBoard_loop_spec. done.
  - intros Hb. rewrite isPuzzleComplete_true. split.
    + intros [Hfull Hcons]. apply solved_units. split; [done|]. split; [done|]. by split.
    + intros H. apply units_solved in H as (? & ? & _). by split.
Qed.

Lemma isPuzzleComplete_spec_witness :
  wf_grid solved_grid
  /\ isPuzzleComplete solved_grid = (true, solved_grid)
  /\ isPuzzleComplete doubled_five_grid = (false, doubled_five_grid)
  /\ snd (isPuzzleComplete solved_grid) = solved_grid
  /\ (fst (isPuzzleComplete solved_grid) = true
      <-> findEmptyCells solved_grid = [] /\ consistent solved_grid)
  /\ (bounded solved_grid ->
      (fst (isPuzzleComplete solved_grid) = true <-> Forall (unitComplete solved_grid) units)).
Proof.
  assert (Hwf : wf_grid solved_grid) by (apply wf_gridb_spec; reflexivity).
  split; [exact Hwf|]. split; [vm_compute; reflexivity|]. split; [vm_compute; reflexivity|].
  exact (isPuzzleComplete_spec solved_grid Hwf).
Defined.

(** ** [areGridsEqual] *)

(** X16: on 9x9 grids areGridsEqual answers true exactly when the two
    grids are the same; so it accepts a grid and its deepCopyGrid. *)
Theorem areGridsEqual_iff (grid1 grid2 : SudokuGrid) :
  wf_grid grid1 -> wf_grid grid2 ->
  (areGridsEqual grid1 grid2 = true <-> grid1 = grid2)
  /\ areGridsEqual grid1 (deepCopyGrid grid1) = true.
Proof.
  intros Hwf1 Hwf2.
  assert (Hrefl : forall g, areGridsEqual g g = true).
  { intros g. unfold areGridsEqual. apply forallb_forall. intros r _.
    apply forallb_forall. intros c _. by apply bool_decide_eq_true. }
  split; [|by rewrite deepCopyGrid_id]. split; [|by intros <-].
  intros H. apply grid_ext; [done..|]. intros r c Hr Hc.
  unfold areGridsEqual in H. rewrite forallb_forall in H.
  specialize (H r). rewrite forallb_forall in H.
  eapply bool_decide_eq_true, H; apply in_seq; lia.
Qed.

Lemma areGridsEqual_iff_witness :
  (areGridsEqual solved_grid one_gap_grid = true <-> solved_grid = one_gap_grid)
  /\ areGridsEqual solved_grid (deepCopyGrid solved_grid) = true.
Proof.
  apply (areGridsEqual_iff solved_grid one_gap_grid); apply wf_gridb_spec; by vm_compute.
Defined.

(** ** [getBoxIndex] and [getRelatedCells] *)

Lemma box_index_all : Forall box_index_ok allPositions.
Proof. apply (bool_decide_unpack _). vm_compute. exact I. Qed.

Lemma related_all : Forall related_ok allPositions.
Proof. apply (bool_decide_unpack _). vm_compute. exact I. Qed.

(** X17: on the board getBoxIndex numbers the nine boxes 0..8: the cell
    lies in the box of that index, and two cells get the same index
    exactly when they lie in the same box. *)
Theorem getBoxIndex_spec (p q : CellPosition) :
  row p < SUDOKU_SIZE -> col p < SUDOKU_SIZE ->
  row q < SUDOKU_SIZE -> col q < SUDOKU_SIZE ->
  getBoxIndex (row p) (col p) < SUDOKU_SIZE
  /\ p ∈ boxCells (getBoxIndex (row p) (col p))
  /\ (getBoxIndex (row p) (col p) = getBoxIndex (row q) (col q)
      <-> row p / BOX_SIZE = row q / BOX_SIZE /\ col p / BOX_SIZE = col q / BOX_SIZE).
Proof.
  intros Hpr Hpc Hqr Hqc. pose proof box_index_all as H. rewrite Forall_forall in H.
  destruct (H p) as (H1 & H2 & H3); [by apply elem_of_allPositions|].
  split; [done|]. split; [done|]. rewrite Forall_forall in H3.
  apply H3. by apply elem_of_allPositions.
Qed.

Lemma getBoxIndex_spec_witness :
  getBoxIndex 4 7 < SUDOKU_SIZE
  /\ mkPos 4 7 ∈ boxCells (getBoxIndex 4 7)
  /\ (getBoxIndex 4 7 = getBoxIndex 5 8
      <-> 4 / BOX_SIZE = 5 / BOX_SIZE /\ 7 / BOX_SIZE = 8 / BOX_SIZE).
Proof.
  apply (getBoxIndex_spec (mkPos 4 7) (mkPos 5 8)); unfold SUDOKU_SIZE; simpl; lia.
Defined.

(** X18: for a position of the board getRelatedCells returns twenty
    positions without repetition: the other cells of its row, of its
    column and of its box, and nothing else. *)
Theorem getRelatedCells_spec (p : CellPosition) :
  row p < SUDOKU_SIZE -> col p < SUDOKU_SIZE ->
  length (getRelatedCells p) = 20
  /\ NoDup (getRelatedCells p)
  /\ forall q, q ∈ getRelatedCells p
               <-> q <> p /\ row q < SUDOKU_SIZE /\ col q < SUDOKU_SIZE /\ sameUnit p q.
Proof.
  intros Hr Hc. pose proof related_all as H. rewrite Forall_forall in H.
  destruct (H p) as (H1 & H2 & H3 & H4); [by apply elem_of_allPositions|].
  split; [done|]. split; [done|]. intros q.
  rewrite Forall_forall in H3, H4. split.
  - intros Hq. pose proof (H4 q Hq) as Hin. apply (H3 q Hin) in Hq as [? ?].
    apply elem_of_allPositions in Hin as [? ?]. done.
  - intros (Hne & Hqr & Hqc & Hu). apply H3; [by apply elem_of_allPositions | done].
Qed.

Lemma getRelatedCells_spec_witness :
  length (getRelatedCells (mkPos 4 7)) = 20
  /\ NoDup (getRelatedCells (mkPos 4 7))
  /\ forall q, q ∈ getRelatedCells (mkPos 4 7)
               <-> q <> mkPos 4 7 /\ row q < SUDOKU_SIZE /\ col q < SUDOKU_SIZE
                   /\ sameUnit (mkPos 4 7) q.
Proof. apply (getRelatedCells_spec (mkPos 4 7)); unfold SUDOKU_SIZE; simpl; lia. Defined.

(** ** [gameHelpers] *)

(** X19: arePositionsEqual answers true exactly when both arguments are
    null or both are positions with the same row and the same column. *)
Theorem arePositionsEqual_iff (pos1 pos2 : option CellPosition) :
  arePositionsEqual pos1 pos2 = true <-> pos1 = pos2.
Proof.
  destruct pos1 as [[r1 c1]|], pos2 as [[r2 c2]|]; simpl; try done.
  rewrite andb_true_iff, !Nat.eqb_eq. split; [intros [-> ->]; done | by intros [= -> ->]].
Qed.

(** X20: getNextPosition moves one cell in the direction of the key and
    stops at the border: from a position of the board it never leaves the
    board, it keeps one coordinate and changes the other by at most 1, and
    it returns the position unchanged exactly at the border it faces. *)
Theorem getNextPosition_on_board (current : CellPosition) (direction : Direction) :
  row current < SUDOKU_SIZE -> col current < SUDOKU_SIZE ->
  row (getNextPosition current direction) < SUDOKU_SIZE
  /\ col (getNextPosition current direction) < SUDOKU_SIZE
  /\ (row (getNextPosition current direction) = row current
      \/ col (getNextPosition current direction) = col current)
  /\ row (getNextPosition current direction) <= row current + 1
  /\ row current <= row (getNextPosition current direction) + 1
  /\ col (getNextPosition current direction) <= col current + 1
  /\ col current <= col (getNextPosition current direction) + 1
  /\ (getNextPosition current direction = current
      <-> match direction with
          | DirUp => row current = 0
          | DirDown => row current = 8
          | DirLeft => col current = 0
          | DirRight => col current = 8
          end).
Proof.
  unfold SUDOKU_SIZE, getNextPosition. destruct current as [r c]. cbn [row col].
  intros Hr Hc.
  destruct direction; cbn [row col];
    (do 7 (split; [lia|]);
     split;
     [intros H; pose proof (f_equal row H) as H1; pose proof (f_equal col H) as H2;
      cbn [row col] in H1, H2; lia
     | intros H; f_equal; lia]).
Qed.

Lemma getNextPosition_on_board_witness :
  row (getNextPosition (mkPos 0 8) DirUp) < SUDOKU_SIZE
  /\ col (getNextPosition (mkPos 0 8) DirUp) < SUDOKU_SIZE
  /\ (row (getNextPosition (mkPos 0 8) DirUp) = 0
      \/ col (getNextPosition (mkPos 0 8) DirUp) = 8)
  /\ row (getNextPosition (mkPos 0 8) DirUp) <= 0 + 1
  /\ 0 <= row (getNextPosition (mkPos 0 8) DirUp) + 1
  /\ col (getNextPosition (mkPos 0 8) DirUp) <= 8 + 1
  /\ 8 <= col (getNextPosition (mkPos 0 8) DirUp) + 1
  /\ (getNextPosition (mkPos 0 8) DirUp = mkPos 0 8 <-> 0 = 0).
Proof.
  apply (getNextPosition_on_board (mkPos 0 8) DirUp); unfold SUDOKU_SIZE; simpl; lia.
Defined.

(** X21: for whole numbers of seconds and of hints between 0 and 2^32,
    where every number the source computes is a whole number below 2^53
    and its floating-point arithmetic is exact, calculateScore is never
    negative, never grows with the time taken or with the hints used, and
    each hint costs at most 50 points. *)
Theorem calculateScore_monotone (difficulty : Difficulty) (t t' h h' : Z) :
  (0 <= t <= t')%Z -> (t' < 2 ^ 32)%Z -> (0 <= h <= h')%Z -> (h' < 2 ^ 32)%Z ->
  (0 <= calculateScore t' difficulty h' <= calculateScore t difficulty h)%Z
  /\ (calculateScore t difficulty h - 50 <= calculateScore t difficulty (h + 1))%Z.
Proof.
  intros [_ Ht] _ [_ Hh] _. revert Ht Hh. unfold calculateScore, baseScore.
  destruct difficulty; cbn [difficultyMultiplier_x2];
    change (1000 * 2 / 2)%Z with 1000%Z; change (1000 * 3 / 2)%Z with 1500%Z;
    change (1000 * 4 / 2)%Z with 2000%Z; change (1000 * 6 / 2)%Z with 3000%Z; lia.
Qed.

Lemma calculateScore_monotone_witness :
  (0 <= calculateScore 700 Medium 3 <= calculateScore 100 Medium 1)%Z
  /\ (calculateScore 100 Medium 1 - 50 <= calculateScore 100 Medium (1 + 1))%Z.
Proof.
  apply (calculateScore_monotone Medium 100 700 1 3); [lia | reflexivity | lia | reflexivity].
Defined.

(** *** [formatTime] *)

Lemma two_digits :
  Forall (fun k => (if Nat.ltb k 10 then "0" +:+ pretty k else pretty k)
                   = String (digitChar (k / 10)) (String (digitChar (k mod 10)) EmptyString))
         (seq 0 100).
Proof. apply (bool_decide_unpack _). vm_compute. exact I. Qed.

(** X22: for a time below 100 minutes formatTime returns five characters,
    MM:SS: tens and units of the minutes, a colon, tens and units of the
    remaining seconds. *)
Theorem formatTime_shape (seconds : nat) :
  seconds < 100 * 60 ->
  formatTime seconds
  = String (digitChar (seconds / 60 / 10)) (String (digitChar (seconds / 60 mod 10))
      (String ":"%char
        (String (digitChar (seconds mod 60 / 10))
           (String (digitChar (seconds mod 60 mod 10)) EmptyString)))).
Proof.
  intros Hs. unfold formatTime. pose proof two_digits as H. rewrite Forall_forall in H.
  rewrite (H (seconds / 60)), (H (seconds mod 60)); [done| |].
  - apply list_elem_of_In, in_seq. pose proof (Nat.mod_upper_bound seconds 60). lia.
  - apply list_elem_of_In, in_seq. split; [lia|].
    change (0 + 100) with 100. apply Nat.Div0.div_lt_upper_bound. lia.
Qed.

Lemma formatTime_shape_witness :
  formatTime 754 = "12:34".
Proof. apply (formatTime_shape 754). lia. Defined.

(** *** Conflict keys *)

Lemma digitValue_char (d : N) :
  (d < 10)%N -> digitValue (pretty_N_char d) = Some (N.to_nat d).
Proof.
  intros Hd.
  assert (d = 0 \/ d = 1 \/ d = 2 \/ d = 3 \/ d = 4 \/ d = 5 \/ d = 6 \/ d = 7 \/ d = 8
          \/ d = 9)%N as H by lia.
  repeat (destruct H as [->|H]; [reflexivity|]). by subst.
Qed.

Lemma char_not_dash (d : N) : Ascii.eqb (pretty_N_char d) "-"%char = false.
Proof. unfold pretty_N_char. by repeat case_match. Qed.

Lemma numeral_go_pretty (x : N) :
  exists k, forall acc s,
    numeral_go acc (pretty_N_go x s) = numeral_go (acc * 10 ^ k + N.to_nat x) s.
Proof.
  induction (N.lt_wf_0 x) as [x _ IH].
  destruct (decide (x = 0)%N) as [->|Hx].
  - exists 0. intros acc s. rewrite pretty_N_go_0. f_equal. simpl. lia.
  - destruct (IH (x `div` 10)%N) as [k Hk]; [apply N.div_lt; lia|].
    exists (S k). intros acc s. rewrite pretty_N_go_step by lia. rewrite Hk.
    cbn [numeral_go]. rewrite digitValue_char by (apply N.mod_lt; lia). f_equal.
    rewrite (N.div_mod' x 10) at 3. rewrite N2Nat.inj_add, N2Nat.inj_mul.
    change (N.to_nat 10) with 10. rewrite Nat.pow_succ_r'. lia.
Qed.

Lemma js_split_pretty (x : N) :
  forall s piece pieces,
  js_split "-"%char s = piece :: pieces ->
  js_split "-"%char (pretty_N_go x s) = pretty_N_go x piece :: pieces.
Proof.
  induction (N.lt_wf_0 x) as [x _ IH]; intros s piece pieces Hs.
  destruct (decide (x = 0)%N) as [->|Hx].
  - by rewrite !pretty_N_go_0.
  - rewrite (pretty_N_go_step x s), (pretty_N_go_step x piece) by lia.
    apply IH; [apply N.div_lt; lia|].
    cbn [js_split]. by rewrite char_not_dash, Hs.
Qed.

Lemma pretty_N_go_app (x : N) :
  forall s t, pretty_N_go x s +:+ t = pretty_N_go x (s +:+ t).
Proof.
  induction (N.lt_wf_0 x) as [x _ IH]; intros s t.
  destruct (decide (x = 0)%N) as [->|Hx].
  - by rewrite !pretty_N_go_0.
  - rewrite (pretty_N_go_step x s), (pretty_N_go_step x (s +:+ t)) by lia.
    rewrite IH; [done|apply N.div_lt; lia].
Qed.

Lemma js_Number_pretty (n : nat) : js_Number (pretty n) = Num n.
Proof.
  unfold js_Number, pretty, pretty_nat, pretty, pretty_N.
  destruct (decide (N.of_nat n = 0)%N) as [H|H].
  - assert (n = 0) as -> by lia. reflexivity.
  - destruct (numeral_go_pretty (N.of_nat n)) as [k Hk]. rewrite Hk.
    cbn [numeral_go]. f_equal. lia.
Qed.

Lemma js_split_key (r c : nat) :
  js_split "-"%char (conflictKey r c) = [pretty r; pretty c].
Proof.
  assert (Hc : js_split "-"%char (pretty c) = [pretty c]).
  { unfold pretty, pretty_nat, pretty, pretty_N.
    destruct (decide (N.of_nat c = 0)%N); [reflexivity|].
    by apply js_split_pretty. }
  assert (Ht : js_split "-"%char ("-" +:+ pretty c) = [EmptyString; pretty c]).
  { change ("-" +:+ pretty c) with (String "-"%char (pretty c)). cbn [js_split].
    by rewrite Hc. }
  unfold conflictKey. revert Ht. generalize ("-" +:+ pretty c). intros t Ht.
  unfold pretty at 1, pretty_nat, pretty, pretty_N.
  destruct (decide (N.of_nat r = 0)%N).
  - change ("0" +:+ t) with (String "0"%char t). cbn [js_split]. by rewrite Ht.
  - rewrite pretty_N_go_app. change (EmptyString +:+ t) with t.
    by rewrite (js_split_pretty _ _ _ _ Ht).
Qed.

Lemma parse_create_key (r c : nat) :
  parseConflictKey (createConflictKey r c) = mkParsedKey (Num r) (Num c).
Proof.
  unfold parseConflictKey, createConflictKey. rewrite js_split_key.
  cbn [map nth]. by rewrite !js_Number_pretty.
Qed.

(** X23: parseConflictKey undoes createConflictKey, for all row and column
    numbers; and every key that validateBoard puts in the conflict set of
    a 9x9 grid parses to the row and column of a cell in conflict. *)
Theorem parseConflictKey_createConflictKey (r c : nat) (grid : SudokuGrid) :
  parseConflictKey (createConflictKey r c) = mkParsedKey (Num r) (Num c)
  /\ (wf_grid grid ->
      forall key, In key (conflicts (fst (validateBoard grid))) ->
        exists p, parseConflictKey key = mkParsedKey (Num (row p)) (Num (col p))
                  /\ inConflict grid p).
Proof.
  split; [apply parse_create_key|]. intros _ key.
  unfold validateBoard. rewrite validateBoard_loop_spec. cbn [fst conflicts].
  rewrite In_conflict_fold. intros [[]|(p & Hp & Hconf & ->)].
  exists p. split; [apply parse_create_key|].
  apply list_elem_of_In, elem_of_allPositions in Hp as [Hr Hc].
  by apply isConflictb_spec.
Qed.

Lemma parseConflictKey_createConflictKey_witness :
  wf_grid doubled_five_grid
  /\ conflicts (fst (validateBoard doubled_five_grid)) = ["0-0"; "0-3"; "0-4"; "1-0"; "4-3"]
  /\ parseConflictKey (createConflictKey 0 3) = mkParsedKey (Num 0) (Num 3)
  /\ forall key, In key (conflicts (fst (validateBoard doubled_five_grid))) ->
        exists p, parseConflictKey key = mkParsedKey (Num (row p)) (Num (col p))
                  /\ inConflict doubled_five_grid p.
Proof.
  assert (Hwf : wf_grid doubled_five_grid) by (apply wf_gridb_spec; reflexivity).
  split; [exact Hwf|]. split; [vm_compute; reflexivity|].
  destruct (parseConflictKey_createConflictKey 0 3 doubled_five_grid) as [H1 H2].
  split; [exact H1 | exact (H2 Hwf)].
Defined.

(** ** The leaderboard *)

Lemma sort_insert_sorted (x : ScoreEntry) (l : list ScoreEntry) :
  StronglySorted (fun a b => se_timeElapsed a <= se_timeElapsed b) l ->
  StronglySorted (fun a b => se_timeElapsed a <= se_timeElapsed b) (sort_insert byTime x l).
Proof.
  induction 1 as [|y l Hs IH Hy]; simpl; [repeat constructor|].
  unfold byTime at 1.
  destruct (Z.leb_spec (Z.of_nat (se_timeElapsed x) - Z.of_nat (se_timeElapsed y)) 0).
  - constructor; [by constructor|]. constructor; [lia|].
    eapply Forall_impl; [exact Hy|]. simpl. intros; lia.
  - constructor; [exact IH|].
    assert (Hperm : sort_insert byTime x l ≡ₚ x :: l).
    { clear. induction l as [|z l IHl]; simpl; [done|].
      destruct (byTime x z <=? 0)%Z; [done|]. rewrite IHl. apply Permutation_swap. }
    rewrite Hperm. constructor; [lia|exact Hy].
Qed.

Lemma js_sort_sorted (l : list ScoreEntry) :
  StronglySorted (fun a b => se_timeElapsed a <= se_timeElapsed b) (js_sort byTime l).
Proof.
  induction l as [|x l IH]; simpl; [constructor|]. by apply sort_insert_sorted.
Qed.

Lemma js_sort_byTime_Permutation (l : list ScoreEntry) : js_sort byTime l ≡ₚ l.
Proof. apply (js_sort_Permutation se_timeElapsed). Qed.

Lemma elem_of_take_le {A} (x : A) (n : nat) (l : list A) : x ∈ take n l -> x ∈ l.
Proof. intros H. rewrite <- (take_drop n l). apply elem_of_app. by left. Qed.

Lemma StronglySorted_take {A} (R : A -> A -> Prop) (n : nat) (l : list A) :
  StronglySorted R l -> StronglySorted R (take n l).
Proof.
  intros H. revert n. induction H as [|x l Hs IH Hx]; intros [|n]; simpl; try constructor.
  - apply IH.
  - apply Forall_forall. intros y Hy. rewrite Forall_forall in Hx. apply Hx.
    by eapply elem_of_take_le.
Qed.

Lemma board_get_set (scores : Leaderboard) (d d' : Difficulty) (l : list ScoreEntry) :
  board_get (board_set scores d l) d' = if decide (d' = d) then l else board_get scores d'.
Proof. by destruct d, d'. Qed.

(** X24: addScore leaves the list of the entry's difficulty in order of
    time, fastest first, with at most ten entries, each of them an entry
    that was there or the new one; the other difficulties are untouched. *)
Theorem addScore_top10 (scoreEntry : ScoreEntry) (prevScores : Leaderboard) :
  StronglySorted (fun a b => se_timeElapsed a <= se_timeElapsed b)
    (board_get (addScore scoreEntry prevScores) (se_difficulty scoreEntry))
  /\ length (board_get (addScore scoreEntry prevScores) (se_difficulty scoreEntry))
     = Nat.min 10 (length (board_get prevScores (se_difficulty scoreEntry)) + 1)
  /\ (forall x, x ∈ board_get (addScore scoreEntry prevScores) (se_difficulty scoreEntry) ->
        x ∈ board_get prevScores (se_difficulty scoreEntry) \/ x = scoreEntry)
  /\ (forall d, d <> se_difficulty scoreEntry ->
        board_get (addScore scoreEntry prevScores) d = board_get prevScores d).
Proof.
  unfold addScore. rewrite board_get_set. rewrite decide_True by done.
  split; [|split; [|split]].
  - apply StronglySorted_take, js_sort_sorted.
  - rewrite length_take, js_sort_byTime_Permutation, length_app. simpl. lia.
  - intros x Hx. apply elem_of_take_le in Hx. rewrite js_sort_byTime_Permutation in Hx.
    apply elem_of_app in Hx as [Hx|Hx]; [by left|]. right. by apply list_elem_of_singleton.
  - intros d Hd. rewrite board_get_set. by rewrite decide_False.
Qed.

(** Where the stable sort puts a new last element. *)
Lemma sort_insert_before (x e : ScoreEntry) (A B : list ScoreEntry) :
  se_timeElapsed x <= se_timeElapsed e ->
  sort_insert byTime x (A ++ e :: B) = sort_insert byTime x A ++ e :: B.
Proof.
  intros Hle. induction A as [|y A IH]; simpl.
  - unfold byTime. destruct (Z.leb_spec (Z.of_nat (se_timeElapsed x)
                                         - Z.of_nat (se_timeElapsed e)) 0); [done|lia].
  - destruct (byTime x y <=? 0)%Z; [done|]. by rewrite IH.
Qed.

Lemma sort_insert_after (x e : ScoreEntry) (A B : list ScoreEntry) :
  Forall (fun y => se_timeElapsed y <= se_timeElapsed e) A ->
  se_timeElapsed e < se_timeElapsed x ->
  sort_insert byTime x (A ++ e :: B) = A ++ e :: sort_insert byTime x B.
Proof.
  intros HA Hlt. induction HA as [|y A Hy HA IH]; simpl.
  - unfold byTime at 1. destruct (Z.leb_spec (Z.of_nat (se_timeElapsed x)
                                              - Z.of_nat (se_timeElapsed e)) 0); [lia|done].
  - unfold byTime at 1. destruct (Z.leb_spec (Z.of_nat (se_timeElapsed x)
                                              - Z.of_nat (se_timeElapsed y)) 0); [lia|].
    by rewrite IH.
Qed.

Lemma notSlower_le (t : nat) (l : list ScoreEntry) :
  Forall (fun y => se_timeElapsed y <= t) (js_sort byTime (notSlower t l)).
Proof.
  apply Forall_forall. intros y Hy. rewrite js_sort_byTime_Permutation in Hy.
  unfold notSlower in Hy. by apply list_elem_of_filter in Hy as [? _].
Qed.

Lemma js_sort_snoc (l : list ScoreEntry) (e : ScoreEntry) :
  js_sort byTime (l ++ [e])
  = js_sort byTime (notSlower (se_timeElapsed e) l)
    ++ e :: js_sort byTime (filter (fun x => se_timeElapsed e < se_timeElapsed x) l).
Proof.
  unfold js_sort. rewrite foldr_app. cbn [foldr sort_insert].
  induction l as [|x l IH]; [done|]. cbn [foldr]. rewrite IH. unfold notSlower.
  rewrite !filter_cons.
  destruct (decide (se_timeElapsed x <= se_timeElapsed e)) as [Hle|Hgt].
  - rewrite decide_False by lia. cbn [foldr]. by apply sort_insert_before.
  - rewrite decide_True by lia. cbn [foldr]. apply sort_insert_after; [|lia].
    apply notSlower_le.
Qed.

Lemma sorted_middle {A} (R : A -> A -> Prop) (l1 l2 : list A) (x : A) :
  StronglySorted R (l1 ++ x :: l2) -> Forall (fun a => R a x) l1 /\ Forall (R x) l2.
Proof.
  induction l1 as [|a l1 IH]; simpl; intros H; inversion H as [|? ? Hs Ha]; subst.
  - by split.
  - destruct (IH Hs) as [H1 H2]. split; [|done]. constructor; [|done].
    rewrite Forall_forall in Ha. apply Ha, elem_of_app. right. by left.
Qed.

Lemma filter_all {A} (P : A -> Prop) `{forall x, Decision (P x)} (l : list A) :
  Forall P l -> filter P l = l.
Proof.
  induction 1 as [|x l Hx Hl IH]; [done|]. by rewrite filter_cons, decide_True, IH.
Qed.

Lemma filter_none {A} (P : A -> Prop) `{forall x, Decision (P x)} (l : list A) :
  Forall (fun x => ~ P x) l -> filter P l = [].
Proof.
  induction 1 as [|x l Hx Hl IH]; [done|]. by rewrite filter_cons, decide_False.
Qed.

Lemma filter_length_le {A} (P : A -> Prop) `{forall x, Decision (P x)} (l : list A) :
  length (filter P l) <= length l.
Proof.
  induction l as [|x l IH]; [done|]. rewrite filter_cons. case_decide; simpl; lia.
Qed.

(** Among ten or more entries in order of time, those not slower than [t]
    are fewer than ten exactly when [t] beats the tenth. *)
Lemma tenth_time (S : list ScoreEntry) (w : ScoreEntry) (t : nat) :
  StronglySorted (fun a b => se_timeElapsed a <= se_timeElapsed b) S ->
  S !! 9 = Some w ->
  (t < se_timeElapsed w <-> length (notSlower t S) < 10).
Proof.
  intros Hs Hw. pose proof (take_drop_middle S 9 w Hw) as Hsplit.
  assert (Hlen : length (take 9 S) = 9).
  { rewrite length_take. apply lookup_lt_Some in Hw. lia. }
  rewrite <- Hsplit in Hs. apply sorted_middle in Hs as [H1 H2].
  unfold notSlower. rewrite <- Hsplit, filter_app, filter_cons, length_app.
  destruct (decide (t < se_timeElapsed w)) as [Hlt|Hge].
  - rewrite decide_False by lia. rewrite (filter_none _ (drop 10 S)).
    + pose proof (filter_length_le (fun x => se_timeElapsed x <= t) (take 9 S)).
      simpl. split; [lia|done].
    + eapply Forall_impl; [exact H2|]. simpl. intros; lia.
  - rewrite decide_True by lia. rewrite (filter_all _ (take 9 S)).
    + simpl. split; lia.
    + eapply Forall_impl; [exact H1|]. simpl. intros; lia.
Qed.

Lemma notSlower_sorted_length (t : nat) (l : list ScoreEntry) :
  length (notSlower t (js_sort byTime l)) = length (notSlower t l).
Proof. unfold notSlower. by rewrite js_sort_byTime_Permutation. Qed.

(** X25: addScore puts the new entry right after the entries that are not
    slower than it.  With fewer than ten of those it is kept, at that
    place; with ten or more the board is their first ten and the new entry
    is dropped.  qualifiesForTop10 foretells which, unless the tenth time
    on the board is 0: then it answers true although the entry is dropped. *)
Theorem addScore_and_qualifiesForTop10 (scoreEntry : ScoreEntry) (prevScores : Leaderboard) :
  let d := se_difficulty scoreEntry in
  let t := se_timeElapsed scoreEntry in
  let ahead := notSlower t (board_get prevScores d) in
  (length ahead < 10 ->
     board_get (addScore scoreEntry prevScores) d !! length ahead = Some scoreEntry)
  /\ (10 <= length ahead ->
        board_get (addScore scoreEntry prevScores) d = take 10 (js_sort byTime ahead))
  /\ ((forall w, js_sort byTime (board_get prevScores d) !! 9 = Some w ->
                 se_timeElapsed w <> 0) ->
      (qualifiesForTop10 prevScores d t = true <-> length ahead < 10))
  /\ (forall w, js_sort byTime (board_get prevScores d) !! 9 = Some w ->
                se_timeElapsed w = 0 ->
                qualifiesForTop10 prevScores d t = true /\ 10 <= length ahead).
Proof.
  intros d t ahead. unfold addScore. fold d. rewrite board_get_set, decide_True by done.
  rewrite js_sort_snoc. fold t. fold ahead.
  assert (Hlen : length (js_sort byTime ahead) = length ahead)
    by (by rewrite js_sort_byTime_Permutation).
  split; [|split; [|split]].
  - intros Hk. rewrite lookup_take_lt by done.
    rewrite lookup_app_r by lia. by rewrite Hlen, Nat.sub_diag.
  - intros Hk. by rewrite take_app_le by lia.
  - intros Hw. unfold qualifiesForTop10.
    destruct (Nat.ltb_spec (length (board_get prevScores d)) 10) as [Hshort|Hlong].
    + split; [|done]. intros _. unfold ahead, notSlower.
      pose proof (filter_length_le (fun x => se_timeElapsed x <= t)
                    (board_get prevScores d)). lia.
    + destruct (js_sort byTime (board_get prevScores d) !! 9) as [w|] eqn:E.
      * specialize (Hw w eq_refl). rewrite (proj2 (Nat.eqb_neq _ _) Hw).
        rewrite Nat.ltb_lt. unfold ahead.
        rewrite <- notSlower_sorted_length. apply tenth_time; [apply js_sort_sorted|done].
      * apply lookup_ge_None in E. rewrite js_sort_byTime_Permutation in E. lia.
  - intros w Hw Hzero.
    assert (Hlong : 10 <= length (board_get prevScores d)).
    { apply lookup_lt_Some in Hw. rewrite js_sort_byTime_Permutation in Hw. lia. }
    split.
    + unfold qualifiesForTop10. destruct (Nat.ltb_spec (length (board_get prevScores d)) 10);
        [done|]. by rewrite Hw, Hzero.
    + unfold ahead. rewrite <- notSlower_sorted_length.
      pose proof (tenth_time _ w t (js_sort_sorted _) Hw) as H. lia.
Qed.

Lemma findIndex_spec {A} (test : A -> bool) (l : list A) :
  (findIndex test l = (-1)%Z /\ Forall (fun x => test x = false) l)
  \/ exists (k : nat) (x : A),
       findIndex test l = Z.of_nat k /\ l !! k = Some x /\ test x = true
       /\ Forall (fun y => test y = false) (take k l).
Proof.
  induction l as [|y l IH]; cbn [findIndex]; [left; by split|].
  destruct (test y) eqn:Hy.
  - right. exists 0, y. split; [done|]. split; [done|]. split; [done|]. constructor.
  - destruct IH as [[-> Hall]|(k & x & -> & Hk & Hx & Hall)].
    + left. split; [done|]. by constructor.
    + right. exists (S k), x. destruct (Z.ltb_spec (Z.of_nat k) 0); [lia|].
      split; [lia|]. split; [done|]. split; [done|]. simpl. by constructor.
Qed.

(** X26: getCurrentRank returns 0 when the board of the entry's difficulty
    has no entry with its id; otherwise it returns the place, counted from
    1, of the first entry with that id in order of time. *)
Theorem getCurrentRank_spec (scores : Leaderboard) (entry : ScoreEntry) :
  (getCurrentRank scores entry = 0%Z
   /\ forall s, s ∈ board_get scores (se_difficulty entry) -> se_id s <> se_id entry)
  \/ exists (k : nat) (s : ScoreEntry),
       getCurrentRank scores entry = Z.of_nat (k + 1)
       /\ js_sort byTime (board_get scores (se_difficulty entry)) !! k = Some s
       /\ se_id s = se_id entry
       /\ k < length (board_get scores (se_difficulty entry))
       /\ Forall (fun s' => se_id s' <> se_id entry)
                 (take k (js_sort byTime (board_get scores (se_difficulty entry)))).
Proof.
  unfold getCurrentRank.
  destruct (findIndex_spec (fun s => String.eqb (se_id s) (se_id entry))
              (js_sort byTime (board_get scores (se_difficulty entry))))
    as [[-> Hall]|(k & s & -> & Hk & Hs & Hall)].
  - left. split; [done|]. intros s Hs. rewrite <- js_sort_byTime_Permutation in Hs.
    rewrite Forall_forall in Hall. by apply String.eqb_neq, Hall.
  - right. exists k, s. split; [lia|]. split; [done|]. split; [by apply String.eqb_eq|].
    split.
    + apply lookup_lt_Some in Hk. by rewrite js_sort_byTime_Permutation in Hk.
    + eapply Forall_impl; [exact Hall|]. intros s'. apply String.eqb_neq.
Qed.

(** ** The game controller *)

Lemma last_snoc_move {A} (l : list A) (x : A) : last (l ++ [x]) = Some x.
Proof. apply last_snoc. Qed.

Lemma dropLast_snoc {A} (l : list A) (x : A) : dropLast (l ++ [x]) = l.
Proof.
  unfold dropLast. rewrite length_app. simpl.
  replace (length l + 1 - 1) with (length l) by lia. by rewrite take_app_length.
Qed.

(** X27: updateCell changes nothing but the addressed cell, and not even
    that one when it is a clue of the puzzle, a cell filled by a hint, off
    the board, or when the value is not one of 0..9; the solution, the
    clues and the hints are never touched. *)
Theorem updateCell_respects_locks (position : CellPosition) (value now : nat) (g : Game) :
  gs_solution (gameState (fst (updateCell position value now g))) = gs_solution (gameState g)
  /\ gs_initialGrid (gameState (fst (updateCell position value now g)))
     = gs_initialGrid (gameState g)
  /\ gs_hintCells (gameState (fst (updateCell position value now g)))
     = gs_hintCells (gameState g)
  /\ gs_hintsUsed (gameState (fst (updateCell position value now g)))
     = gs_hintsUsed (gameState g)
  /\ (forall r c, (r, c) <> (row position, col position) ->
        cell (gs_grid (gameState (fst (updateCell position value now g)))) r c
        = cell (gs_grid (gameState g)) r c)
  /\ (cell_filled (gs_initialGrid (gameState g)) (row position) (col position) = true
      \/ set_has (conflictKey (row position) (col position)) (gs_hintCells (gameState g)) = true
      \/ SUDOKU_SIZE <= row position \/ SUDOKU_SIZE <= col position \/ 9 < value ->
      fst (updateCell position value now g) = g).
Proof.
  unfold updateCell.
  destruct (Nat.leb_spec 9 (row position)) as [Hr|Hr]; [cbn [orb fst]; by repeat split|].
  destruct (Nat.leb_spec 9 (col position)) as [Hc|Hc]; [cbn [orb fst]; by repeat split|].
  cbn [orb].
  destruct (cell_filled (gs_initialGrid (gameState g)) (row position) (col position)) eqn:Hinit;
    [cbn [fst]; by repeat split|].
  destruct (set_has _ (gs_hintCells (gameState g))) eqn:Hhint; [cbn [fst]; by repeat split|].
  destruct (negb (value =? 0) && ((value <? 1) || (9 <? value))) eqn:Hval;
    [cbn [fst]; by repeat split|].
  destruct (cell_is (gs_grid (gameState g)) (row position) (col position) value);
    [cbn [fst]; by repeat split|].
  cbn [fst gameState with_grid gs_solution gs_initialGrid gs_hintCells gs_hintsUsed gs_grid].
  split; [done|]. split; [done|]. split; [done|]. split; [done|]. split.
  - intros r c Hne. rewrite deepCopyGrid_id. apply cell_set_cell_ne. congruence.
  - intros [H|[H|[H|[H|H]]]]; try discriminate; unfold SUDOKU_SIZE in *; try lia.
    exfalso. apply andb_false_iff in Hval as [Hval|Hval].
    + apply negb_false_iff, Nat.eqb_eq in Hval. lia.
    + apply orb_false_iff in Hval as [_ Hval]. apply Nat.ltb_ge in Hval. lia.
Qed.

(** X28: a change made by updateCell is taken back by undo, which restores
    the grid, the moves and the history, and is made again by redo. *)
Theorem undo_redo_updateCell (position : CellPosition) (value now : nat) (g : Game) :
  wf_game g ->
  moveHistory (fst (updateCell position value now g)) <> moveHistory g ->
  cell (gs_grid (gameState (fst (updateCell position value now g))))
       (row position) (col position) = Some value
  /\ snd (undo (fst (updateCell position value now g))) = true
  /\ gs_grid (gameState (fst (undo (fst (updateCell position value now g)))))
     = gs_grid (gameState g)
  /\ gs_moves (gameState (fst (undo (fst (updateCell position value now g)))))
     = gs_moves (gameState g)
  /\ moveHistory (fst (undo (fst (updateCell position value now g)))) = moveHistory g
  /\ snd (redo (fst (undo (fst (updateCell position value now g))))) = true
  /\ gs_grid (gameState (fst (redo (fst (undo (fst (updateCell position value now g)))))))
     = gs_grid (gameState (fst (updateCell position value now g)))
  /\ moveHistory (fst (redo (fst (undo (fst (updateCell position value now g))))))
     = moveHistory (fst (updateCell position value now g))
  /\ redoHistory (fst (redo (fst (undo (fst (updateCell position value now g)))))) = [].
Proof.
  intros (Hwf & _ & _). unfold updateCell.
  destruct (Nat.leb_spec 9 (row position)) as [Hr|Hr]; [by cbn [orb fst]|].
  destruct (Nat.leb_spec 9 (col position)) as [Hc|Hc]; [by cbn [orb fst]|].
  cbn [orb].
  destruct (cell_filled (gs_initialGrid (gameState g)) (row position) (col position));
    [by cbn [fst]|].
  destruct (set_has _ (gs_hintCells (gameState g))); [by cbn [fst]|].
  destruct (negb (value =? 0) && ((value <? 1) || (9 <? value))); [by cbn [fst]|].
  destruct (cell_is (gs_grid (gameState g)) (row position) (col position) value);
    [by cbn [fst]|].
  intros _. cbn [fst]. rewrite deepCopyGrid_id.
  unfold undo. cbn [moveHistory]. rewrite last_snoc_move.
  cbn [fst snd gameState with_grid gs_grid gs_moves moveHistory redoHistory createMove
       move_position previousValue newValue app].
  rewrite deepCopyGrid_id, restore_set_cell, !dropLast_snoc.
  unfold redo. cbn [redoHistory]. cbn [last].
  cbn [fst snd gameState with_grid gs_grid gs_moves moveHistory redoHistory createMove
       move_position previousValue newValue restore_cell].
  rewrite deepCopyGrid_id.
  split; [apply cell_set_cell_eq, wf_grid_cell; unfold SUDOKU_SIZE; done|].
  by repeat split.
Qed.

Lemma undo_redo_updateCell_witness :
  cell (gs_grid (gameState (fst (updateCell (mkPos 0 0) 7 1 sample_game)))) 0 0 = Some 7
  /\ snd (undo (fst (updateCell (mkPos 0 0) 7 1 sample_game))) = true
  /\ gs_grid (gameState (fst (undo (fst (updateCell (mkPos 0 0) 7 1 sample_game)))))
     = gs_grid (gameState sample_game)
  /\ gs_moves (gameState (fst (undo (fst (updateCell (mkPos 0 0) 7 1 sample_game)))))
     = gs_moves (gameState sample_game)
  /\ moveHistory (fst (undo (fst (updateCell (mkPos 0 0) 7 1 sample_game))))
     = moveHistory sample_game
  /\ snd (redo (fst (undo (fst (updateCell (mkPos 0 0) 7 1 sample_game))))) = true
  /\ gs_grid (gameState (fst (redo (fst (undo (fst (updateCell (mkPos 0 0) 7 1 sample_game)))))))
     = gs_grid (gameState (fst (updateCell (mkPos 0 0) 7 1 sample_game)))
  /\ moveHistory (fst (redo (fst (undo (fst (updateCell (mkPos 0 0) 7 1 sample_game))))))
     = moveHistory (fst (updateCell (mkPos 0 0) 7 1 sample_game))
  /\ redoHistory (fst (redo (fst (undo (fst (updateCell (mkPos 0 0) 7 1 sample_game)))))) = [].
Proof.
  apply (undo_redo_updateCell (mkPos 0 0) 7 1 sample_game).
  - repeat split; apply wf_gridb_spec; by vm_compute.
  - by vm_compute.
Defined.

Lemma set_has_add (k : string) (s : list string) : set_has k (set_add k s) = true.
Proof.
  unfold set_has. apply existsb_exists. exists k. split; [|apply String.eqb_refl].
  apply In_set_add. by left.
Qed.

Lemma updateCell_locked (p : CellPosition) (v now : nat) (g : Game) :
  set_has (conflictKey (row p) (col p)) (gs_hintCells (gameState g)) = true ->
  fst (updateCell p v now g) = g.
Proof.
  intros Hhint. unfold updateCell.
  destruct (Nat.leb 9 (row p) || Nat.leb 9 (col p)); [done|].
  destruct (cell_filled _ _ _); [done|]. by rewrite Hhint.
Qed.

Lemma getHint_no_cell (grid solution : SudokuGrid) :
  findEmptyCells grid = [] -> getHint grid solution = None.
Proof. intros H. unfold getHint. by rewrite H. Qed.

Lemma cell_outside (grid : SudokuGrid) r c :
  wf_grid grid -> ~ (r < SUDOKU_SIZE /\ c < SUDOKU_SIZE) -> cell grid r c = None.
Proof.
  intros [Hlen Hall] Hout. unfold cell.
  destruct (grid !! r) as [line|] eqn:E; [|done].
  apply lookup_ge_None. rewrite Forall_forall in Hall.
  rewrite (Hall line (list_elem_of_lookup_2 _ _ _ E)).
  apply lookup_lt_Some in E. lia.
Qed.

(** X29: on a game with 9x9 grids getHintForCell gives no hint once
    maxHints hints were used or when no cell is empty, and then changes
    nothing.  Otherwise it writes the value of the solution into the empty
    cell with the fewest candidates -- the values v of 1..9 with
    isSafe(grid, row, col, v) -- taking the first such cell in row-major
    order, counts the hint and locks the cell against updateCell.  An undo
    after it empties the cell again, but the hint still counts and the
    cell stays locked. *)
Theorem getHintForCell_spec (now : nat) (g : Game) :
  wf_game g ->
  (snd (getHintForCell now g) = false
   /\ fst (fst (getHintForCell now g)) = g
   /\ ((gs_maxHints (gameState g) <= gs_hintsUsed (gameState g))%Z
       \/ findEmptyCells (gs_grid (gameState g)) = []))
  \/ (snd (getHintForCell now g) = true
      /\ (gs_hintsUsed (gameState g) < gs_maxHints (gameState g))%Z
      /\ exists p,
           emptyCell (gs_grid (gameState g)) p
           /\ (let count := fun q : CellPosition =>
                  length (filter (fun v => isSafe (gs_grid (gameState g)) (row q) (col q) v
                                           = true) (seq 1 9)) in
               forall q, emptyCell (gs_grid (gameState g)) q ->
                 count p <= count q
                 /\ (count q = count p -> q <> p -> row_major_lt p q))
           /\ cell (gs_grid (gameState (fst (fst (getHintForCell now g))))) (row p) (col p)
              = cell (gs_solution (gameState g)) (row p) (col p)
           /\ (forall r c, (r, c) <> (row p, col p) ->
                 cell (gs_grid (gameState (fst (fst (getHintForCell now g))))) r c
                 = cell (gs_grid (gameState g)) r c)
           /\ gs_hintsUsed (gameState (fst (fst (getHintForCell now g))))
              = (gs_hintsUsed (gameState g) + 1)%Z
           /\ (forall v now',
                 fst (updateCell p v now' (fst (fst (getHintForCell now g))))
                 = fst (fst (getHintForCell now g)))
           /\ gs_grid (gameState (fst (undo (fst (fst (getHintForCell now g))))))
              = gs_grid (gameState g)
           /\ gs_hintsUsed (gameState (fst (undo (fst (fst (getHintForCell now g))))))
              = (gs_hintsUsed (gameState g) + 1)%Z
           /\ (forall v now',
                 fst (updateCell p v now' (fst (undo (fst (fst (getHintForCell now g))))))
                 = fst (undo (fst (fst (getHintForCell now g)))))).
Proof.
  intros (Hwf & Hswf & _). unfold getHintForCell. rewrite Z.geb_leb.
  destruct (Z.leb_spec (gs_maxHints (gameState g)) (gs_hintsUsed (gameState g))) as [Hmax|Hmax].
  { left. cbn [fst snd]. split; [done|]. split; [done|]. by left. }
  destruct (findEmptyCells (gs_grid (gameState g))) as [|p0 l0] eqn:Hempty.
  { left. rewrite getHint_no_cell by done. cbn [fst snd]. split; [done|]. split; [done|].
    by right. }
  destruct (getHint_first_min (gs_grid (gameState g)) (gs_solution (gameState g)))
    as (p & Hhint & Hmin); [by rewrite Hempty|].
  right. rewrite Hhint. clear Hempty.
  cbn [fst snd hint_row hint_col value gameState with_grid gs_grid gs_hintsUsed
       gs_hintCells].
  apply first_min_empty_cell in Hmin as [Hp Hleast].
  pose proof Hp as (Hr & Hc & Hcell).
  destruct (wf_grid_cell _ _ _ Hswf Hr Hc) as [v Hv].
  rewrite Hv, deepCopyGrid_id. cbn [restore_cell].
  split; [done|]. split; [done|]. exists p.
  split; [exact Hp|]. split; [exact Hleast|].
  split; [rewrite Hv; apply cell_set_cell_eq; eauto|].
  split; [intros r c Hne; apply cell_set_cell_ne; congruence|].
  split; [done|].
  split; [intros w now'; apply updateCell_locked; cbn [gameState gs_hintCells];
          apply set_has_add|].
  unfold undo. cbn [moveHistory]. rewrite last_snoc_move.
  cbn [fst gameState with_grid gs_grid gs_hintsUsed gs_hintCells createMove move_position
       previousValue row col].
  rewrite deepCopyGrid_id, restore_set_cell.
  split; [done|]. split; [done|].
  intros w now'. apply updateCell_locked. cbn [gameState with_grid gs_hintCells].
  apply set_has_add.
Qed.

Lemma getHintForCell_spec_witness :
  wf_game hint_game
  /\ length (findEmptyCells (gs_grid (gameState hint_game))) = 50
  /\ snd (getHintForCell 1 hint_game) = true
  /\ gs_grid (gameState (fst (fst (getHintForCell 1 hint_game)))) = set_cell carved_grid 4 0 1
  /\ exists p,
       emptyCell (gs_grid (gameState hint_game)) p
       /\ (let count := fun q : CellPosition =>
              length (filter (fun v => isSafe (gs_grid (gameState hint_game)) (row q) (col q) v
                                       = true) (seq 1 9)) in
           forall q, emptyCell (gs_grid (gameState hint_game)) q ->
             count p <= count q
             /\ (count q = count p -> q <> p -> row_major_lt p q))
       /\ cell (gs_grid (gameState (fst (fst (getHintForCell 1 hint_game))))) (row p) (col p)
          = cell (gs_solution (gameState hint_game)) (row p) (col p)
       /\ (forall r c, (r, c) <> (row p, col p) ->
             cell (gs_grid (gameState (fst (fst (getHintForCell 1 hint_game))))) r c
             = cell (gs_grid (gameState hint_game)) r c)
       /\ gs_hintsUsed (gameState (fst (fst (getHintForCell 1 hint_game))))
          = (gs_hintsUsed (gameState hint_game) + 1)%Z
       /\ (forall v now',
             fst (updateCell p v now' (fst (fst (getHintForCell 1 hint_game))))
             = fst (fst (getHintForCell 1 hint_game)))
       /\ gs_grid (gameState (fst (undo (fst (fst (getHintForCell 1 hint_game))))))
          = gs_grid (gameState hint_game)
       /\ gs_hintsUsed (gameState (fst (undo (fst (fst (getHintForCell 1 hint_game))))))
          = (gs_hintsUsed (gameState hint_game) + 1)%Z
       /\ (forall v now',
             fst (updateCell p v now'
                    (fst (undo (fst (fst (getHintForCell 1 hint_game))))))
             = fst (undo (fst (fst (getHintForCell 1 hint_game))))).
Proof.
  assert (Hwf : wf_game hint_game).
  { split; [|split]; apply wf_gridb_spec; by vm_compute. }
  assert (Hrun : snd (getHintForCell 1 hint_game) = true) by (vm_compute; reflexivity).
  split; [exact Hwf|]. split; [vm_compute; reflexivity|]. split; [exact Hrun|].
  split; [vm_compute; reflexivity|].
  destruct (getHintForCell_spec 1 hint_game Hwf) as [(Hno & _)|(_ & _ & Hp)].
  - rewrite Hrun in Hno. discriminate Hno.
  - exact Hp.
Defined.

Lemma In_key_fold (f : CellPosition -> bool) (l : list CellPosition) :
  forall acc k,
  In k (fold_left (fun acc p => if f p then set_add (conflictKey (row p) (col p)) acc
                                else acc) l acc)
  <-> In k acc \/ exists p, In p l /\ f p = true /\ k = conflictKey (row p) (col p).
Proof.
  induction l as [|p l IH]; intros acc k; cbn [fold_left].
  - split; [by left|]. by intros [H|(p & [] & _)].
  - rewrite IH. destruct (f p) eqn:Hp.
    + rewrite In_set_add. split.
      * intros [[->|H]|(q & Hq & Hfq & ->)]; [right; exists p; simpl; auto | by left |].
        right. exists q. simpl. auto.
      * intros [H|(q & [<-|Hq] & Hfq & ->)]; [left; by right | left; by left |].
        right. by exists q.
    + split.
      * intros [H|(q & Hq & Hfq & ->)]; [by left|]. right. exists q. simpl. auto.
      * intros [H|(q & [<-|Hq] & Hfq & ->)]; [by left | congruence |]. right. by exists q.
Qed.

Lemma incorrectKeys_nil (grid solution : SudokuGrid) :
  wf_grid grid -> wf_grid solution ->
  (incorrectKeys grid solution = [] <-> agrees grid solution).
Proof.
  intros Hwf Hswf.
  set (f := fun p : CellPosition =>
              cell_filled grid (row p) (col p)
              && negb (bool_decide (cell grid (row p) (col p)
                                    = cell solution (row p) (col p)))).
  assert (Hiff : forall k, In k (incorrectKeys grid solution)
                 <-> exists p, In p allPositions /\ f p = true
                               /\ k = conflictKey (row p) (col p)).
  { intros k.
    change (incorrectKeys grid solution)
      with (fold_left (fun acc p => if f p then set_add (conflictKey (row p) (col p)) acc
                                    else acc) allPositions []).
    rewrite (In_key_fold f). split; [by intros [[]|H] | by right]. }
  set (keys := incorrectKeys grid solution) in *. clearbody keys.
  split.
  - intros Hnil r c. destruct (decide (r < SUDOKU_SIZE /\ c < SUDOKU_SIZE)) as [[Hr Hc]|Hout].
    + destruct (f (mkPos r c)) eqn:Hf.
      * exfalso. assert (Hin : In (conflictKey r c) keys); [|by rewrite Hnil in Hin].
        apply (proj2 (Hiff _)). exists (mkPos r c).
        split; [by apply list_elem_of_In, elem_of_allPositions|]. by split.
      * unfold f in Hf. cbn [row col] in Hf. apply andb_false_iff in Hf as [Hf|Hf].
        -- left. unfold cell_filled in Hf. apply negb_false_iff in Hf.
           by apply cell_is_true.
        -- right. apply negb_false_iff in Hf. by apply bool_decide_eq_true in Hf.
    + right. by rewrite !cell_outside.
  - intros Hag. destruct keys as [|k ks]; [done|]. exfalso.
    destruct (proj1 (Hiff k)) as (p & _ & Hf & _); [by left|]. unfold f in Hf.
    apply andb_true_iff in Hf as [H1 H2]. apply negb_true_iff in H2.
    apply bool_decide_eq_false in H2. unfold cell_filled in H1.
    apply negb_true_iff in H1.
    destruct (Hag (row p) (col p)) as [H|H]; [|done].
    apply cell_is_true in H. congruence.
Qed.

(** X30: checkSolution leaves the grid as it is; it answers valid exactly
    when the grid has no conflict and every filled cell holds the value of
    the solution. *)
Theorem checkSolution_spec (g : Game) :
  wf_game g ->
  gs_grid (gameState (fst (checkSolution g))) = gs_grid (gameState g)
  /\ (isValid (snd (checkSolution g)) = true
      <-> consistent (gs_grid (gameState g))
          /\ agrees (gs_grid (gameState g)) (gs_solution (gameState g)))
  /\ (gs_incorrectCells (gameState (fst (checkSolution g))) = []
      <-> agrees (gs_grid (gameState g)) (gs_solution (gameState g))).
Proof.
  intros (Hwf & Hswf & _). unfold checkSolution.
  pose proof (validateBoard_valid (gs_grid (gameState g))) as Hvalid.
  assert (Hsame : snd (validateBoard (gs_grid (gameState g))) = gs_grid (gameState g)).
  { unfold validateBoard. by rewrite validateBoard_loop_spec. }
  destruct (validateBoard (gs_grid (gameState g))) as [validation grid'].
  cbn [fst snd] in *. subst grid'.
  cbn [gameState with_grid gs_grid gs_incorrectCells isValid].
  pose proof (incorrectKeys_nil _ _ Hwf Hswf) as Hnil.
  split; [done|]. split; [|exact Hnil].
  rewrite andb_true_iff, Hvalid, Nat.eqb_eq, <- Hnil.
  split; intros [H1 H2]; (split; [done|]).
  - by destruct (incorrectKeys _ _).
  - by rewrite H2.
Qed.

Lemma checkSolution_spec_witness :
  gs_grid (gameState (fst (checkSolution sample_game))) = gs_grid (gameState sample_game)
  /\ (isValid (snd (checkSolution sample_game)) = true
      <-> consistent (gs_grid (gameState sample_game))
          /\ agrees (gs_grid (gameState sample_game)) (gs_solution (gameState sample_game)))
  /\ (gs_incorrectCells (gameState (fst (checkSolution sample_game))) = []
      <-> agrees (gs_grid (gameState sample_game)) (gs_solution (gameState sample_game))).
Proof.
  apply (checkSolution_spec sample_game).
  split; [|split]; apply wf_gridb_spec; by vm_compute.
Defined.

(** ** The carved puzzle and its one completion *)

(** C1: carving a complete valid board, by [removeCells] or by its
    fallback [removeSymmetricCells], with any clue target and any shuffle,
    yields a puzzle that has exactly one completion consistent with the
    Sudoku constraints, the board it was carved from; the test of the
    source, [countSolutions puzzle 2 = 1], holds of it, and it keeps at
    least 17 clues. *)
Theorem carving_keeps_uniqueness
    (grid : SudokuGrid) (clues : Z) (rs : Rand) (puzzle : SudokuGrid) :
  solved grid ->
  puzzle = fst (removeCells grid clues rs)
  \/ puzzle = fst (removeSymmetricCells grid clues rs) ->
  completion puzzle grid
  /\ (forall s, completion puzzle s -> s = grid)
  /\ countSolutions puzzle 2 = 1%Z
  /\ 17 <= clueCount puzzle.
Proof.
  intros Hsolved Hpuzzle. pose proof Hsolved as (Hwf & Hfull & _).
  destruct (carving_one_completion grid clues rs Hsolved) as [[H1 H2] [H3 H4]].
  destruct (carving_counts_one grid clues rs Hwf Hfull) as [[H5 H6] [H7 H8]].
  destruct Hpuzzle as [->| ->]; auto.
Qed.

Lemma carving_keeps_uniqueness_witness :
  solved solved_grid
  /\ clueCount (fst (removeCells solved_grid 22 reverse_carving)) = 31
  /\ completion (fst (removeCells solved_grid 22 reverse_carving)) solved_grid
  /\ (forall s, completion (fst (removeCells solved_grid 22 reverse_carving)) s
                -> s = solved_grid)
  /\ countSolutions (fst (removeCells solved_grid 22 reverse_carving)) 2 = 1%Z
  /\ 17 <= clueCount (fst (removeCells solved_grid 22 reverse_carving)).
Proof.
  split; [exact solved_grid_solved|].
  split; [rewrite removeCells_reverse; vm_compute; reflexivity|].
  apply (carving_keeps_uniqueness solved_grid 22 reverse_carving).
  - exact solved_grid_solved.
  - left. reflexivity.
Defined.

(** ** The outcome of [generatePuzzle] for the expert level *)

Lemma filter_length_iff {A} (P Q : A -> Prop)
    `{!forall x, Decision (P x)} `{!forall x, Decision (Q x)} (l : list A) :
  Forall (fun x => P x <-> Q x) l -> length (filter P l) = length (filter Q l).
Proof.
  induction 1 as [|x l Hx _ IH]; [reflexivity|].
  rewrite !filter_cons. destruct (decide (P x)), (decide (Q x)); simpl; tauto || lia.
Qed.

(** The seeded board holds 27 clues. *)
Lemma seeded_clueCount (n1 n5 n9 : list nat) :
  n1 ≡ₚ seq 1 9 -> n5 ≡ₚ seq 1 9 -> n9 ≡ₚ seq 1 9 -> clueCount (seeded n1 n5 n9) = 27.
Proof.
  intros H1 H5 H9.
  pose proof (clueCount_empties _ (seeded_wf n1 n5 n9)) as Hcount.
  assert (Hempty : length (findEmptyCells (seeded n1 n5 n9)) = 54); [|simpl in Hcount; lia].
  rewrite findEmptyCells_filter.
  rewrite (filter_length_iff _ (fun p => row p / BOX_SIZE <> col p / BOX_SIZE));
    [reflexivity|].
  apply Forall_forall. intros p Hp. apply elem_of_allPositions in Hp as [Hr Hc].
  unfold isEmptyAt. rewrite cell_is_true, cell_seeded by done.
  destruct (Nat.eqb_spec (row p / BOX_SIZE) (col p / BOX_SIZE)) as [E|E]; [|done].
  split; [|done]. intros Hz. exfalso.
  set (n := match row p / BOX_SIZE with 0 => n1 | 1 => n5 | _ => n9 end) in Hz.
  assert (Hz' : nth (BOX_SIZE * (row p mod BOX_SIZE) + col p mod BOX_SIZE) n 0 = EMPTY_CELL)
    by congruence.
  clear Hz. rename Hz' into Hz.
  assert (Hn : n ≡ₚ seq 1 9) by (unfold n; by destruct (row p / BOX_SIZE) as [|[|?]]).
  assert (Hi : BOX_SIZE * (row p mod BOX_SIZE) + col p mod BOX_SIZE < length n).
  { rewrite Hn. simpl. unfold BOX_SIZE.
    pose proof (Nat.mod_upper_bound (row p) 3). pose proof (Nat.mod_upper_bound (col p) 3).
    lia. }
  pose proof (nth_In n 0 Hi) as Hin. rewrite Hz in Hin.
  apply list_elem_of_In in Hin. rewrite Hn in Hin.
  apply list_elem_of_In, in_seq in Hin. unfold EMPTY_CELL in Hin. lia.
Qed.

(** The board returned by [generateCompleteSudoku] is complete, with its
    81 clues, or it is the seeded board, with its 27 clues. *)
Lemma generateCompleteSudoku_clueCount (rs : Rand) :
  (findEmptyCells (fst (generateCompleteSudoku rs)) = []
   /\ clueCount (fst (generateCompleteSudoku rs)) = 81)
  \/ (findEmptyCells (fst (generateCompleteSudoku rs)) <> []
      /\ clueCount (fst (generateCompleteSudoku rs)) = 27).
Proof.
  pose proof (generateCompleteSudoku_wf rs) as Hwf.
  pose proof (clueCount_empties _ Hwf) as Hcount.
  destruct (findEmptyCells (fst (generateCompleteSudoku rs))) as [|p l] eqn:Hempty.
  { left. split; [done|]. simpl in Hcount. lia. }
  right. split; [done|]. clear Hcount.
  revert Hempty. unfold generateCompleteSudoku.
  destruct (fillDiagonalBoxes_seeded rs) as (n1 & n5 & n9 & -> & H1 & H5 & H9).
  pose proof (solveSudoku_unfold (seeded n1 n5 n9) 0 (drop 24 rs)) as Hrun.
  destruct (solveSudoku (seeded n1 n5 n9) 0 (drop 24 rs)) as [[b g2] rs2]. cbn [fst].
  destruct b.
  - destruct (solveSudoku_fuel_sound _ _ _ _ _ _ (seeded_inv n1 n5 n9 H1 H5 H9) Hrun)
      as [_ Hfull].
    rewrite Hfull. discriminate.
  - intros _. apply solveSudoku_fuel_restores in Hrun.
    specialize (Hrun eq_refl). cbn [fst snd] in Hrun. subst g2. by apply seeded_clueCount.
Qed.

(** The puzzle left by the symmetric fallback still has 17 clues. *)
Lemma removeSymmetricCells_17 (grid : SudokuGrid) (clues : Z) (rs : Rand) :
  wf_grid grid -> 17 <= clueCount grid ->
  17 <= clueCount (fst (removeSymmetricCells grid clues rs)).
Proof.
  intros Hwf Hgrid.
  set (I := fun p : SudokuGrid => wf_grid p /\ (p = grid \/ hasUniqueSolution p = true)).
  assert (H2 : forall p r c r' c', I p ->
             hasUniqueSolution (set_cell (set_cell p r c EMPTY_CELL) r' c' EMPTY_CELL) = true ->
             I (set_cell (set_cell p r c EMPTY_CELL) r' c' EMPTY_CELL)).
  { intros p r c r' c' [Hp _] Hu. split; [by do 2 apply wf_grid_set_cell | by right]. }
  assert (H1 : forall p r c, I p -> hasUniqueSolution (set_cell p r c EMPTY_CELL) = true ->
                             I (set_cell p r c EMPTY_CELL)).
  { intros p r c [Hp _] Hu. split; [by apply wf_grid_set_cell | by right]. }
  assert (H0 : I grid) by (split; [exact Hwf | by left]).
  destruct (removeSymmetricCells_inv I H2 grid clues rs H0) as [Hwf' [->|Hu]]; [exact Hgrid|].
  by apply hasUniqueSolution_true.
Qed.

(** C2, amended: [generatePuzzle "expert" 3] never fails and never
    retries: its first attempt returns the generated solution together
    with [removeCells solution 22].  When the random pass of [removeCells]
    reaches its 59 removals the puzzle is what that pass left, and it has
    exactly 22 clues; otherwise the puzzle is the result of
    [removeSymmetricCells solution 22], which has an odd number of clues,
    at least 17, and at least 21 when the solution has no empty cell. *)
Theorem generatePuzzle_expert_outcome (rs : Rand) :
  let solution := fst (generateCompleteSudoku rs) in
  let rs1 := snd (generateCompleteSudoku rs) in
  let positions := fst (shuffleArray allPositions rs1) in
  let rs2 := snd (shuffleArray allPositions rs1) in
  let pass := removeCells_loop 81 59 162 positions solution 0 0 in
  let puzzle := fst (removeCells solution 22 rs1) in
  generatePuzzle "expert" 3 rs
  = (Returned puzzle solution, [], snd (removeCells solution 22 rs1))
  /\ ((59 <= snd pass)%Z -> puzzle = fst pass /\ clueCount puzzle = 22)
  /\ ((snd pass < 59)%Z ->
      puzzle = fst (removeSymmetricCells solution 22 rs2)
      /\ Nat.Odd (clueCount puzzle) /\ 17 <= clueCount puzzle
      /\ (findEmptyCells solution = [] -> 21 <= clueCount puzzle)).
Proof.
  intros solution rs1 positions rs2 pass puzzle.
  assert (Hcfg : lookup_config DIFFICULTY_CONFIGS "expert"
                 = Some (mkConfig "expert" "Expert" 22 1 "Ultimate challenge"))
    by reflexivity.
  split.
  { unfold generatePuzzle. cbn [generate_loop].
    rewrite (generate_once_known _ _ rs Hcfg). reflexivity. }
  pose proof (generateCompleteSudoku_wf rs) as Hwf. fold solution in Hwf.
  pose proof (generateCompleteSudoku_clueCount rs) as Hclues. fold solution in Hclues.
  assert (Hpos : Forall (fun p => p ∈ allPositions) positions).
  { apply Forall_forall. intros p Hp. unfold positions in Hp.
    by rewrite (shuffleArray_Permutation allPositions rs1) in Hp. }
  destruct (removeCells_loop_count 81 59 162 positions solution 0 0 Hwf Hpos)
    as (Hcount & Hlo & Hhi). fold pass in Hcount, Hlo, Hhi. cbv zeta in Hcount, Hlo, Hhi.
  assert (Hun : removeCells solution 22 rs1
                = if (snd pass <? 59)%Z then removeSymmetricCells solution 22 rs2
                  else (fst pass, rs2)) by apply removeCells_unfold.
  split.
  - intros Hreach. unfold puzzle. rewrite Hun.
    destruct (Z.ltb_spec (snd pass) 59) as [Hlt|_]; [lia|]. cbn [fst].
    split; [reflexivity|].
    destruct Hclues as [[_ Hc]|[_ Hc]]; rewrite Hc in Hcount; lia.
  - intros Hshort. unfold puzzle. rewrite Hun.
    destruct (Z.ltb_spec (snd pass) 59) as [_|Hge]; [|lia].
    split; [reflexivity|].
    destruct (removeSymmetricCells_count solution 22 rs2 Hwf) as (k & Hk & Hbound); [lia|].
    assert (H17 : 17 <= clueCount (fst (removeSymmetricCells solution 22 rs2))).
    { apply removeSymmetricCells_17; [exact Hwf|].
      destruct Hclues as [[_ Hc]|[_ Hc]]; rewrite Hc; lia. }
    split; [|split; [exact H17|]].
    + destruct Hclues as [[_ Hc]|[_ Hc]]; rewrite Hc in Hk.
      * exists (40 - k). lia.
      * exists (13 - k). lia.
    + intros Hfull. destruct Hclues as [[_ Hc]|[Hne _]]; [|done].
      rewrite Hc in Hk. lia.
Qed.

Lemma generatePuzzle_expert_outcome_witness :
  generatePuzzle "expert" 3 reverse_source = (Returned carved_grid solved_grid, [], [])
  /\ snd (removeCells_loop 81 59 162
            (fst (shuffleArray allPositions (snd (generateCompleteSudoku reverse_source))))
            (fst (generateCompleteSudoku reverse_source)) 0 0) = 55%Z
  /\ clueCount carved_grid = 31
  /\ let solution := fst (generateCompleteSudoku reverse_source) in
     let rs1 := snd (generateCompleteSudoku reverse_source) in
     let rs2 := snd (shuffleArray allPositions rs1) in
     let puzzle := fst (removeCells solution 22 rs1) in
     puzzle = fst (removeSymmetricCells solution 22 rs2)
     /\ Nat.Odd (clueCount puzzle) /\ 17 <= clueCount puzzle
     /\ (findEmptyCells solution = [] -> 21 <= clueCount puzzle).
Proof.
  split; [exact generatePuzzle_expert_run|].
  assert (Hpass : snd (removeCells_loop 81 59 162
            (fst (shuffleArray allPositions (snd (generateCompleteSudoku reverse_source))))
            (fst (generateCompleteSudoku reverse_source)) 0 0) = 55%Z)
    by (rewrite generateCompleteSudoku_reverse; exact random_pass_reverse).
  split; [exact Hpass|]. split; [vm_compute; reflexivity|].
  apply (proj2 (proj2 (generatePuzzle_expert_outcome reverse_source))).
  rewrite Hpass. reflexivity.
Defined.
